(** * rlottie scene model: a shallow embedding of [src/lottie/lottiemodel.h]

    The header defines the in-memory Lottie model and its per-frame
    evaluation.  This development embeds the parts that decide how a value
    is looked up at a frame (keyframe tracks and properties), path
    interpolation, trim segments, gradient arithmetic, UTF-8 decoding of
    text documents, per-character text animation and the layer transform
    fallback, and proves properties of them.

    Modelling conventions.
    - A C++ [float] is an exact rational ([Q]): rounding, infinities and
      NaN are outside the model, comparisons and arithmetic are exact.
      Equality of computed numbers is therefore [Qeq] ([==]).
      Path interpolation is also evaluated in binary32, every operation
      rounded to nearest ([Binary32]), where exactness is what is asked.
    - A C++ [int] frame number is an integer ([Z]); the conversion to
      [float] that a mixed comparison performs is [inject_Z].
    - [std::vector] is [list]; [front()], [back()], [operator[]] outside
      the bounds are undefined behaviour in C++ and give [None] here.
    - A failed [assert] gives [None] as well.
    - Templates that rely on overloaded operators are type classes. *)

From Stdlib Require Import Strings.Byte Strings.String.
From Stdlib Require Import ZArith QArith Qabs Qround Qpower.
From Stdlib Require Import List Bool Lia Lqa.
From Equations Require Import Equations.
Import ListNotations.

Set Implicit Arguments.
Local Open Scope Q_scope.

(** ** Numbers *)

Abbreviation float := Q (only parsing).

Definition of_int (z : Z) : float := inject_Z z.

(** The four comparison operators on [float], as booleans. *)
Definition fle (a b : float) : bool := Qle_bool a b.
Definition fge (a b : float) : bool := Qle_bool b a.
Definition flt (a b : float) : bool := negb (Qle_bool b a).
Definition fgt (a b : float) : bool := negb (Qle_bool a b).

(** [std::min] and [std::max]: the first argument wins ties. *)
Definition fmin (a b : float) : float := if flt b a then b else a.
Definition fmax (a b : float) : float := if flt a b then b else a.

(** Truncation towards zero, and [std::fmod] over it: the result has the
    sign of the dividend. *)
Definition ftrunc (a : float) : Z := Z.quot (Qnum a) (Zpos (Qden a)).
Definition fmod (a b : float) : float := a - b * of_int (ftrunc (a / b)).

(** The arithmetic a template argument of [lerp] must provide:
    [operator+], [operator-] and [operator*(float, T)]. *)
Class Arith (T : Type) : Type := {
  add : T -> T -> T;
  sub : T -> T -> T;
  scale : float -> T -> T
}.

(** Value initialisation, [T{}]. *)
Class Default (T : Type) : Type := dflt : T.

#[export] Instance Arith_float : Arith float :=
  {| add := Qplus; sub := Qminus; scale := Qmult |}.
#[export] Instance Default_float : Default float := 0.

(** [template <typename T> T lerp(const T &start, const T &end, float t)] *)
Definition lerp {T : Type} `{Arith T} (start end' : T) (t : float) : T :=
  add start (scale t (sub end' start)).

(** ** Keyframe values *)

(** What [KeyFrames] needs from a [Value<T, Tag>]: its two end values,
    [at] and [angle]. *)
Class ValueLike (V T : Type) : Type := {
  v_start : V -> T;
  v_end : V -> T;
  v_at : V -> float -> T;
  v_angle : V -> float -> float
}.

Module Value.
  (** [struct Value<T, void>] *)
Record t (T : Type) : Type := mk { start_ : T; end_ : T }.

Definition at_ {T : Type} `{Arith T} (v : t T) (x : float) : T :=
    lerp (start_ v) (end_ v) x.
Definition angle {T : Type} (v : t T) (x : float) : float := 0.
End Value.

#[export] Instance ValueLike_Value {T : Type} `{Arith T} :
  ValueLike (Value.t T) T :=
  {| v_start := @Value.start_ T; v_end := @Value.end_ T;
     v_at := Value.at_; v_angle := @Value.angle T |}.

(** ** Keyframe tracks *)

Module KeyFrames.
  (** [struct KeyFrames<T, Tag>::Frame].  The interpolator is a
      [VInterpolator *]: absent, or the easing function it evaluates. *)
Record Frame (V : Type) : Type := mkFrame {
    start_ : float;
    end_ : float;
    interpolator_ : option (float -> float);
    value_ : V
  }.

Record t (V : Type) : Type := mk { frames_ : list (Frame V) }.

Section Eval.
Context {V T : Type} `{ValueLike V T} `{Default T}.

Definition progress (f : Frame V) (frameNo : Z) : float :=
      match interpolator_ f with
      | Some ip => ip ((of_int frameNo - start_ f) / (end_ f - start_ f))
      | None => 0
      end.

Definition frame_value (f : Frame V) (frameNo : Z) : T :=
      v_at (value_ f) (progress f frameNo).

Definition frame_angle (f : Frame V) (frameNo : Z) : float :=
      v_angle (value_ f) (progress f frameNo).

    (** The [for] loop of [value]; falling out of it is [return {}]. *)
Fixpoint value_scan (fs : list (Frame V)) (frameNo : Z) : T :=
      match fs with
      | [] => dflt
      | keyFrame :: rest =>
          if fge (of_int frameNo) (start_ keyFrame)
             && flt (of_int frameNo) (end_ keyFrame)
          then frame_value keyFrame frameNo
          else value_scan rest frameNo
      end.

Definition value (a : t V) (frameNo : Z) : option T :=
      match frames_ a with
      | [] => None
      | front :: _ =>
          let back := last (frames_ a) front in
          if fge (start_ front) (of_int frameNo)
          then Some (v_start (value_ front))
          else if fle (end_ back) (of_int frameNo)
          then Some (v_end (value_ back))
          else Some (value_scan (frames_ a) frameNo)
      end.

Fixpoint angle_scan (fs : list (Frame V)) (frameNo : Z) : float :=
      match fs with
      | [] => 0
      | frame :: rest =>
          if fge (of_int frameNo) (start_ frame)
             && flt (of_int frameNo) (end_ frame)
          then frame_angle frame frameNo
          else angle_scan rest frameNo
      end.

Definition angle (a : t V) (frameNo : Z) : option float :=
      match frames_ a with
      | [] => None
      | front :: _ =>
          let back := last (frames_ a) front in
          if fge (start_ front) (of_int frameNo)
             || fle (end_ back) (of_int frameNo)
          then Some 0
          else Some (angle_scan (frames_ a) frameNo)
      end.
End Eval.

Definition changed {V : Type} (a : t V) (prevFrame curFrame : Z)
    : option bool :=
    match frames_ a with
    | [] => None
    | front :: _ =>
        let first := start_ front in
        let last := end_ (last (frames_ a) front) in
        Some (negb ((fgt first (of_int prevFrame)
                     && fgt first (of_int curFrame))
                    || (flt last (of_int prevFrame)
                        && flt last (of_int curFrame))))
    end.
End KeyFrames.

(** ** Properties *)

Module Property.
  (** [class Property<T, Tag>]: either a constant or an animation.  [V] is
      the [Value<T, Tag>] the tag selects. *)
Inductive t (T V : Type) : Type :=
  | Static (value_ : T)
  | Animated (animation_ : KeyFrames.t V).
Arguments Static {T V} value_.
Arguments Animated {T V} animation_.

Definition isStatic {T V : Type} (p : t T V) : bool :=
    match p with Static _ => true | Animated _ => false end.

Definition value {T V : Type} `{ValueLike V T} `{Default T}
    (p : t T V) (frameNo : Z) : option T :=
    match p with
    | Static v => Some v
    | Animated a => KeyFrames.value a frameNo
    end.

Definition angle {T V : Type} `{ValueLike V T}
    (p : t T V) (frameNo : Z) : option float :=
    match p with
    | Static _ => Some 0
    | Animated a => KeyFrames.angle a frameNo
    end.

Definition changed {T V : Type} (p : t T V) (prevFrame curFrame : Z)
    : option bool :=
    match p with
    | Static _ => Some false
    | Animated a => KeyFrames.changed a prevFrame curFrame
    end.
End Property.

(** ** Failure *)

(** Sequencing of steps that may have no defined result. *)
Notation "'let?' x ':=' e 'in' k" :=
  (match e with Some x => k | None => None end)
  (at level 10, x pattern, e at level 100, k at level 200).

(** ** Points and colours *)

(** Modelled from the spec: [vpoint.h] is not among the sources.  The
    "position-like values" of the data model are points of the plane: a
    [VPointF] is a pair of [float] coordinates, added, subtracted and
    scaled coordinate by coordinate, and [VPointF{}] is the origin. *)
Record VPointF : Type := mkPoint { px : float; py : float }.

#[export] Instance Arith_VPointF : Arith VPointF := {|
  add p q := mkPoint (px p + px q) (py p + py q);
  sub p q := mkPoint (px p - px q) (py p - py q);
  scale m p := mkPoint (px p * m) (py p * m)
|}.
#[export] Instance Default_VPointF : Default VPointF := mkPoint 0 0.

(** [class Color]: the default member initialisers make [Color{}] white. *)
Record Color : Type := mkColor { r : float; g : float; b : float }.

#[export] Instance Arith_Color : Arith Color := {|
  add c1 c2 := mkColor (r c1 + r c2) (g c1 + g c2) (b c1 + b c2);
  sub c1 c2 := mkColor (r c1 - r c2) (g c1 - g c2) (b c1 - b c2);
  scale m c := mkColor (r c * m) (g c * m) (b c * m)
|}.
#[export] Instance Default_Color : Default Color := mkColor 1 1 1.

(** ** Binary32 arithmetic *)

(** The exact model above takes every [float] operation as the operation
    on rationals.  This module rounds: a finite binary32 number is a
    rational [m * 2^e] with [|m| < 2^24] and [e >= -149], and each IEEE 754
    operation returns the exact result rounded to the nearest such number,
    ties to the even significand.  Overflow (a result of magnitude [2^128]
    or more), infinities and NaN are outside the model. *)
Module Binary32.
Definition pow2 (e : Z) : Q := Qpower 2 e.

(** [floor (log2 |x|)], for [x] other than 0: the quotient of numerator
    and denominator lies within a factor 2 of the power that the two bit
    lengths give. *)
Definition ilog2 (x : Q) : Z :=
  let n := Z.abs (Qnum x) in
  let d := Zpos (Qden x) in
  let c := (Z.log2 n - Z.log2 d)%Z in
  if (n * 2 ^ Z.max 0 (- c) <? d * 2 ^ Z.max 0 c)%Z then (c - 1)%Z else c.

(** The nearest integer, ties to even. *)
Definition rne (x : Q) : Z :=
  let f := Qfloor x in
  match Qcompare (x - inject_Z f) (1 # 2) with
  | Lt => f
  | Gt => (f + 1)%Z
  | Eq => if Z.even f then f else (f + 1)%Z
  end.

(** The exponent of the last place of the significand: 24 bits for a
    normal number, the fixed exponent -149 for a subnormal one. *)
Definition exponent (x : Q) : Z := Z.max (ilog2 x - 23) (-149).

Definition round_at (x : Q) : Q :=
  inject_Z (rne (x / pow2 (exponent x))) * pow2 (exponent x).

(** Rounding to binary32, on the fraction in lowest terms. *)
Definition round (x : Q) : float := round_at (Qred x).

Definition fadd (a b : float) : float := round (a + b).
Definition fsub (a b : float) : float := round (a - b).
Definition fmul (a b : float) : float := round (a * b).

(** The operators of [VPointF] with every operation rounded. *)
Definition Arith_VPointF : Arith VPointF := {|
  add p q := mkPoint (fadd (px p) (px q)) (fadd (py p) (py q));
  sub p q := mkPoint (fsub (px p) (px q)) (fsub (py p) (py q));
  scale m p := mkPoint (fmul (px p) m) (fmul (py p) m)
|}.

(** A binary32 number: rounding leaves it as it is. *)
Definition representable (a : float) : Prop := round a == a.

(** A point whose coordinates are binary32 numbers of magnitude at most
    [2^126]: no sum or difference of two such coordinates overflows. *)
Definition ordinary (p : VPointF) : Prop :=
  (representable (px p) /\ Qabs (px p) <= pow2 126)
  /\ (representable (py p) /\ Qabs (py p) <= pow2 126).
End Binary32.

(** ** Position values *)

(** Modelled from the spec: [vbezier.h] is not among the sources.  The
    cubic bezier through four control points is sampled for a position
    ([pointAt]) and a tangent direction ([angleAt]) at the curve parameter
    that [tAtLength] finds for a length along the curve. *)
Class VBezier (T : Type) : Type := {
  pointAt : T * T * T * T -> float -> T;
  angleAt : T * T * T * T -> float -> float;
  tAtLength : T * T * T * T -> float -> float -> float
}.

Module PositionValue.
(** [struct Value<T, Position>] *)
Record t (T : Type) : Type := mk {
  start_ : T;
  end_ : T;
  inTangent_ : T;
  outTangent_ : T;
  length_ : float;
  hasTangent_ : bool
}.

Definition fromPoints {T : Type} (v : t T) : T * T * T * T :=
  (start_ v, outTangent_ v, inTangent_ v, end_ v).

Definition at_ {T : Type} `{Arith T} `{VBezier T} (v : t T) (x : float)
  : T :=
  if hasTangent_ v
  then let b := fromPoints v in
       pointAt b (tAtLength b (x * length_ v) (length_ v))
  else lerp (start_ v) (end_ v) x.

Definition angle {T : Type} `{VBezier T} (v : t T) (x : float) : float :=
  if hasTangent_ v
  then let b := fromPoints v in
       angleAt b (tAtLength b (x * length_ v) (length_ v))
  else 0.
End PositionValue.

#[export] Instance ValueLike_PositionValue {T : Type} `{Arith T}
  `{VBezier T} : ValueLike (PositionValue.t T) T :=
  {| v_start := @PositionValue.start_ T; v_end := @PositionValue.end_ T;
     v_at := PositionValue.at_; v_angle := PositionValue.angle |}.

(** ** Paths *)

(** Modelled from the spec: the commands of [VPath] ([vpath.h] is not
    among the sources) that the model writes into a path. *)
Inductive Element : Type :=
| MoveTo (p : VPointF)
| CubicTo (c1 c2 e : VPointF)
| Close.

(** Modelled from the spec: a [VPath] is the caller-supplied buffer a path
    is written into; it is represented by the drawing commands it has
    received, in order. *)
Definition VPath : Type := list Element.

Module VPathOps.
(** Modelled from the spec: [VPath::reset] empties the buffer. *)
Definition reset (path : VPath) : VPath := [].

(** Modelled from the spec: [VPath::reserve] only pre-allocates. *)
Definition reserve (pts elms : nat) (path : VPath) : VPath := path.

(** Modelled from the spec: [VPath::moveTo], [VPath::cubicTo] and
    [VPath::close] append their command. *)
Definition moveTo (p : VPointF) (path : VPath) : VPath := path ++ [MoveTo p].
Definition cubicTo (c1 c2 e : VPointF) (path : VPath) : VPath :=
  path ++ [CubicTo c1 c2 e].
Definition close (path : VPath) : VPath := path ++ [Close].
End VPathOps.

Module PathData.
Import VPathOps.
Local Open Scope nat_scope.

(** [struct PathData] *)
Record t : Type := mk { mPoints : list VPointF; mClosed : bool }.

(** [start.mPoints[i] + t * (end.mPoints[i] - start.mPoints[i])], in the
    arithmetic [A] of the points: the exact one unless another is
    given. *)
Definition blend_at {A : Arith VPointF} (start end' : list VPointF)
  (x : float) (i : nat) : option VPointF :=
  let? s := nth_error start i in
  let? e := nth_error end' i in
  Some (add s (scale x (sub e s))).

(** The loop [for (size_t i = 1; i < size; i += 3)] of [lerp]. *)
Equations? lerp_loop {A : Arith VPointF} (start end' : list VPointF)
  (x : float) (size i : nat) (result : VPath) : option VPath
  by wf (size - i) lt :=
lerp_loop start end' x size i result with lt_dec i size := {
  | right _ := Some result
  | left _ with blend_at start end' x i := {
    | None := None
    | Some c1 with blend_at start end' x (i + 1) := {
      | None := None
      | Some c2 with blend_at start end' x (i + 2) := {
        | None := None
        | Some e :=
            lerp_loop start end' x size (i + 3) (cubicTo c1 c2 e result)
        } } } }.
Proof. lia. Qed.

Definition lerp {A : Arith VPointF} (start end' : t) (x : float)
  (result : VPath) : option VPath :=
  let result := reset result in
  match mPoints start, mPoints end' with
  | [], _ | _, [] => Some result
  | _ :: _, _ :: _ =>
      let size := Nat.min (length (mPoints start)) (length (mPoints end')) in
      let result := reserve (size + 1) (size / 3 + 2) result in
      let? p0 := blend_at (mPoints start) (mPoints end') x 0 in
      let result := moveTo p0 result in
      let? result :=
        lerp_loop (mPoints start) (mPoints end') x size 1 result in
      Some (if mClosed start then close result else result)
  end.

(** The loop [for (size_t i = 1; i < size; i += 3)] of [toPath]. *)
Equations? toPath_loop (points : list VPointF) (size i : nat)
  (path : VPath) : option VPath by wf (size - i) lt :=
toPath_loop points size i path with lt_dec i size := {
  | right _ := Some path
  | left _ with nth_error points i := {
    | None := None
    | Some c1 with nth_error points (i + 1) := {
      | None := None
      | Some c2 with nth_error points (i + 2) := {
        | None := None
        | Some e := toPath_loop points size (i + 3) (cubicTo c1 c2 e path)
        } } } }.
Proof. lia. Qed.

Definition toPath (d : t) (path : VPath) : option VPath :=
  let path := reset path in
  match mPoints d with
  | [] => Some path
  | _ :: _ =>
      let size := length (mPoints d) in
      let points := mPoints d in
      let path := reserve (size + 1) (size / 3 + 2) path in
      let? p0 := nth_error points 0 in
      let path := moveTo p0 path in
      let? path := toPath_loop points size 1 path in
      Some (if mClosed d then close path else path)
  end.
End PathData.

(** [Property<PathData>::value(int frameNo, VPath &path)]: the overload
    that writes the path of a frame into a caller-supplied buffer. *)
Module PathProperty.
Definition t : Type := Property.t PathData.t (Value.t PathData.t).

(** The [for] loop over the keyframes: it has no [break], every segment
    that contains the frame rewrites the buffer. *)
Fixpoint value_scan (vec : list (KeyFrames.Frame (Value.t PathData.t)))
  (frameNo : Z) (path : VPath) : option VPath :=
  match vec with
  | [] => Some path
  | keyFrame :: rest =>
      if fge (of_int frameNo) (KeyFrames.start_ keyFrame)
         && flt (of_int frameNo) (KeyFrames.end_ keyFrame)
      then
        let? path :=
          PathData.lerp (Value.start_ (KeyFrames.value_ keyFrame))
            (Value.end_ (KeyFrames.value_ keyFrame))
            (KeyFrames.progress keyFrame frameNo) path in
        value_scan rest frameNo path
      else value_scan rest frameNo path
  end.

Definition value (p : t) (frameNo : Z) (path : VPath) : option VPath :=
  match p with
  | Property.Static v => PathData.toPath v path
  | Property.Animated a =>
      let vec := KeyFrames.frames_ a in
      match vec with
      | [] => None
      | front :: _ =>
          let back := last vec front in
          if fge (KeyFrames.start_ front) (of_int frameNo)
          then PathData.toPath (Value.start_ (KeyFrames.value_ front)) path
          else if fle (KeyFrames.end_ back) (of_int frameNo)
          then PathData.toPath (Value.end_ (KeyFrames.value_ back)) path
          else value_scan vec frameNo path
      end
  end.
End PathProperty.

(** ** Approximate comparison *)

(** [vglobal.h] is not among the sources: its two approximate tests are
    modelled from what the spec says of them, over a tolerance
    [EPSILON_FLOAT] that is a parameter. *)
Module VGlobal.
Section Tolerance.
Variable EPSILON_FLOAT : float.

(** Modelled from the spec: [vCompare] of [vglobal.h], the comparison the
    spec writes [≈]: two numbers compare equal when they differ by less
    than the tolerance. *)
Definition vCompare (p1 p2 : float) : bool :=
  flt (Qabs (p1 - p2)) EPSILON_FLOAT.

(** Modelled from the spec: [vIsZero] of [vglobal.h], the test the spec
    calls "numerically zero": the number is at most the tolerance in
    absolute value. *)
Definition vIsZero (f : float) : bool := fle (Qabs f) EPSILON_FLOAT.
End Tolerance.
End VGlobal.

(** ** Trim *)

Module Trim.
(** [struct Trim::Segment] *)
Record Segment : Type := mkSegment { start : float; end' : float }.

Inductive TrimType : Type := Simultaneously | Individually.

(** [class Trim] *)
Record t : Type := mk {
  mStart : Property.t float (Value.t float);
  mEnd : Property.t float (Value.t float);
  mOffset : Property.t float (Value.t float);
  mTrimType : TrimType
}.

Definition noloop (start end' : float) : option Segment :=
  if fge start 0 && fge end' 0
  then Some (mkSegment (fmin start end') (fmax start end'))
  else None.

Definition loop (start end' : float) : option Segment :=
  if fge start 0 && fge end' 0
  then Some (mkSegment (fmax start end') (fmin start end'))
  else None.

(** The body of [segment] once the three properties are evaluated. *)
Definition segment_of (EPSILON_FLOAT : float) (vStart vEnd vOffset : float)
  : option Segment :=
  let start := vStart / 100 in
  let end' := vEnd / 100 in
  let offset := fmod vOffset 360 / 360 in
  let diff := Qabs (start - end') in
  if VGlobal.vCompare EPSILON_FLOAT diff 0 then Some (mkSegment 0 0)
  else if VGlobal.vCompare EPSILON_FLOAT diff 1 then Some (mkSegment 0 1)
  else if fgt offset 0 then
    let start := start + offset in
    let end' := end' + offset in
    if fle start 1 && fle end' 1 then noloop start end'
    else if fgt start 1 && fgt end' 1 then noloop (start - 1) (end' - 1)
    else if fgt start 1 then loop (start - 1) end'
    else loop start (end' - 1)
  else
    let start := start + offset in
    let end' := end' + offset in
    if fge start 0 && fge end' 0 then noloop start end'
    else if flt start 0 && flt end' 0 then noloop (1 + start) (1 + end')
    else if flt start 0 then loop (1 + start) end'
    else loop start (1 + end').

Definition segment (EPSILON_FLOAT : float) (trim : t) (frameNo : Z)
  : option Segment :=
  let? vStart := Property.value (mStart trim) frameNo in
  let? vEnd := Property.value (mEnd trim) frameNo in
  let? vOffset := Property.value (mOffset trim) frameNo in
  segment_of EPSILON_FLOAT vStart vEnd vOffset.
End Trim.

(** ** Gradient data *)

Module Gradient.
(** [class Gradient::Data] *)
Record Data : Type := mkData { mGradient : list float }.

(** The loop [for (auto &i : newG.mGradient) { i = i op *g2It; g2It++; }]:
    it walks the copy of the left operand and advances the iterator of the
    right one.  The size test before it keeps the iterator in range. *)
Fixpoint combine_with (op : float -> float -> float)
  (newG g2 : list float) : list float :=
  match newG, g2 with
  | i :: newG', x :: g2' => op i x :: combine_with op newG' g2'
  | _, _ => newG
  end.

Definition plus (g1 g2 : Data) : Data :=
  if negb (length (mGradient g1) =? length (mGradient g2))%nat then g1
  else mkData (combine_with Qplus (mGradient g1) (mGradient g2)).

Definition minus (g1 g2 : Data) : Data :=
  if negb (length (mGradient g1) =? length (mGradient g2))%nat then g1
  else mkData (combine_with Qminus (mGradient g1) (mGradient g2)).

Definition mult (m : float) (g : Data) : Data :=
  mkData (map (fun i => i * m) (mGradient g)).
End Gradient.

#[export] Instance Arith_GradientData : Arith Gradient.Data :=
  {| add := Gradient.plus; sub := Gradient.minus; scale := Gradient.mult |}.
#[export] Instance Default_GradientData : Default Gradient.Data :=
  Gradient.mkData [].

(** ** Unicode text *)

Module Unicode.
Local Open Scope Z_scope.

(** What a step of the decoder comes to: a value, [return false], or the
    [std::out_of_range] that [std::string::at] throws. *)
Inductive step (A : Type) : Type :=
| Go (a : A)
| ReturnFalse
| OutOfRange.
Arguments Go {A} a.
Arguments ReturnFalse {A}.
Arguments OutOfRange {A}.

Notation "'let*' x ':=' e 'in' k" :=
  (match e with
   | Go x => k
   | ReturnFalse => ReturnFalse
   | OutOfRange => OutOfRange
   end)
  (at level 10, x pattern, e at level 100, k at level 200).

(** The outcome of [convertToUnicode]: the boolean it returns together
    with the content of [out], or the exception. *)
Inductive outcome : Type :=
| Returns (ok : bool) (out : list Z)
| Throws.

Definition isInvalidByte (x : Z) : bool :=
  (x =? 192) || (x =? 193) || (x >=? 245).

Definition isContinuationByte (x : Z) : bool :=
  Z.land x 0xc0 =? 0x80.

(** [input.at(i)], as an [unsigned char]. *)
Definition at_ (input : list byte) (i : nat) : step Z :=
  match nth_error input i with
  | Some c => Go (Z.of_N (Byte.to_N c))
  | None => OutOfRange
  end.

(** [d = input.at(++i); if (...) return false; r |= (d & 0x3f) << shift;] *)
Definition continuation (input : list byte) (i : nat) (shift r : Z)
  : step Z :=
  let* d := at_ input i in
  if (d =? 0) || isInvalidByte d || negb (isContinuationByte d)
  then ReturnFalse
  else Go (Z.lor r (Z.shiftl (Z.land d 0x3f) shift)).

(** One turn of the loop body at index [i]: how many further bytes it
    consumed (how often it incremented [i] itself) and the code point it
    pushed, if any. *)
Definition decode_at (input : list byte) (i : nat)
  : step (nat * option Z) :=
  let* d := at_ input i in
  if Z.land d 0x80 =? 0 then Go (0%nat, Some d)
  else if Z.land d 0xe0 =? 0xc0 then
    let r := Z.shiftl (Z.land d 0x1f) 6 in
    let* r := continuation input (i + 1) 0 r in
    if r <=? 0x7F then ReturnFalse else Go (1%nat, Some r)
  else if Z.land d 0xf0 =? 0xe0 then
    let r := Z.shiftl (Z.land d 0x0f) 12 in
    let* r := continuation input (i + 1) 6 r in
    let* r := continuation input (i + 2) 0 r in
    if r <=? 0x7FF then ReturnFalse else Go (2%nat, Some r)
  else if Z.land d 0xf8 =? 0xf0 then
    let r := Z.shiftl (Z.land d 0x07) 18 in
    let* r := continuation input (i + 1) 12 r in
    let* r := continuation input (i + 2) 6 r in
    let* r := continuation input (i + 3) 0 r in
    if r <=? 0xFFFF then ReturnFalse else Go (3%nat, Some r)
  else if Z.land d 0xfc =? 0xf8 then
    let r := Z.shiftl (Z.land d 0x03) 24 in
    let* r := continuation input (i + 1) 18 r in
    let* r := continuation input (i + 2) 12 r in
    let* r := continuation input (i + 3) 6 r in
    let* r := continuation input (i + 4) 0 r in
    if r <=? 0x1FFFFF then ReturnFalse else Go (4%nat, Some r)
  else if Z.land d 0xfe =? 0xfc then
    let r := Z.shiftl (Z.land d 0x01) 30 in
    let* r := continuation input (i + 1) 24 r in
    let* r := continuation input (i + 2) 18 r in
    let* r := continuation input (i + 3) 12 r in
    let* r := continuation input (i + 4) 6 r in
    let* r := continuation input (i + 5) 0 r in
    if r <=? 0x3FFFFFF then ReturnFalse else Go (5%nat, Some r)
  else
    (* printf("ERROR....  UTF8 Text[%s], index[%d]\n", ...); i++; *)
    Go (1%nat, None).

Definition push_back (out : list Z) (r : option Z) : list Z :=
  match r with
  | Some r => out ++ [r]
  | None => out
  end.

(** The loop [for (unsigned int i = 0; i < input.size(); i++)]. *)
Equations? convert_loop (input : list byte) (i : nat) (out : list Z)
  : outcome by wf (length input - i)%nat lt :=
convert_loop input i out with lt_dec i (length input) := {
  | right _ := Returns true out
  | left _ with decode_at input i := {
    | OutOfRange := Throws
    | ReturnFalse := Returns false out
    | Go (used, r) :=
        convert_loop input (S (i + used)) (push_back out r)
    } }.
Proof. lia. Qed.

Definition convertToUnicode (input : list byte) (out : list Z) : outcome :=
  convert_loop input 0 out.

(** [class Unicode]: the code points ([mUnicodeText] is a null pointer
    until a text is set), the UTF-8 text and the number of code points. *)
Record t : Type := mk {
  mUnicodeText : option (list Z);
  mUtf8Text : list byte;
  mUnicodeLength : nat
}.

(** [Unicode() = default] *)
Definition empty : t := mk None [] 0.

(** [setUtf8Text]: the object afterwards, or [None] when the exception of
    the decoder escapes. *)
Definition setUtf8Text (u : t) (input : list byte) : option t :=
  match convertToUnicode input [] with
  | Throws => None
  | Returns true out => Some (mk (Some out) input (length out))
  | Returns false _ => Some u
  end.

Definition size (u : t) : nat := mUnicodeLength u.
End Unicode.

(** ** Text *)

Module Justification.
Inductive t : Type := Left | Right | Center.
End Justification.

Module CharAnimatedProperties.
(** [struct CharAnimatedProperties] *)
Record t : Type := mk {
  opacity : float;
  rotation : float;
  tracking : float;
  strokeWidth : float;
  position : VPointF;
  scale : VPointF;
  anchor : VPointF;
  fillColor : Color;
  strokeColor : Color
}.

(** The default member initialisers. *)
Definition init : t :=
  mk 100 0 0 0 (mkPoint 0 0) (mkPoint 100 100) (mkPoint 0 0)
     (mkColor 0 0 0) (mkColor 0 0 0).
End CharAnimatedProperties.

Module TextData.
(** [struct TextData]: the snapshot of the properties at a frame. *)
Record t : Type := mk {
  strokeOverFill : bool;
  justification : Justification.t;
  fontSize : Z;
  ascent : float;
  lineHeight : float;
  baselineShift : float;
  charAnimPropList : list CharAnimatedProperties.t
}.

Definition init : t := mk false Justification.Left 0%Z 0 0 0 [].
End TextData.

Module TextDocument.
(** [class TextDocument] *)
Record t : Type := mk {
  mTime : Z;
  mSize : Z;
  mFont : string;
  mText : Unicode.t;
  mJustification : Justification.t;
  mTracking : float;
  mLineHeight : float;
  mBaselineShift : float;
  mFillColor : Color;
  mStrokeColor : Color;
  mStrokeWidth : float;
  mStrokeOverFill : bool
}.
End TextDocument.

Module PropertyText.
(** [class PropertyText]: the type tag together with the member of the
    union that the tag selects. *)
Inductive t : Type :=
| Opacity (mFloat : Property.t float (Value.t float))
| Rotation (mFloat : Property.t float (Value.t float))
| Tracking (mFloat : Property.t float (Value.t float))
| StrokeWidth (mFloat : Property.t float (Value.t float))
| Position (mPoint : Property.t VPointF (Value.t VPointF))
| Scale (mPoint : Property.t VPointF (Value.t VPointF))
| Anchor (mPoint : Property.t VPointF (Value.t VPointF))
| StrokeColor (mColor : Property.t Color (Value.t Color))
| FillColor (mColor : Property.t Color (Value.t Color)).
End PropertyText.

Module TextAnimator.
(** [class TextAnimator] *)
Record t : Type := mk {
  mName : string;
  mAnimatedProperties : list PropertyText.t;
  mRangeType : Z;
  mRangeUnit : Z;
  mRangeStart : Property.t float (Value.t float);
  mRangeEnd : Property.t float (Value.t float);
  mHasRange : bool
}.
End TextAnimator.

Module TextLayerData.
Import TextDocument TextAnimator.

(** [class TextLayerData] *)
Record t : Type := mk {
  mTextDocument : list TextDocument.t;
  mTextAnimator : list TextAnimator.t
}.

(** The loop of [textDocument]. *)
Fixpoint textDocument_scan (docs : list TextDocument.t) (frameNo : Z)
  : option TextDocument.t :=
  match docs with
  | [] => None
  | textDocument :: rest =>
      if (mTime textDocument >=? frameNo)%Z then Some textDocument
      else textDocument_scan rest frameNo
  end.

Definition textDocument (this : t) (frameNo : Z) : option TextDocument.t :=
  match textDocument_scan (mTextDocument this) frameNo with
  | Some textDocument => Some textDocument
  | None =>
      match mTextDocument this with
      | [] => None
      | front :: _ => Some (last (mTextDocument this) front)
      end
  end.

Definition getTextDocument (this : t) (frameNo : Z)
  : option TextDocument.t :=
  textDocument this frameNo.

Definition isStatic (this : t) : bool :=
  match mTextAnimator this with
  | [] => (length (mTextDocument this) <=? 1)%nat
  | _ :: _ => false
  end.

Definition hasRange (this : t) : bool :=
  match mTextAnimator this with
  | [] => false
  | _ :: _ => existsb mHasRange (mTextAnimator this)
  end.

(** The range of an animator at a frame, as character indices. *)
Definition rangeIndex (textAnim : TextAnimator.t) (frameNo textLength : Z)
  : option (float * float) :=
  let? rangeStartIndex := Property.value (mRangeStart textAnim) frameNo in
  let? rangeEndIndex := Property.value (mRangeEnd textAnim) frameNo in
  if (mRangeUnit textAnim =? 1)%Z
  then Some (rangeStartIndex / 100 * of_int textLength,
             rangeEndIndex / 100 * of_int textLength)
  else Some (rangeStartIndex, rangeEndIndex).

(** The weight ([progress]) of an animator on the character [i]. *)
Definition progress (rangeStartIndex rangeEndIndex : float) (i : Z)
  : float :=
  if fle rangeStartIndex (of_int i)
     && fle (of_int (i + 1)) rangeEndIndex
  then 1
  else if fge rangeStartIndex (of_int i)
          && fle rangeEndIndex (of_int (i + 1))
  then rangeEndIndex - rangeStartIndex
  else if fle rangeStartIndex (of_int i)
          && fge rangeEndIndex (of_int i)
          && fle rangeEndIndex (of_int (i + 1))
  then rangeEndIndex - of_int i
  else if fge rangeStartIndex (of_int i)
          && fle rangeStartIndex (of_int (i + 1))
          && fge rangeEndIndex (of_int (i + 1))
  then of_int (i + 1) - rangeStartIndex
  else 0.

(** The [switch] over the type of an animated property. *)
Definition applyProperty (frameNo : Z) (progress : float)
  (animProp : CharAnimatedProperties.t) (property : PropertyText.t)
  : option CharAnimatedProperties.t :=
  let 'CharAnimatedProperties.mk o ro tr sw po sc an fc stc := animProp in
  match property with
  | PropertyText.Opacity p =>
      let? v := Property.value p frameNo in
      Some (CharAnimatedProperties.mk (lerp o v progress)
              ro tr sw po sc an fc stc)
  | PropertyText.Rotation p =>
      let? v := Property.value p frameNo in
      Some (CharAnimatedProperties.mk o (lerp ro v progress)
              tr sw po sc an fc stc)
  | PropertyText.Tracking p =>
      let? v := Property.value p frameNo in
      Some (CharAnimatedProperties.mk o ro (lerp tr v progress)
              sw po sc an fc stc)
  | PropertyText.StrokeWidth p =>
      let? v := Property.value p frameNo in
      Some (CharAnimatedProperties.mk o ro tr (lerp sw v progress)
              po sc an fc stc)
  | PropertyText.Position p =>
      let? v := Property.value p frameNo in
      Some (CharAnimatedProperties.mk o ro tr sw (lerp po v progress)
              sc an fc stc)
  | PropertyText.Scale p =>
      let? v := Property.value p frameNo in
      Some (CharAnimatedProperties.mk o ro tr sw po (lerp sc v progress)
              an fc stc)
  | PropertyText.Anchor p =>
      let? v := Property.value p frameNo in
      Some (CharAnimatedProperties.mk o ro tr sw po sc
              (lerp an v progress) fc stc)
  | PropertyText.FillColor p =>
      let? v := Property.value p frameNo in
      Some (CharAnimatedProperties.mk o ro tr sw po sc an
              (lerp fc v progress) stc)
  | PropertyText.StrokeColor p =>
      let? v := Property.value p frameNo in
      Some (CharAnimatedProperties.mk o ro tr sw po sc an fc
              (lerp stc v progress))
  end.

(** The loop over the animated properties of one animator. *)
Fixpoint applyProperties (frameNo : Z) (progress : float)
  (animProp : CharAnimatedProperties.t) (properties : list PropertyText.t)
  : option CharAnimatedProperties.t :=
  match properties with
  | [] => Some animProp
  | property :: rest =>
      let? animProp := applyProperty frameNo progress animProp property in
      applyProperties frameNo progress animProp rest
  end.

(** The body of the loop over the animators, for the character [i]. *)
Definition applyAnimator (frameNo textLength i : Z)
  (animProp : CharAnimatedProperties.t) (textAnim : TextAnimator.t)
  : option CharAnimatedProperties.t :=
  let? (rangeStartIndex, rangeEndIndex) :=
    rangeIndex textAnim frameNo textLength in
  let progress := progress rangeStartIndex rangeEndIndex i in
  if fgt progress 0
  then applyProperties frameNo progress animProp
         (mAnimatedProperties textAnim)
  else Some animProp.

Fixpoint applyAnimators (frameNo textLength i : Z)
  (animProp : CharAnimatedProperties.t) (animators : list TextAnimator.t)
  : option CharAnimatedProperties.t :=
  match animators with
  | [] => Some animProp
  | textAnim :: rest =>
      let? animProp := applyAnimator frameNo textLength i animProp textAnim in
      applyAnimators frameNo textLength i animProp rest
  end.

(** The record that [getTextData] appends for the character [i]. *)
Definition charAnimProp (this : t) (textDocument : TextDocument.t)
  (frameNo textLength i : Z) : option CharAnimatedProperties.t :=
  let 'CharAnimatedProperties.mk o ro tr _ po sc an _ _ :=
    CharAnimatedProperties.init in
  let animProp :=
    CharAnimatedProperties.mk o ro tr (mStrokeWidth textDocument) po sc an
      (mFillColor textDocument) (mStrokeColor textDocument) in
  applyAnimators frameNo textLength i animProp (mTextAnimator this).

(** The loop [for (int i = 0; i < textLength; i++)], with [n] turns left. *)
Fixpoint charLoop (this : t) (textDocument : TextDocument.t)
  (frameNo textLength : Z) (n : nat) (i : Z)
  (charAnimPropList : list CharAnimatedProperties.t)
  : option (list CharAnimatedProperties.t) :=
  match n with
  | O => Some charAnimPropList
  | S n' =>
      let? animProp := charAnimProp this textDocument frameNo textLength i in
      charLoop this textDocument frameNo textLength n' (i + 1)%Z
        (charAnimPropList ++ [animProp])
  end.

Definition getTextData (this : t) (obj : TextData.t) (frameNo : Z)
  : option TextData.t :=
  let? textDocument := getTextDocument this frameNo in
  let textLength := Z.of_nat (Unicode.size (mText textDocument)) in
  let textLength :=
    if isStatic this || negb (hasRange this) then 1%Z else textLength in
  let? charAnimPropList :=
    charLoop this textDocument frameNo textLength (Z.to_nat textLength) 0%Z
      (TextData.charAnimPropList obj) in
  Some (TextData.mk (mStrokeOverFill textDocument)
          (mJustification textDocument) (mSize textDocument)
          (TextData.ascent obj) (mLineHeight textDocument)
          (mBaselineShift textDocument) charAnimPropList).
End TextLayerData.

(** ** Transforms and layers *)

Module VMatrix.
(** Modelled from the spec: [VMatrix] of [vmatrix.h], which is not among
    the sources.  It is the affine matrix of a transform, given by its
    nine coefficients. *)
Record t : Type := mk {
  m11 : float; m12 : float; m13 : float;
  m21 : float; m22 : float; m23 : float;
  mtx : float; mty : float; m33 : float
}.

(** Modelled from the spec: a default constructed [VMatrix{}] is the
    identity matrix. *)
Definition identity : t := mk 1 0 0 0 1 0 0 0 1.
End VMatrix.

#[export] Instance Default_VMatrix : Default VMatrix.t := VMatrix.identity.

Module Transform.
(** [struct Transform::Data::Extra] *)
Record Extra : Type := mkExtra {
  m3DRx : Property.t float (Value.t float);
  m3DRy : Property.t float (Value.t float);
  m3DRz : Property.t float (Value.t float);
  mSeparateX : Property.t float (Value.t float);
  mSeparateY : Property.t float (Value.t float);
  mSeparate : bool;
  m3DData : bool
}.

(** [struct Transform::Data] *)
Record Data : Type := mkData {
  mRotation : Property.t float (Value.t float);
  mScale : Property.t VPointF (Value.t VPointF);
  mPosition : Property.t VPointF (PositionValue.t VPointF);
  mAnchor : Property.t VPointF (Value.t VPointF);
  mOpacity : Property.t float (Value.t float);
  mExtra : option Extra
}.

Definition Data_opacity (data : Data) (frameNo : Z) : option float :=
  let? o := Property.value (mOpacity data) frameNo in
  Some (o / 100).

(** [class Transform]: the flag [isStatic] selects the member of the
    union, the matrix and opacity computed once or the animated data. *)
Inductive t : Type :=
| StaticData (mOpacity : float) (mMatrix : VMatrix.t)
| Animated (mData : Data).

Section Matrix.
(** [Transform::Data::matrix] is declared in the header and defined
    elsewhere: it is a parameter. *)
Variable Data_matrix : Data -> Z -> bool -> option VMatrix.t.

Definition matrix (tr : t) (frameNo : Z) (autoOrient : bool)
  : option VMatrix.t :=
  match tr with
  | StaticData _ m => Some m
  | Animated data => Data_matrix data frameNo autoOrient
  end.
End Matrix.

Definition opacity (tr : t) (frameNo : Z) : option float :=
  match tr with
  | StaticData o _ => Some o
  | Animated data => Data_opacity data frameNo
  end.
End Transform.

Module Layer.
(** [class Layer : public Group], with the members that [matrix] and
    [opacity] read. *)
Record t : Type := mk {
  mTransform : option Transform.t;
  mAutoOrient : bool;
  mParentId : Z;
  mId : Z;
  mTimeStreatch : float;
  mInFrame : Z;
  mOutFrame : Z;
  mStartFrame : Z
}.

Definition autoOrient (l : t) : bool := mAutoOrient l.

Section Matrix.
Variable Data_matrix : Transform.Data -> Z -> bool -> option VMatrix.t.

Definition matrix (l : t) (frameNo : Z) : option VMatrix.t :=
  match mTransform l with
  | Some tr => Transform.matrix Data_matrix tr frameNo (autoOrient l)
  | None => Some dflt
  end.
End Matrix.

Definition opacity (l : t) (frameNo : Z) : option float :=
  match mTransform l with
  | Some tr => Transform.opacity tr frameNo
  | None => Some 1
  end.
End Layer.

(** ** Sample data *)

(** Concrete model values on which the statements below are exercised. *)
Module Sample.
Definition frame (start end' : float) (vstart vend : float)
  : KeyFrames.Frame (Value.t float) :=
  KeyFrames.mkFrame start end' None (Value.mk vstart vend).

(** The track [0,10) : 1 -> 2, [10,20) : 2 -> 5. *)
Definition track_front : KeyFrames.Frame (Value.t float) := frame 0 10 1 2.
Definition track_rest : list (KeyFrames.Frame (Value.t float)) :=
  [frame 10 20 2 5].

(** A track of the single segment [10,20] : 0 -> 1. *)
Definition single : KeyFrames.Frame (Value.t float) := frame 10 20 0 1.
Definition single_property : Property.t float (Value.t float) :=
  Property.Animated (KeyFrames.mk [single]).

(** A trim whose three properties are constants. *)
Definition trim (vStart vEnd vOffset : float) : Trim.t :=
  Trim.mk (Property.Static vStart) (Property.Static vEnd)
    (Property.Static vOffset) Trim.Simultaneously.

(** The tolerance of the approximate comparison used in the examples. *)
Definition epsilon : float := 1 # 1000000.

(** Two paths of one move and one cubic segment. *)
Definition path_start : PathData.t :=
  PathData.mk [mkPoint 0 0; mkPoint 1 0; mkPoint 1 1; mkPoint 0 1] true.
Definition path_end : PathData.t :=
  PathData.mk [mkPoint 2 2; mkPoint 4 2; mkPoint 4 4; mkPoint 2 4] true.

(** A text layer of one document, the text "AB" filled black, and one
    animator without range selector that animates the fill colour to
    red. *)
Definition doc : TextDocument.t :=
  TextDocument.mk 0 12 EmptyString
    (Unicode.mk (Some [65; 66]%Z) [x41; x42]%byte 2)
    Justification.Left 0 0 0 (mkColor 0 0 0) (mkColor 0 0 0) 2 false.
Definition red_fill : TextAnimator.t :=
  TextAnimator.mk EmptyString
    [PropertyText.FillColor (Property.Static (mkColor 1 0 0))]
    0 0 (Property.Static 0) (Property.Static 100) false.
Definition red_layer : TextLayerData.t :=
  TextLayerData.mk [doc] [red_fill].

(** The same document alone: a static text layer. *)
Definition static_layer : TextLayerData.t := TextLayerData.mk [doc] [].

(** An animator whose range selector covers the indices [3/2, 4). *)
Definition ranged : TextAnimator.t :=
  TextAnimator.mk EmptyString [] 0 2 (Property.Static (3 # 2))
    (Property.Static 4) true.

(** Documents that start at the frames 0, 10 and 20. *)
Definition doc_at (time : Z) : TextDocument.t :=
  TextDocument.mk time 12 EmptyString Unicode.empty Justification.Left
    0 0 0 (mkColor 0 0 0) (mkColor 0 0 0) 0 false.
Definition cuts : TextLayerData.t :=
  TextLayerData.mk [doc_at 0; doc_at 10; doc_at 20] [].

(** A layer without transform. *)
Definition bare_layer : Layer.t := Layer.mk None false (-1) (-1) 1 0 0 0.

(** The text "A", a stray continuation byte, "BC"; and a two-byte
    sequence cut after its first byte. *)
Definition stray_text : list byte := [x41; x80; x42; x43]%byte.
Definition cut_text : list byte := [xc3]%byte.
End Sample.

(** ** Vocabulary of the statements *)

(** The frame lies in the active range of the track, from the start of
    its first segment to the end of its last one. *)
Definition in_active_range {V : Type} (front back : KeyFrames.Frame V)
  (frame : Z) : Prop :=
  KeyFrames.start_ front <= of_int frame
  /\ of_int frame <= KeyFrames.end_ back.

(** The two frames lie on opposite sides of the active range. *)
Definition around_active_range {V : Type} (front back : KeyFrames.Frame V)
  (prevFrame curFrame : Z) : Prop :=
  (of_int prevFrame < KeyFrames.start_ front
   /\ KeyFrames.end_ back < of_int curFrame)
  \/ (of_int curFrame < KeyFrames.start_ front
      /\ KeyFrames.end_ back < of_int prevFrame).

(** The cyclic offset of a trim, in degrees, as a fraction of a turn. *)
Definition Trim_offset (vOffset : float) : float := fmod vOffset 360 / 360.

(** The shifted endpoint [x] has left the range [0,1]: it wraps. *)
Definition leaves_unit_interval (x : float) : Prop := x < 0 \/ 1 < x.

(** The length of the part of the character interval [i, i+1) that the
    range [rangeStart, rangeEnd) covers. *)
Definition coverage (rangeStart rangeEnd : float) (i : Z) : float :=
  fmax 0 (fmin rangeEnd (of_int (i + 1)) - fmax rangeStart (of_int i)).

(** The weight of an animator on the character [i] at a frame. *)
Definition animatorWeight (textAnim : TextAnimator.t)
  (frameNo textLength i : Z) : option float :=
  let? (rangeStartIndex, rangeEndIndex) :=
    TextLayerData.rangeIndex textAnim frameNo textLength in
  Some (TextLayerData.progress rangeStartIndex rangeEndIndex i).

(** The character interval [i, i+1) lies inside the range. *)
Definition char_inside (rangeStart rangeEnd : float) (i : Z) : Prop :=
  rangeStart <= of_int i /\ of_int (i + 1) <= rangeEnd.

(** The range lies entirely before or entirely after the character. *)
Definition char_outside (rangeStart rangeEnd : float) (i : Z) : Prop :=
  rangeStart <= rangeEnd
  /\ (rangeEnd <= of_int i \/ of_int (i + 1) <= rangeStart).

(** Exactly one boundary of the range falls strictly inside the character
    interval: the end of the range, its start being at or before the
    character, or the start of the range, its end being at or after the
    end of the character. *)
Definition char_straddles (rangeStart rangeEnd : float) (i : Z) : Prop :=
  (rangeStart <= of_int i
   /\ of_int i < rangeEnd /\ rangeEnd < of_int (i + 1))
  \/ (of_int i < rangeStart /\ rangeStart < of_int (i + 1)
      /\ of_int (i + 1) <= rangeEnd).

(** The number of control points that [moveTo] and [cubicTo] have written
    into a path. *)
Definition pointCount (path : VPath) : nat :=
  list_sum (map (fun elm => match elm with
                            | MoveTo _ => 1%nat
                            | CubicTo _ _ _ => 3%nat
                            | Close => 0%nat
                            end) path).

(** The path ends with a [close]. *)
Definition VPath_closed (path : VPath) : bool :=
  match last path (MoveTo dflt) with
  | Close => true
  | _ => false
  end.

(** Two points with equal coordinates. *)
Definition VPointF_eq (p q : VPointF) : Prop :=
  px p == px q /\ py p == py q.

(** The same command on equal points. *)
Inductive Element_eq : Element -> Element -> Prop :=
| MoveTo_eq p q : VPointF_eq p q -> Element_eq (MoveTo p) (MoveTo q)
| CubicTo_eq c1 c2 e d1 d2 f :
    VPointF_eq c1 d1 -> VPointF_eq c2 d2 -> VPointF_eq e f ->
    Element_eq (CubicTo c1 c2 e) (CubicTo d1 d2 f)
| Close_eq : Element_eq Close Close.

(** Two paths that received the same commands on equal points. *)
Definition VPath_eq (p q : VPath) : Prop := Forall2 Element_eq p q.

(** The cubic segments that a list of control points spells out, three
    points at a time. *)
Fixpoint cubics (points : list VPointF) : list Element :=
  match points with
  | c1 :: c2 :: e :: rest => CubicTo c1 c2 e :: cubics rest
  | _ => []
  end.

(** The point-wise interpolation of two lists of points, in the
    arithmetic [A]. *)
Fixpoint blend {A : Arith VPointF} (start end' : list VPointF) (x : float)
  : list VPointF :=
  match start, end' with
  | s :: start', e :: end'' => add s (scale x (sub e s)) :: blend start' end'' x
  | _, _ => []
  end.

(** The record [getTextData] starts from: the defaults, with the stroke
    width, fill colour and stroke colour of the document. *)
Definition documentRecord (doc : TextDocument.t)
  : CharAnimatedProperties.t :=
  CharAnimatedProperties.mk 100 0 0 (TextDocument.mStrokeWidth doc)
    (mkPoint 0 0) (mkPoint 100 100) (mkPoint 0 0)
    (TextDocument.mFillColor doc) (TextDocument.mStrokeColor doc).

(** The snapshot with the common text properties of a document and a
    given list of character records. *)
Definition snapshot (doc : TextDocument.t) (obj : TextData.t)
  (charAnimPropList : list CharAnimatedProperties.t) : TextData.t :=
  TextData.mk (TextDocument.mStrokeOverFill doc)
    (TextDocument.mJustification doc) (TextDocument.mSize doc)
    (TextData.ascent obj) (TextDocument.mLineHeight doc)
    (TextDocument.mBaselineShift doc) charAnimPropList.

(** A property that can be evaluated: a constant, or an animation with at
    least one keyframe. *)
Definition Property_defined {T V : Type} (p : Property.t T V) : bool :=
  match p with
  | Property.Static _ => true
  | Property.Animated a =>
      match KeyFrames.frames_ a with [] => false | _ :: _ => true end
  end.

Definition PropertyText_defined (property : PropertyText.t) : bool :=
  match property with
  | PropertyText.Opacity p | PropertyText.Rotation p
  | PropertyText.Tracking p | PropertyText.StrokeWidth p =>
      Property_defined p
  | PropertyText.Position p | PropertyText.Scale p
  | PropertyText.Anchor p => Property_defined p
  | PropertyText.StrokeColor p | PropertyText.FillColor p =>
      Property_defined p
  end.

Definition TextAnimator_defined (textAnim : TextAnimator.t) : bool :=
  Property_defined (TextAnimator.mRangeStart textAnim)
  && Property_defined (TextAnimator.mRangeEnd textAnim)
  && forallb PropertyText_defined (TextAnimator.mAnimatedProperties textAnim).

(** ** Vocabulary of the further statements *)

(** The frame lies in the half-open range of the segment. *)
Definition covers {V : Type} (kf : KeyFrames.Frame V) (frameNo : Z) : Prop :=
  KeyFrames.start_ kf <= of_int frameNo /\ of_int frameNo < KeyFrames.end_ kf.


(** ** Unicode text: access and comparison *)

Module UnicodeText.
Import Unicode.

(** [p[i]] on the array behind [mUnicodeText]: a null pointer or an index
    past the array is undefined behaviour. *)
Definition read (p : option (list Z)) (i : nat) : option Z :=
  match p with
  | Some text => nth_error text i
  | None => None
  end.

Definition getUnicodeText (u : Unicode.t) : option (list Z) :=
  mUnicodeText u.

(** The loop of [compare], with [n] turns left at index [i]. *)
Fixpoint compare_loop (this t : option (list Z)) (n i : nat) : option Z :=
  match n with
  | O => Some 0%Z
  | S n' =>
      let? a := read this i in
      let? b := read t i in
      if negb (a =? b)%Z then Some 1%Z
      else compare_loop this t n' (S i)
  end.

(** [int Unicode::compare(const Unicode &input)] *)
Definition compare (this input : Unicode.t) : option Z :=
  let t := getUnicodeText input in
  compare_loop (mUnicodeText this) t (mUnicodeLength this) 0.

(** [uint32_t Unicode::at(unsigned int i) const], with its assertion. *)
Definition at_index (this : Unicode.t) (i : nat) : option Z :=
  if (i <? mUnicodeLength this)%nat then read (mUnicodeText this) i
  else None.
End UnicodeText.

(** The code points an object holds. *)
Definition Unicode_text (u : Unicode.t) : list Z :=
  match Unicode.mUnicodeText u with
  | Some text => text
  | None => []
  end.

(** The length an object records is the number of code points behind its
    pointer, as after [setUtf8Text] or for a fresh object. *)
Definition Unicode_wf (u : Unicode.t) : Prop :=
  Unicode.mUnicodeLength u = length (Unicode_text u).

(** The byte with a given value. *)
Definition byte_of (z : Z) : byte :=
  match Byte.of_N (Z.to_N z) with
  | Some c => c
  | None => x00
  end.

(** The UTF-8 encoding of a code point, in one to four bytes. *)
Definition utf8_encode (cp : Z) : list byte :=
  if (cp <? 0x80)%Z then [byte_of cp]
  else if (cp <? 0x800)%Z then
    [byte_of (0xC0 + cp / 64); byte_of (0x80 + cp mod 64)]
  else if (cp <? 0x10000)%Z then
    [byte_of (0xE0 + cp / 4096); byte_of (0x80 + (cp / 64) mod 64);
     byte_of (0x80 + cp mod 64)]
  else
    [byte_of (0xF0 + cp / 262144); byte_of (0x80 + (cp / 4096) mod 64);
     byte_of (0x80 + (cp / 64) mod 64); byte_of (0x80 + cp mod 64)].

(** The smallest code point that needs a sequence of [used + 1] bytes. *)
Definition shortest_form_minimum (used : nat) : Z :=
  match used with
  | O => 0%Z
  | S O => 0x80%Z
  | S (S O) => 0x800%Z
  | S (S (S O)) => 0x10000%Z
  | S (S (S (S O))) => 0x200000%Z
  | _ => 0x4000000%Z
  end.

(** ** Fonts and glyphs *)

Module Fonts.
(** [class Fonts] *)
Record t : Type := mk {
  mFontName : string;
  mFontFamily : string;
  mFontStyle : string;
  mFontAscent : float
}.
End Fonts.

Module Chars.
(** [class Chars] *)
Record t : Type := mk {
  mCh : Unicode.t;
  mStyle : string;
  mFontFamily : string;
  mSize : float;
  mWidth : float;
  mOutline : VPath
}.
End Chars.

Module FontDB.
(** [class FontDB] *)
Record t : Type := mk {
  mFonts : list Fonts.t;
  mChars : list Chars.t
}.

(** [ffamily]: the family of the first font with the name, or a null
    pointer. *)
Fixpoint ffamily_scan (fonts : list Fonts.t) (fname : string)
  : option string :=
  match fonts with
  | [] => None
  | obj :: rest =>
      if String.eqb fname (Fonts.mFontName obj)
      then Some (Fonts.mFontFamily obj)
      else ffamily_scan rest fname
  end.

Definition ffamily (db : t) (fname : string) : option string :=
  ffamily_scan (mFonts db) fname.

(** [chars]: the first glyph with the size, the code point and the
    family, or a null pointer.  [obj.mCh.at(0)] is read only when the
    size matches; the outer [None] is its failed assertion. *)
Fixpoint chars_scan (glyphs : list Chars.t) (charCode size : Z)
  (ffamily : string) : option (option Chars.t) :=
  match glyphs with
  | [] => Some None
  | obj :: rest =>
      if (size =? ftrunc (Chars.mSize obj))%Z then
        let? ch := UnicodeText.at_index (Chars.mCh obj) 0 in
        if (charCode =? ch)%Z && String.eqb (Chars.mFontFamily obj) ffamily
        then Some (Some obj)
        else chars_scan rest charCode size ffamily
      else chars_scan rest charCode size ffamily
  end.

Definition chars (db : t) (charCode size : Z) (ffamily : string)
  : option (option Chars.t) :=
  chars_scan (mChars db) charCode size ffamily.

(** [load]: the glyph of a code point at a size in the font of a name. *)
Definition load (db : t) (charCode size : Z) (fname : string)
  : option (option Chars.t) :=
  match mChars db with
  | [] => Some None
  | _ :: _ =>
      match ffamily db fname with
      | None => Some None
      | Some family => chars db charCode size family
      end
  end.
End FontDB.

(** The glyph is the one for a code point, a size and a family. *)
Definition glyph_matches (obj : Chars.t) (charCode size : Z)
  (family : string) : Prop :=
  ftrunc (Chars.mSize obj) = size
  /\ UnicodeText.at_index (Chars.mCh obj) 0 = Some charCode
  /\ Chars.mFontFamily obj = family.

(** The glyph holds at least one code point, so that [mCh.at(0)] is
    defined. *)
Definition glyph_defined (obj : Chars.t) : Prop :=
  exists ch : Z, UnicodeText.at_index (Chars.mCh obj) 0 = Some ch.

(** ** Compositions and layer time *)

(** [std::round]: to the nearest integer, halves away from zero. *)
Definition fround (a : float) : Z :=
  if flt a 0 then (- Qfloor (- a + (1 # 2)))%Z else Qfloor (a + (1 # 2)).

Module Composition.
(** [class Composition : public Object], with the members that the time
    conversions read, the markers and the font database. *)
Record t : Type := mk {
  mStartFrame : Z;
  mEndFrame : Z;
  mFrameRate : float;
  mMarkers : list (string * Z * Z);
  mFontDB : FontDB.t
}.

Definition frameDuration (c : t) : Z := (mEndFrame c - mStartFrame c)%Z.

Definition frameRate (c : t) : float := mFrameRate c.

(** [duration], in seconds.  A division by zero leaves the rational
    model of the floats: no result. *)
Definition duration (c : t) : option float :=
  if Qeq_bool (frameRate c) 0 then None
  else Some (of_int (frameDuration c) / frameRate c).

Definition totalFrame (c : t) : Z := (mEndFrame c - mStartFrame c + 1)%Z.

(** [frameAtPos]: the conversion of a negative rounded product to
    [size_t] is undefined. *)
Definition frameAtPos (c : t) (pos : float) : option Z :=
  let pos := if flt pos 0 then 0 else pos in
  let pos := if fgt pos 1 then 1 else pos in
  let frame := fround (pos * of_int (frameDuration c)) in
  if (frame <? 0)%Z then None else Some frame.

Definition frameAtTime (c : t) (timeInSec : float) : option Z :=
  let? d := duration c in
  if Qeq_bool d 0 then None else frameAtPos c (timeInSec / d).
End Composition.

Module LayerTime.
(** [struct Layer::Extra], with the members that [timeRemap] reads and
    the solid colour; [mCompRef] is a pointer, null until it is set. *)
Record Extra : Type := mkExtra {
  mSolidColor : Color;
  mPreCompRefId : string;
  mTimeRemap : Property.t float (Value.t float);
  mCompRef : option Composition.t
}.

Definition startFrame (l : Layer.t) : Z := Layer.mStartFrame l.

(** [int Layer::timeRemap(int frameNo) const]; the member [mExtra] of the
    layer is passed beside it.  A null [mCompRef] is dereferenced
    ([None]), and a time stretch of zero divides by zero, which leaves the
    rational model of the floats. *)
Definition timeRemap (l : Layer.t) (mExtra : option Extra) (frameNo : Z)
  : option Z :=
  let? frameNo :=
    match mExtra with
    | None => Some (frameNo - startFrame l)%Z
    | Some extra =>
        if Property.isStatic (mTimeRemap extra)
        then Some (frameNo - startFrame l)%Z
        else
          let? comp := mCompRef extra in
          let? timeInSec := Property.value (mTimeRemap extra) frameNo in
          Composition.frameAtTime comp timeInSec
    end in
  if Qeq_bool (Layer.mTimeStreatch l) 0 then None
  else Some (ftrunc (of_int frameNo / Layer.mTimeStreatch l)).

(** [Color Layer::solidColor() const] *)
Definition solidColor (mExtra : option Extra) : Color :=
  match mExtra with
  | Some extra => mSolidColor extra
  | None => dflt
  end.
End LayerTime.

(** The layer has no time remapping of its own: no [mExtra], or a static
    [mTimeRemap]. *)
Definition without_time_remap (mExtra : option LayerTime.Extra) : Prop :=
  match mExtra with
  | None => True
  | Some extra => Property.isStatic (LayerTime.mTimeRemap extra) = true
  end.

(** ** Setting a transform *)

Module TransformSet.
Section Matrix.
Variable Data_matrix : Transform.Data -> Z -> bool -> option VMatrix.t.

(** [void Transform::set(Transform::Data *data, bool staticFlag)], for a
    pointer that is not null: a static transform stores the matrix and
    the opacity of frame 0, [autoOrient] at its default [false]; an
    animated one stores the data. *)
Definition set (data : Transform.Data) (staticFlag : bool)
  : option Transform.t :=
  if staticFlag
  then
    let? m := Data_matrix data 0%Z false in
    let? o := Transform.Data_opacity data 0%Z in
    Some (Transform.StaticData o m)
  else Some (Transform.Animated data).
End Matrix.
End TransformSet.

(** ** More vocabulary *)

(** At the frame, the selector range of every animator of the list lies
    entirely before or after the character [i]. *)
Definition outside_every_range (animators : list TextAnimator.t)
  (frameNo textLength i : Z) : Prop :=
  Forall (fun textAnim =>
            exists rangeStart rangeEnd : float,
              TextLayerData.rangeIndex textAnim frameNo textLength
              = Some (rangeStart, rangeEnd)
              /\ char_outside rangeStart rangeEnd i)
    animators.

(** ** Further sample data *)

Module Example.
(** A track with a gap: [0,10) : 1 -> 2, then [20,30) : 2 -> 5. *)
Definition gap_front : KeyFrames.Frame (Value.t float) :=
  Sample.frame 0 10 1 2.
Definition gap_rest : list (KeyFrames.Frame (Value.t float)) :=
  [Sample.frame 20 30 2 5].

(** The texts "AB" and "ABC". *)
Definition text_AB : Unicode.t :=
  Unicode.mk (Some [65; 66]%Z) [x41; x42]%byte 2.
Definition text_ABC : Unicode.t :=
  Unicode.mk (Some [65; 66; 67]%Z) [x41; x42; x43]%byte 3.

(** One code point for each length of a sequence: "A", e acute, the euro
    sign and an emoticon. *)
Definition code_points : list Z := [0x41; 0xE9; 0x20AC; 0x1F600]%Z.

(** A database of two fonts and two glyphs of the letter "A". *)
Definition letter_A : Unicode.t := Unicode.mk (Some [65]%Z) [x41]%byte 1.
Definition serif_A : Chars.t :=
  Chars.mk letter_A "Regular" "Serif" 12 7 [].
Definition sans_A : Chars.t :=
  Chars.mk letter_A "Regular" "Sans" 12 6 [].
Definition fonts : FontDB.t :=
  FontDB.mk [Fonts.mk "Times-Regular" "Serif" "Regular" 70;
             Fonts.mk "Arial-Regular" "Sans" "Regular" 75]
    [serif_A; sans_A].

(** A composition of the frames 0 to 60 at 30 frames per second. *)
Definition comp : Composition.t :=
  Composition.mk 0 60 30 [] (FontDB.mk [] []).

(** A layer that starts at frame 5 and is stretched by 2. *)
Definition slow_layer : Layer.t := Layer.mk None false (-1) (-1) 2 0 0 5.

(** A layer whose time remapping runs from half a second to one second
    over the frames 0 to 10. *)
Definition remap : LayerTime.Extra :=
  LayerTime.mkExtra (mkColor 0 0 0) EmptyString
    (Property.Animated (KeyFrames.mk [Sample.frame 0 10 (1 # 2) 1]))
    (Some comp).
Definition remapped_layer : Layer.t :=
  Layer.mk None false (-1) (-1) 1 0 0 5.

(** The data of a transform at half opacity, and a matrix function that
    is the identity everywhere. *)
Definition half_opaque : Transform.Data :=
  Transform.mkData (Property.Static 0) (Property.Static (mkPoint 100 100))
    (Property.Static (mkPoint 0 0)) (Property.Static (mkPoint 0 0))
    (Property.Static 50) None.
Definition identity_matrix (data : Transform.Data) (frameNo : Z)
  (autoOrient : bool) : option VMatrix.t :=
  Some VMatrix.identity.

(** The text "AB" under the animator with the range [3/2, 4). *)
Definition ranged_layer : TextLayerData.t :=
  TextLayerData.mk [Sample.doc] [Sample.ranged].
End Example.

Module Overlap.
(** Two path segments that overlap on the frames 5 to 10: [0,10) from the
    first sample path to the second, [5,20) back. *)
Definition first : KeyFrames.Frame (Value.t PathData.t) :=
  KeyFrames.mkFrame 0 10 None (Value.mk Sample.path_start Sample.path_end).
Definition second : KeyFrames.Frame (Value.t PathData.t) :=
  KeyFrames.mkFrame 5 20 None (Value.mk Sample.path_end Sample.path_start).

(** Two path segments with the gap [10,20) between them. *)
Definition late : KeyFrames.Frame (Value.t PathData.t) :=
  KeyFrames.mkFrame 20 30 None (Value.mk Sample.path_end Sample.path_start).
End Overlap.

(** ** Vocabulary of the rounded interpolation *)

(** Both coordinates of the point have magnitude at most [M]. *)
Definition bounded (M : float) (p : VPointF) : Prop :=
  Qabs (px p) <= M /\ Qabs (py p) <= M.

(** Two points whose coordinates differ by at most [tol]. *)
Definition VPointF_near (tol : float) (p q : VPointF) : Prop :=
  Qabs (px p - px q) <= tol /\ Qabs (py p - py q) <= tol.

(** The same command on points that differ by at most [tol]. *)
Inductive Element_near (tol : float) : Element -> Element -> Prop :=
| MoveTo_near p q :
    VPointF_near tol p q -> Element_near tol (MoveTo p) (MoveTo q)
| CubicTo_near c1 c2 e d1 d2 f :
    VPointF_near tol c1 d1 -> VPointF_near tol c2 d2 ->
    VPointF_near tol e f ->
    Element_near tol (CubicTo c1 c2 e) (CubicTo d1 d2 f)
| Close_near : Element_near tol Close Close.

(** Two paths that received the same commands on points that differ by at
    most [tol]. *)
Definition VPath_near (tol : float) (p q : VPath) : Prop :=
  Forall2 (Element_near tol) p q.

(** The distance that binary32 can leave between [start + (end - start)]
    and [end] when no coordinate exceeds [M] in magnitude: six relative
    rounding errors of [2^-24], and the absolute error of the subnormal
    numbers. *)
Definition rounding_slack (M : float) : float :=
  M * (3 # 8388608) + Binary32.pow2 (-148).

Module Rounding.
(** [0.1f]: the binary32 number nearest to one tenth. *)
Definition tenth : float := 13421773 # 134217728.

(** An open path of one move and one cubic segment on the unit square,
    and the same path scaled by [0.1f]. *)
Definition wide : PathData.t :=
  PathData.mk [mkPoint 1 0; mkPoint 1 1; mkPoint 0 1; mkPoint 0 0] false.
Definition narrow : PathData.t :=
  PathData.mk [mkPoint tenth 0; mkPoint tenth tenth; mkPoint 0 tenth;
               mkPoint 0 0] false.
End Rounding.

(* ================================================================== *)
(** * Verified properties *)
(* ================================================================== *)

Unset Implicit Arguments.

(** ** Comparisons *)

Lemma fle_spec (a b : float) : fle a b = true <-> a <= b.
Proof. apply Qle_bool_iff. Qed.

Lemma fge_spec (a b : float) : fge a b = true <-> b <= a.
Proof. apply Qle_bool_iff. Qed.

Lemma flt_spec (a b : float) : flt a b = true <-> a < b.
Proof.
  unfold flt. rewrite negb_true_iff, <- not_true_iff_false, Qle_bool_iff.
  split; [apply Qnot_le_lt | apply Qlt_not_le].
Qed.

Lemma fgt_spec (a b : float) : fgt a b = true <-> b < a.
Proof. apply flt_spec. Qed.

Lemma fle_false (a b : float) : fle a b = false <-> b < a.
Proof.
  rewrite <- not_true_iff_false, fle_spec.
  split; [apply Qnot_le_lt | apply Qlt_not_le].
Qed.

Lemma fge_false (a b : float) : fge a b = false <-> a < b.
Proof. apply fle_false. Qed.

Lemma flt_false (a b : float) : flt a b = false <-> b <= a.
Proof.
  unfold flt. rewrite negb_false_iff. apply Qle_bool_iff.
Qed.

Lemma fgt_false (a b : float) : fgt a b = false <-> a <= b.
Proof. apply flt_false. Qed.

(** Turns every boolean comparison of the context and of the goal into the
    order relation on [Q] it decides. *)
Ltac float_props :=
  repeat match goal with
  | H : fle _ _ = true |- _ => apply fle_spec in H
  | H : fle _ _ = false |- _ => apply fle_false in H
  | H : fge _ _ = true |- _ => apply fge_spec in H
  | H : fge _ _ = false |- _ => apply fge_false in H
  | H : flt _ _ = true |- _ => apply flt_spec in H
  | H : flt _ _ = false |- _ => apply flt_false in H
  | H : fgt _ _ = true |- _ => apply fgt_spec in H
  | H : fgt _ _ = false |- _ => apply fgt_false in H
  end.

(** ** Arithmetic helpers *)

Lemma Qabs_cases (x : Q) :
  (0 <= x /\ Qabs x == x) \/ (x <= 0 /\ Qabs x == - x).
Proof.
  destruct (Qlt_le_dec x 0) as [Hneg | Hpos].
  - right. split; [lra |]. apply Qabs_neg. lra.
  - left. split; [exact Hpos |]. now apply Qabs_pos.
Qed.

Lemma ftrunc_bound (a : float) :
  -1 < a - of_int (ftrunc a) /\ a - of_int (ftrunc a) < 1.
Proof.
  destruct a as [n d]. unfold ftrunc, of_int. cbn [Qnum Qden].
  pose proof (Z.quot_rem' n (Zpos d)) as Hqr.
  pose proof (Z.rem_bound_abs n (Zpos d) ltac:(lia)) as Habs.
  unfold Qlt, Qminus, Qplus, Qopp, inject_Z. cbn.
  nia.
Qed.

(** [std::fmod] stays strictly below its divisor in absolute value. *)
Lemma fmod_bound (a b : float) :
  0 < b -> - b < fmod a b /\ fmod a b < b.
Proof.
  intros Hb. unfold fmod.
  pose proof (ftrunc_bound (a / b)) as [Hlo Hhi].
  assert (Ha : a == b * (a / b)) by (field; lra).
  set (q := a / b) in *. set (t := of_int (ftrunc q)) in *.
  split; nra.
Qed.

Ltac split_ifs :=
  repeat match goal with
  | |- context [if ?c then _ else _] =>
      let E := fresh "E" in destruct c eqn:E
  | H : context [if ?c then _ else _] |- _ =>
      let E := fresh "E" in destruct c eqn:E
  end.

Ltac bool_props :=
  repeat match goal with
  | H : _ && _ = true |- _ => apply andb_true_iff in H; destruct H
  | H : _ && _ = false |- _ => apply andb_false_iff in H; destruct H
  end; float_props.

(** ** Keyframe tracks: clamping outside the track *)

Section Clamp.
Context {V T : Type} `{ValueLike V T} `{Default T}.

Lemma value_at_or_before_front (front : KeyFrames.Frame V)
  (rest : list (KeyFrames.Frame V)) (frameNo : Z) :
  of_int frameNo <= KeyFrames.start_ front ->
  KeyFrames.value (KeyFrames.mk (front :: rest)) frameNo
  = Some (v_start (KeyFrames.value_ front)).
Proof.
  intros Hle. unfold KeyFrames.value. cbn [KeyFrames.frames_].
  apply fge_spec in Hle. rewrite Hle. reflexivity.
Qed.

Lemma value_past_back (front : KeyFrames.Frame V)
  (rest : list (KeyFrames.Frame V)) (frameNo : Z) :
  KeyFrames.start_ front < of_int frameNo ->
  KeyFrames.end_ (last (front :: rest) front) <= of_int frameNo ->
  KeyFrames.value (KeyFrames.mk (front :: rest)) frameNo
  = Some (v_end (KeyFrames.value_ (last (front :: rest) front))).
Proof.
  intros Hlt Hle. unfold KeyFrames.value. cbn [KeyFrames.frames_].
  apply fge_false in Hlt. rewrite Hlt.
  apply fle_spec in Hle. rewrite Hle. reflexivity.
Qed.

(** C1.  For an animated property, a query at a frame before the first
    segment's start returns the first segment's start value, and, the
    track starting before it ends, a query at or after the last segment's
    end returns the last segment's end value: nothing is extrapolated. *)
Theorem animated_value_clamps (front : KeyFrames.Frame V)
  (rest : list (KeyFrames.Frame V)) (frameNo : Z) :
  let frames := front :: rest in
  let back := last frames front in
  let p : Property.t T V := Property.Animated (KeyFrames.mk frames) in
  (of_int frameNo < KeyFrames.start_ front ->
   Property.value p frameNo = Some (v_start (KeyFrames.value_ front)))
  /\ (KeyFrames.start_ front < KeyFrames.end_ back ->
      KeyFrames.end_ back <= of_int frameNo ->
      Property.value p frameNo = Some (v_end (KeyFrames.value_ back))).
Proof.
  intros frames back p. split.
  - intros Hf. cbn [p Property.value].
    apply value_at_or_before_front. now apply Qlt_le_weak.
  - intros Hrange Hf. cbn [p Property.value].
    apply value_past_back; [| exact Hf].
    eapply Qlt_le_trans; [exact Hrange | exact Hf].
Qed.

End Clamp.

Lemma animated_value_clamps_witness :
  KeyFrames.start_ Sample.track_front
  < KeyFrames.end_ (last (Sample.track_front :: Sample.track_rest)
                      Sample.track_front)
  /\ Property.value
       (Property.Animated
          (KeyFrames.mk (Sample.track_front :: Sample.track_rest))) (-3)
     = Some 1
  /\ Property.value
       (Property.Animated
          (KeyFrames.mk (Sample.track_front :: Sample.track_rest))) 20
     = Some 5.
Proof.
  assert (Hrange : KeyFrames.start_ Sample.track_front
                   < KeyFrames.end_
                       (last (Sample.track_front :: Sample.track_rest)
                          Sample.track_front)) by reflexivity.
  split; [exact Hrange | split].
  - assert (Hlt : of_int (-3) < KeyFrames.start_ Sample.track_front)
      by reflexivity.
    exact (proj1 (animated_value_clamps Sample.track_front
                    Sample.track_rest (-3)) Hlt).
  - assert (Hle : KeyFrames.end_
                    (last (Sample.track_front :: Sample.track_rest)
                       Sample.track_front) <= of_int 20)
      by (vm_compute; discriminate).
    exact (proj2 (animated_value_clamps Sample.track_front
                    Sample.track_rest 20) Hrange Hle).
Defined.

(** The overload that writes a path clamps in the same way: outside the
    track it writes the start path of the first segment or the end path
    of the last one. *)
Lemma path_value_clamps
  (front : KeyFrames.Frame (Value.t PathData.t))
  (rest : list (KeyFrames.Frame (Value.t PathData.t)))
  (frameNo : Z) (path : VPath) :
  let frames := front :: rest in
  let back := last frames front in
  let p : PathProperty.t := Property.Animated (KeyFrames.mk frames) in
  (of_int frameNo < KeyFrames.start_ front ->
   PathProperty.value p frameNo path
   = PathData.toPath (Value.start_ (KeyFrames.value_ front)) path)
  /\ (KeyFrames.start_ front < KeyFrames.end_ back ->
      KeyFrames.end_ back <= of_int frameNo ->
      PathProperty.value p frameNo path
      = PathData.toPath (Value.end_ (KeyFrames.value_ back)) path).
Proof.
  intros frames back p. subst p back frames. unfold PathProperty.value.
  cbn [KeyFrames.frames_].
  split.
  - intros Hf. apply Qlt_le_weak, fge_spec in Hf. now rewrite Hf.
  - intros Hrange Hf.
    assert (Hlt : KeyFrames.start_ front < of_int frameNo)
      by (eapply Qlt_le_trans; eassumption).
    apply fge_false in Hlt. rewrite Hlt.
    apply fle_spec in Hf. now rewrite Hf.
Qed.

(** The first test of [value] wins where the two overlap: on a track that
    starts and ends at the same frame, the query at that frame returns
    the start value. *)
Lemma value_on_instant_track :
  Property.value
    (Property.Animated (KeyFrames.mk [Sample.frame 5 5 1 2])) 5
  = Some 1.
Proof. reflexivity. Qed.

(** ** Keyframe tracks: the change test *)

Lemma changed_animated {T V : Type} (front : KeyFrames.Frame V)
  (rest : list (KeyFrames.Frame V)) (prevFrame curFrame : Z) :
  let back := last (front :: rest) front in
  let p : Property.t T V :=
    Property.Animated (KeyFrames.mk (front :: rest)) in
  exists b : bool,
    Property.changed p prevFrame curFrame = Some b
    /\ (b = true <->
        ~ (of_int prevFrame < KeyFrames.start_ front
           /\ of_int curFrame < KeyFrames.start_ front)
        /\ ~ (KeyFrames.end_ back < of_int prevFrame
              /\ KeyFrames.end_ back < of_int curFrame)).
Proof.
  intros back p. eexists. split; [reflexivity |].
  cbn [KeyFrames.frames_]. fold back.
  rewrite negb_true_iff, orb_false_iff, !andb_false_iff.
  rewrite !fgt_false, !flt_false.
  lra.
Qed.

(** C9 (as stated, refuted).  On the track of the single segment [10,20],
    [changed 0 100] is true although neither frame 0 nor frame 100 falls
    within the active range. *)
Lemma changed_without_frame_in_range :
  Property.changed Sample.single_property 0 100 = Some true
  /\ ~ (in_active_range Sample.single Sample.single 0
        \/ in_active_range Sample.single Sample.single 100).
Proof.
  split; [reflexivity |].
  unfold in_active_range.
  intros [[H _] | [_ H]]; vm_compute in H; apply H; reflexivity.
Qed.

(** C9 (amended).  [changed] is false for a static property, whatever the
    frames.  For an animated property it is true whenever one of the two
    frames falls within the active range; and when the active range is
    not empty, it is true if and only if one of the two frames falls
    within the active range or the two frames lie on opposite sides of
    it. *)
Theorem changed_iff_range_touched {T V : Type} (front : KeyFrames.Frame V)
  (rest : list (KeyFrames.Frame V)) (prevFrame curFrame : Z) :
  let back := last (front :: rest) front in
  let p : Property.t T V :=
    Property.Animated (KeyFrames.mk (front :: rest)) in
  (forall v : T,
     Property.changed (Property.Static v : Property.t T V)
       prevFrame curFrame = Some false)
  /\ (in_active_range front back prevFrame
      \/ in_active_range front back curFrame ->
      Property.changed p prevFrame curFrame = Some true)
  /\ (KeyFrames.start_ front <= KeyFrames.end_ back ->
      exists b : bool,
        Property.changed p prevFrame curFrame = Some b
        /\ (b = true <->
            in_active_range front back prevFrame
            \/ in_active_range front back curFrame
            \/ around_active_range front back prevFrame curFrame)).
Proof.
  intros back p.
  destruct (changed_animated (T := T) front rest prevFrame curFrame)
    as [b [Hb Hiff]].
  fold back in Hiff. fold p in Hb.
  unfold in_active_range, around_active_range.
  split; [reflexivity | split].
  - intros Hin. rewrite Hb. f_equal. apply Hiff. lra.
  - intros Hrange. exists b. split; [exact Hb |].
    rewrite Hiff. lra.
Qed.

Lemma changed_iff_range_touched_witness :
  KeyFrames.start_ Sample.single <= KeyFrames.end_ Sample.single
  /\ exists b : bool,
       Property.changed Sample.single_property 0 100 = Some b
       /\ (b = true <->
           in_active_range Sample.single Sample.single 0
           \/ in_active_range Sample.single Sample.single 100
           \/ around_active_range Sample.single Sample.single 0 100).
Proof.
  assert (Hrange : KeyFrames.start_ Sample.single
                   <= KeyFrames.end_ Sample.single)
    by (vm_compute; discriminate).
  split; [exact Hrange |].
  exact (proj2 (proj2 (changed_iff_range_touched (T := float)
                         Sample.single [] 0 100)) Hrange).
Defined.

(** ** Binary32 arithmetic *)

Lemma round_compat (a b : float) :
  a == b -> Binary32.round a = Binary32.round b.
Proof.
  intros Hab. unfold Binary32.round. now rewrite (Qred_complete _ _ Hab).
Qed.

(** In binary32, [s + 0 * (e - s)] is [s]: the product is an exact zero
    and adding it leaves the binary32 number [s] as it is. *)
Lemma binary32_keeps_start (x s e : float) :
  x == 0 -> Binary32.representable s ->
  Binary32.fadd s (Binary32.fmul (Binary32.fsub e s) x) == s.
Proof.
  intros Hx Hs. unfold Binary32.fadd, Binary32.fmul.
  assert (Hzero : Binary32.round (Binary32.fsub e s * x) == 0).
  { rewrite (round_compat _ 0) by (rewrite Hx; ring). reflexivity. }
  rewrite (round_compat _ s) by (rewrite Hzero; ring).
  exact Hs.
Qed.

Lemma pow2_pos (e : Z) : 0 < Binary32.pow2 e.
Proof. unfold Binary32.pow2. apply Qpower_0_lt. reflexivity. Qed.

Lemma pow2_plus (a b : Z) :
  Binary32.pow2 (a + b) == Binary32.pow2 a * Binary32.pow2 b.
Proof. unfold Binary32.pow2. apply Qpower_plus. discriminate. Qed.

Lemma pow2_of_Z (n : Z) :
  (0 <= n)%Z -> inject_Z (2 ^ n) == Binary32.pow2 n.
Proof. intros Hn. unfold Binary32.pow2. now rewrite Zpower_Qpower. Qed.

(** The nearest integer is at most one half away. *)
Lemma rne_error (y : Q) : Qabs (inject_Z (Binary32.rne y) - y) <= 1 # 2.
Proof.
  unfold Binary32.rne.
  pose proof (Qfloor_le y) as Hlo. pose proof (Qlt_floor y) as Hhi.
  rewrite inject_Z_plus in Hhi. change (inject_Z 1) with 1 in Hhi.
  set (f := Qfloor y) in *.
  apply Qabs_Qle_condition.
  destruct (Qcompare_spec (y - inject_Z f) (1 # 2)) as [Heq | Hlt | Hgt].
  - destruct (Z.even f); rewrite ?inject_Z_plus;
      change (inject_Z 1) with 1; lra.
  - lra.
  - rewrite inject_Z_plus. change (inject_Z 1) with 1. lra.
Qed.

(** Rounding at the exponent of the last place errs by at most half a
    unit of that place. *)
Lemma round_at_error (x : Q) :
  Qabs (Binary32.round_at x - x)
  <= Binary32.pow2 (Binary32.exponent x) * (1 # 2).
Proof.
  unfold Binary32.round_at.
  pose proof (pow2_pos (Binary32.exponent x)) as Hp.
  set (p := Binary32.pow2 (Binary32.exponent x)) in *.
  pose proof (rne_error (x / p)) as Herr.
  apply Qabs_Qle_condition in Herr. apply Qabs_Qle_condition.
  set (m := inject_Z (Binary32.rne (x / p))) in *.
  assert (Hx : x == x / p * p) by (field; lra).
  set (q := x / p) in *.
  split; nra.
Qed.

(** [ilog2] does not overshoot: [2 ^ ilog2 x <= |x|]. *)
Lemma ilog2_le (x : Q) :
  ~ x == 0 -> Binary32.pow2 (Binary32.ilog2 x) <= Qabs x.
Proof.
  intros Hx. destruct x as [n0 d]. unfold Binary32.ilog2.
  cbn [Qnum Qden Qabs].
  assert (Hn0 : n0 <> 0%Z).
  { intros ->. apply Hx. reflexivity. }
  set (n := Z.abs n0) in *.
  assert (Hn : (0 < n)%Z) by (subst n; lia).
  pose proof (Z.log2_spec n Hn) as [Hnlo _].
  pose proof (Z.log2_spec (Zpos d) eq_refl) as [_ Hdhi].
  pose proof (Z.log2_nonneg n) as Hln.
  pose proof (Z.log2_nonneg (Zpos d)) as Hld.
  set (ln := Z.log2 n) in *. set (ld := Z.log2 (Zpos d)) in *.
  rewrite (Qmake_Qdiv n d).
  set (N := inject_Z n). set (D := inject_Z (Zpos d)).
  assert (HD : 0 < D) by (subst D; rewrite <- (Zlt_Qlt 0); lia).
  assert (HNlo : Binary32.pow2 ln <= N).
  { rewrite <- pow2_of_Z by exact Hln. subst N. now rewrite <- Zle_Qle. }
  assert (HDhi : D < Binary32.pow2 (ld + 1)).
  { rewrite <- pow2_of_Z by lia. subst D. rewrite <- Zlt_Qlt.
    replace (ld + 1)%Z with (Z.succ ld) by lia. exact Hdhi. }
  apply Qle_shift_div_l; [exact HD |].
  destruct (Z.ltb_spec (n * 2 ^ Z.max 0 (- (ln - ld)))
              (Zpos d * 2 ^ Z.max 0 (ln - ld))) as [Hlt | Hge].
  - pose proof (pow2_pos (ln - ld - 1)) as Hp.
    assert (Hsum : Binary32.pow2 (ln - ld - 1) * Binary32.pow2 (ld + 1)
                   == Binary32.pow2 ln).
    { rewrite <- pow2_plus. replace (ln - ld - 1 + (ld + 1))%Z with ln by lia.
      reflexivity. }
    set (a := Binary32.pow2 (ln - ld - 1)) in *.
    set (b := Binary32.pow2 (ld + 1)) in *.
    set (c := Binary32.pow2 ln) in *.
    assert (Hab : a * D <= a * b)
      by (apply Qmult_le_l; [exact Hp | lra]).
    lra.
  - destruct (Z.le_gt_cases 0 (ln - ld)) as [Hc | Hc].
    + rewrite Z.max_r in Hge by lia. rewrite Z.max_l in Hge by lia.
      rewrite Z.pow_0_r, Z.mul_1_r in Hge.
      rewrite <- pow2_of_Z by exact Hc. subst N D.
      rewrite <- inject_Z_mult, <- Zle_Qle. lia.
    + rewrite Z.max_l in Hge by lia. rewrite Z.max_r in Hge by lia.
      assert (HgeQ : D <= N * Binary32.pow2 (- (ln - ld))).
      { rewrite <- pow2_of_Z by lia. subst N D.
        rewrite <- inject_Z_mult, <- Zle_Qle. lia. }
      pose proof (pow2_pos (ln - ld)) as Hp.
      assert (Hone : Binary32.pow2 (- (ln - ld)) * Binary32.pow2 (ln - ld)
                     == 1).
      { rewrite <- pow2_plus.
        replace (- (ln - ld) + (ln - ld))%Z with 0%Z by lia. reflexivity. }
      set (a := Binary32.pow2 (ln - ld)) in *.
      set (b := Binary32.pow2 (- (ln - ld))) in *.
      assert (Hab : a * D <= a * (N * b))
        by (apply Qmult_le_l; [exact Hp | exact HgeQ]).
      assert (Hba : a * (N * b) == N * (b * a)) by ring.
      rewrite Hba, Hone in Hab. lra.
Qed.

(** The unit of the last place is at most [2^-23] of the number, or the
    fixed unit [2^-149] of the subnormal numbers. *)
Lemma exponent_le (x : Q) :
  ~ x == 0 ->
  Binary32.pow2 (Binary32.exponent x)
  <= Qabs x * (1 # 8388608) + Binary32.pow2 (-149).
Proof.
  intros Hx. unfold Binary32.exponent.
  pose proof (ilog2_le x Hx) as Hlog.
  pose proof (Qabs_nonneg x) as Habs.
  pose proof (pow2_pos (-149)) as Hsub.
  destruct (Z.max_spec (Binary32.ilog2 x - 23) (-149)) as [[_ ->] | [_ ->]].
  - nra.
  - replace (Binary32.ilog2 x - 23)%Z with (Binary32.ilog2 x + -23)%Z by lia.
    rewrite pow2_plus.
    change (Binary32.pow2 (-23)) with (1 # 8388608).
    set (a := Binary32.pow2 (Binary32.ilog2 x)) in *. nra.
Qed.

(** One rounding: a relative error of at most [2^-24], or the absolute
    error [2^-150] of the subnormal numbers. *)
Lemma round_error (x : Q) :
  Qabs (Binary32.round x - x)
  <= Qabs x * (1 # 16777216) + Binary32.pow2 (-150).
Proof.
  unfold Binary32.round.
  pose proof (Qred_correct x) as Hred.
  rewrite <- Hred at 2 3.
  set (y := Qred x). clearbody y. clear Hred x.
  destruct (Qeq_dec y 0) as [Hy | Hy].
  - assert (Hzero : Binary32.round_at y == 0).
    { unfold Binary32.round_at.
      generalize (Binary32.pow2 (Binary32.exponent y)). intros p.
      assert (Hr : Binary32.rne (y / p) = 0%Z).
      { pose proof (rne_error (y / p)) as Herr.
        apply Qabs_Qle_condition in Herr.
        assert (H0 : y / p == 0) by (rewrite Hy; unfold Qdiv; ring).
        set (m := Binary32.rne (y / p)) in *.
        destruct Herr as [Hlo Hhi]. rewrite H0 in Hlo, Hhi.
        assert (Hm : (-1 < m < 1)%Z).
        { split; rewrite Zlt_Qlt.
          - change (inject_Z (-1)) with (-1). lra.
          - change (inject_Z 1) with 1. lra. }
        lia. }
      rewrite Hr. ring. }
    pose proof (pow2_pos (-150)) as Hp.
    pose proof (Qabs_nonneg y) as Habs.
    assert (Hdiff : Binary32.round_at y - y == 0) by (rewrite Hzero, Hy; ring).
    rewrite Hdiff. cbn [Qabs Qnum Z.abs].
    set (a := Qabs y) in *. nra.
  - pose proof (round_at_error y) as Herr.
    pose proof (exponent_le y Hy) as Hexp.
    pose proof (Qabs_nonneg y) as Habs.
    change (Binary32.pow2 (-149)) with (1 # 713623846352979940529142984724747568191373312) in Hexp.
    change (Binary32.pow2 (-150)) with (1 # 1427247692705959881058285969449495136382746624).
    set (p := Binary32.pow2 (Binary32.exponent y)) in *.
    set (a := Qabs y) in *. set (r := Qabs (Binary32.round_at y - y)) in *.
    lra.
Qed.

(** In binary32, [s + 1 * (e - s)] is within the rounding slack of [e]. *)
Lemma binary32_near_end (M x s e : float) :
  x == 1 -> Qabs s <= M -> Qabs e <= M ->
  Qabs (Binary32.fadd s (Binary32.fmul (Binary32.fsub e s) x) - e)
  <= rounding_slack M.
Proof.
  intros Hx Hs He.
  unfold Binary32.fadd, Binary32.fmul, Binary32.fsub, rounding_slack.
  set (d1 := Binary32.round (e - s)).
  rewrite (round_compat (d1 * x) d1) by (rewrite Hx; ring).
  set (d2 := Binary32.round d1).
  set (r := Binary32.round (s + d2)).
  pose proof (round_error (e - s)) as H1. fold d1 in H1.
  pose proof (round_error d1) as H2. fold d2 in H2.
  pose proof (round_error (s + d2)) as H3. fold r in H3.
  change (Binary32.pow2 (-150))
    with (1 # 1427247692705959881058285969449495136382746624) in *.
  change (Binary32.pow2 (-148))
    with (1 # 356811923176489970264571492362373784095686656).
  apply Qabs_Qle_condition in Hs, He.
  apply Qabs_Qle_condition.
  destruct (Qabs_cases (e - s)) as [[? Ha1] | [? Ha1]];
    rewrite Ha1 in H1; clear Ha1;
    apply Qabs_Qle_condition in H1;
    (destruct (Qabs_cases d1) as [[? Ha2] | [? Ha2]];
     rewrite Ha2 in H2; clear Ha2;
     apply Qabs_Qle_condition in H2;
     (destruct (Qabs_cases (s + d2)) as [[? Ha3] | [? Ha3]];
      rewrite Ha3 in H3; clear Ha3;
      apply Qabs_Qle_condition in H3;
      split; lra)).
Qed.

(** ** Path interpolation *)

Section PathFacts.
Import PathData VPathOps.
Local Open Scope nat_scope.
Context {arith : Arith VPointF}.

Lemma lerp_loop_unfold (start end' : list VPointF) (x : float)
  (size i : nat) (result : VPath) :
  lerp_loop start end' x size i result
  = if lt_dec i size
    then let? c1 := blend_at start end' x i in
         let? c2 := blend_at start end' x (i + 1) in
         let? e := blend_at start end' x (i + 2) in
         lerp_loop start end' x size (i + 3) (cubicTo c1 c2 e result)
    else Some result.
Proof.
  simp lerp_loop. destruct (lt_dec i size); cbn; [| reflexivity].
  destruct (blend_at start end' x i); cbn; [| reflexivity].
  destruct (blend_at start end' x (i + 1)); cbn; [| reflexivity].
  destruct (blend_at start end' x (i + 2)); cbn; reflexivity.
Qed.

Lemma toPath_loop_unfold (points : list VPointF) (size i : nat)
  (path : VPath) :
  toPath_loop points size i path
  = if lt_dec i size
    then let? c1 := nth_error points i in
         let? c2 := nth_error points (i + 1) in
         let? e := nth_error points (i + 2) in
         toPath_loop points size (i + 3) (cubicTo c1 c2 e path)
    else Some path.
Proof.
  simp toPath_loop. destruct (lt_dec i size); cbn; [| reflexivity].
  destruct (nth_error points i); cbn; [| reflexivity].
  destruct (nth_error points (i + 1)); cbn; [| reflexivity].
  destruct (nth_error points (i + 2)); cbn; reflexivity.
Qed.

Lemma nth_error_middle {A : Type} (pre rest : list A) (i j : nat) :
  length pre = i -> nth_error (pre ++ rest) (i + j) = nth_error rest j.
Proof.
  intros <-. rewrite nth_error_app2 by lia. f_equal. lia.
Qed.

Lemma three_more {A : Type} (k : nat) (l : list A) :
  length l = 3 * S k ->
  exists a b c l', l = a :: b :: c :: l' /\ length l' = 3 * k.
Proof.
  destruct l as [| a [| b [| c l']]]; cbn; intros Hlen; try lia.
  exists a, b, c, l'. split; [reflexivity | lia].
Qed.

Lemma toPath_loop_run (k : nat) : forall (pre rest : list VPointF)
  (i : nat) (path : VPath),
  length pre = i -> length rest = 3 * k ->
  toPath_loop (pre ++ rest) (i + 3 * k) i path
  = Some (path ++ cubics rest).
Proof.
  induction k as [| k IH]; intros pre rest i path Hpre Hrest;
    rewrite toPath_loop_unfold.
  - destruct rest; [| discriminate].
    destruct (lt_dec i (i + 3 * 0)); [lia |].
    cbn. now rewrite app_nil_r.
  - destruct (three_more k rest Hrest) as (a & b & c & rest' & -> & Hrest').
    destruct (lt_dec i (i + 3 * S k)); [| lia].
    rewrite <- (Nat.add_0_r i) at 1.
    replace (i + 3 * S k) with ((i + 3) + 3 * k) by lia.
    rewrite !(nth_error_middle pre _ i) by exact Hpre. cbn [nth_error].
    replace (pre ++ a :: b :: c :: rest')
      with ((pre ++ [a; b; c]) ++ rest')
      by (rewrite <- app_assoc; reflexivity).
    rewrite IH by (rewrite ?length_app; cbn; lia).
    unfold cubicTo. rewrite <- app_assoc. reflexivity.
Qed.

Lemma blend_at_middle (preS preE restS restE : list VPointF) (x : float)
  (i j : nat) :
  length preS = i -> length preE = i ->
  blend_at (preS ++ restS) (preE ++ restE) x (i + j)
  = let? s := nth_error restS j in
    let? e := nth_error restE j in
    Some (add s (scale x (sub e s))).
Proof.
  intros HS HE. unfold blend_at.
  now rewrite (nth_error_middle preS), (nth_error_middle preE).
Qed.

Lemma lerp_loop_run (x : float) (k : nat) :
  forall (preS preE restS restE : list VPointF) (i : nat) (result : VPath),
  length preS = i -> length preE = i ->
  length restS = 3 * k -> length restE = 3 * k ->
  lerp_loop (preS ++ restS) (preE ++ restE) x (i + 3 * k) i result
  = Some (result ++ cubics (blend restS restE x)).
Proof.
  induction k as [| k IH];
    intros preS preE restS restE i result HpS HpE HrS HrE;
    rewrite lerp_loop_unfold.
  - destruct restS; [| discriminate].
    destruct (lt_dec i (i + 3 * 0)); [lia |].
    cbn. now rewrite app_nil_r.
  - destruct (three_more k restS HrS) as (a & b & c & restS' & -> & HrS').
    destruct (three_more k restE HrE) as (a' & b' & c' & restE' & -> & HrE').
    destruct (lt_dec i (i + 3 * S k)); [| lia].
    replace (i + 3 * S k) with ((i + 3) + 3 * k) by lia.
    rewrite <- (Nat.add_0_r i) at 1.
    rewrite !(blend_at_middle preS preE _ _ x i) by assumption.
    cbn [nth_error].
    replace (preS ++ a :: b :: c :: restS')
      with ((preS ++ [a; b; c]) ++ restS')
      by (rewrite <- app_assoc; reflexivity).
    replace (preE ++ a' :: b' :: c' :: restE')
      with ((preE ++ [a'; b'; c']) ++ restE')
      by (rewrite <- app_assoc; reflexivity).
    rewrite IH by (rewrite ?length_app; cbn; lia).
    unfold cubicTo. rewrite <- app_assoc. reflexivity.
Qed.

Lemma blend_length (x : float) (start end' : list VPointF) :
  length start = length end' -> length (blend start end' x) = length start.
Proof.
  revert end'. induction start as [| s start IH]; intros [| e end'] Hlen;
    cbn in *; try discriminate; try reflexivity.
  f_equal. apply IH. lia.
Qed.

Lemma pointCount_app (p q : VPath) :
  pointCount (p ++ q) = pointCount p + pointCount q.
Proof.
  unfold pointCount. now rewrite map_app, list_sum_app.
Qed.

Lemma pointCount_cubics (k : nat) : forall points : list VPointF,
  length points = 3 * k -> pointCount (cubics points) = 3 * k.
Proof.
  induction k as [| k IH]; intros points Hlen.
  - destruct points; [reflexivity | discriminate].
  - destruct (three_more k points Hlen) as (a & b & c & rest & -> & Hrest).
    cbn [cubics]. change (pointCount (CubicTo a b c :: cubics rest))
      with (3 + pointCount (cubics rest)).
    rewrite (IH rest Hrest). lia.
Qed.

Lemma last_cubics_not_close (points : list VPointF) (p : VPointF) :
  VPath_closed (MoveTo p :: cubics points) = false.
Proof.
  unfold VPath_closed.
  assert (H : forall (l : list VPointF) (d : Element),
             d <> Close -> last (d :: cubics l) (MoveTo dflt) <> Close).
  { fix IH 1. intros [| c1 [| c2 [| e rest]]] d Hd; try exact Hd.
    cbn [cubics].
    change (last (d :: CubicTo c1 c2 e :: cubics rest) (MoveTo dflt))
      with (last (CubicTo c1 c2 e :: cubics rest) (MoveTo dflt)).
    apply IH. discriminate. }
  specialize (H points (MoveTo p) ltac:(discriminate)).
  destruct (last (MoveTo p :: cubics points) (MoveTo dflt));
    [reflexivity | reflexivity | contradiction].
Qed.

Lemma closed_after_close (path : VPath) :
  VPath_closed (close path) = true.
Proof.
  unfold VPath_closed, close. now rewrite last_last.
Qed.

Lemma VPointF_eq_refl (p : VPointF) : VPointF_eq p p.
Proof. split; reflexivity. Qed.

Lemma Element_eq_refl (elm : Element) : Element_eq elm elm.
Proof. destruct elm; constructor; apply VPointF_eq_refl. Qed.

Lemma cubics_eq (k : nat) : forall l l' : list VPointF,
  length l = 3 * k -> Forall2 VPointF_eq l l' ->
  VPath_eq (cubics l) (cubics l').
Proof.
  induction k as [| k IH]; intros l l' Hlen Heq.
  - destruct l; [| discriminate]. inversion Heq. constructor.
  - destruct (three_more k l Hlen) as (a & b & c & rest & -> & Hrest).
    inversion Heq as [| ? a' ? l1 Ha H1]; subst.
    inversion H1 as [| ? b' ? l2 Hb H2]; subst.
    inversion H2 as [| ? c' ? l3 Hc H3]; subst.
    cbn [cubics]. constructor; [now constructor | now apply IH].
Qed.

Lemma lerp_result (start end' : PathData.t) (k : nat) (x : float)
  (buffer : VPath) (s0 e0 : VPointF) (restS restE : list VPointF) :
  mPoints start = s0 :: restS -> mPoints end' = e0 :: restE ->
  length restS = 3 * k -> length restE = 3 * k ->
  PathData.lerp start end' x buffer
  = Some ((if mClosed start then close else fun p => p)
            (MoveTo (add s0 (scale x (sub e0 s0)))
             :: cubics (blend restS restE x))).
Proof.
  intros HS HE HrS HrE. unfold PathData.lerp. rewrite HS, HE.
  cbn [blend_at nth_error length].
  replace (Nat.min (S (length restS)) (S (length restE))) with (1 + 3 * k)
    by lia.
  rewrite (lerp_loop_run x k [s0] [e0] restS restE 1) by (auto; reflexivity).
  unfold reserve, moveTo, reset. cbn [app].
  destruct (mClosed start); reflexivity.
Qed.

Lemma toPath_result (d : PathData.t) (k : nat) (buffer : VPath)
  (p0 : VPointF) (rest : list VPointF) :
  mPoints d = p0 :: rest -> length rest = 3 * k ->
  PathData.toPath d buffer
  = Some ((if mClosed d then close else fun p => p)
            (MoveTo p0 :: cubics rest)).
Proof.
  intros Hd Hrest. unfold PathData.toPath. rewrite Hd.
  cbn [nth_error length].
  replace (S (length rest)) with (1 + 3 * k) by lia.
  rewrite (toPath_loop_run k [p0] rest 1) by (auto; reflexivity).
  unfold reserve, moveTo, reset. cbn [app].
  destruct (mClosed d); reflexivity.
Qed.

Lemma one_more {A : Type} (k : nat) (l : list A) :
  length l = 3 * k + 1 ->
  exists a l', l = a :: l' /\ length l' = 3 * k.
Proof.
  destruct l as [| a l']; cbn; intros Hlen; [lia |].
  exists a, l'. split; [reflexivity | lia].
Qed.

End PathFacts.

Section PathEnds.
Import PathData VPathOps.
Local Open Scope nat_scope.

Lemma blend_eq_start (x : float) (start end' : list VPointF) :
  (x == 0)%Q -> length start = length end' ->
  Forall2 VPointF_eq (blend start end' x) start.
Proof.
  intros Hx. revert end'.
  induction start as [| s start IH]; intros [| e end'] Hlen; cbn in *;
    try discriminate; constructor.
  - split; cbn; rewrite Hx; ring.
  - apply IH. lia.
Qed.

Lemma blend_eq_end (x : float) (start end' : list VPointF) :
  (x == 1)%Q -> length start = length end' ->
  Forall2 VPointF_eq (blend start end' x) end'.
Proof.
  intros Hx. revert end'.
  induction start as [| s start IH]; intros [| e end'] Hlen; cbn in *;
    try discriminate; constructor.
  - split; cbn; rewrite Hx; ring.
  - apply IH. lia.
Qed.

Lemma binary32_blend_start (x : float) (start end' : list VPointF) :
  (x == 0)%Q -> Forall Binary32.ordinary start ->
  length start = length end' ->
  Forall2 VPointF_eq (blend (A := Binary32.Arith_VPointF) start end' x)
    start.
Proof.
  intros Hx Hstart. revert end'.
  induction Hstart as [| s start [[Hpx _] [Hpy _]] _ IH];
    intros [| e end'] Hlen; cbn [blend length] in *; try discriminate;
    constructor.
  - split; cbn [add sub scale Binary32.Arith_VPointF px py];
      now apply binary32_keeps_start.
  - apply IH. lia.
Qed.

Lemma binary32_blend_end (M x : float) (start end' : list VPointF) :
  (x == 1)%Q -> Forall (bounded M) start -> Forall (bounded M) end' ->
  length start = length end' ->
  Forall2 (VPointF_near (rounding_slack M))
    (blend (A := Binary32.Arith_VPointF) start end' x) end'.
Proof.
  intros Hx Hstart. revert end'.
  induction Hstart as [| s start [Hsx Hsy] _ IH];
    intros [| e end'] Hend Hlen; cbn [blend length] in *;
    try discriminate; constructor.
  - inversion Hend as [| ? ? [Hex Hey] _]; subst.
    split; cbn [add sub scale Binary32.Arith_VPointF px py];
      now apply binary32_near_end.
  - inversion Hend; subst. apply IH; [assumption | lia].
Qed.

Lemma cubics_near (tol : float) (k : nat) : forall l l' : list VPointF,
  length l = 3 * k -> Forall2 (VPointF_near tol) l l' ->
  VPath_near tol (cubics l) (cubics l').
Proof.
  induction k as [| k IH]; intros l l' Hlen Hnear.
  - destruct l; [| discriminate]. inversion Hnear. constructor.
  - destruct (three_more k l Hlen) as (a & b & c & rest & -> & Hrest).
    inversion Hnear as [| ? a' ? l1 Ha H1]; subst.
    inversion H1 as [| ? b' ? l2 Hb H2]; subst.
    inversion H2 as [| ? c' ? l3 Hc H3]; subst.
    cbn [cubics]. constructor; [now constructor | now apply IH].
Qed.

(** The shape of the result, in any arithmetic. *)
Lemma lerp_shape {A : Arith VPointF} (start end' : PathData.t) (k : nat)
  (x : float) (buffer : VPath) (s0 e0 : VPointF)
  (restS restE : list VPointF) :
  mPoints start = s0 :: restS -> mPoints end' = e0 :: restE ->
  length restS = 3 * k -> length restE = 3 * k ->
  let result :=
    (if mClosed start then close else fun p => p)
      (MoveTo (add s0 (scale x (sub e0 s0))) :: cubics (blend restS restE x))
  in
  PathData.lerp start end' x buffer = Some result
  /\ pointCount result = 3 * k + 1
  /\ VPath_closed result = mClosed start.
Proof.
  intros HpS HpE HrS HrE result. subst result.
  rewrite (lerp_result start end' k x buffer s0 e0 restS restE HpS HpE HrS HrE).
  split; [reflexivity |].
  assert (Hblend : length (blend restS restE x) = 3 * k)
    by (rewrite blend_length; lia).
  split.
  - destruct (mClosed start); unfold close;
      rewrite ?pointCount_app;
      change (pointCount (MoveTo ?p :: ?l)) with (1 + pointCount l);
      rewrite (pointCount_cubics k _ Hblend); cbn; lia.
  - destruct (mClosed start).
    + apply closed_after_close.
    + apply last_cubics_not_close.
Qed.

(** C5 (amended).  For two paths with the same number of control points,
    one move and [k] cubic segments, [lerp] produces a path with that
    number of points, closed exactly when the start path is, in exact
    arithmetic and in binary32 alike.  At [t = 0] the result is the start
    path: in exact arithmetic, and in binary32 too when the coordinates
    are binary32 numbers of magnitude at most [2^126].  At [t = 1], the
    two paths being both closed or both open, the result is the end path
    in exact arithmetic; binary32 rounds [start + (end - start)], and the
    result has the commands of the end path on points within
    [3 * 2^-23 * M + 2^-148] of its points, where [M] bounds the
    magnitude of the coordinates. *)
Theorem lerp_preserves_path (start end' : PathData.t) (k : nat)
  (x : float) (buffer : VPath) :
  length (mPoints start) = 3 * k + 1 ->
  length (mPoints end') = 3 * k + 1 ->
  (exists result : VPath,
     PathData.lerp start end' x buffer = Some result
     /\ pointCount result = 3 * k + 1
     /\ VPath_closed result = mClosed start
     /\ ((x == 0)%Q ->
         exists path : VPath,
           PathData.toPath start buffer = Some path
           /\ VPath_eq result path)
     /\ ((x == 1)%Q -> mClosed start = mClosed end' ->
         exists path : VPath,
           PathData.toPath end' buffer = Some path
           /\ VPath_eq result path))
  /\ (exists result : VPath,
        PathData.lerp (A := Binary32.Arith_VPointF) start end' x buffer
        = Some result
        /\ pointCount result = 3 * k + 1
        /\ VPath_closed result = mClosed start
        /\ ((x == 0)%Q ->
            Forall Binary32.ordinary (mPoints start) ->
            Forall Binary32.ordinary (mPoints end') ->
            exists path : VPath,
              PathData.toPath start buffer = Some path
              /\ VPath_eq result path)
        /\ ((x == 1)%Q -> mClosed start = mClosed end' ->
            Forall Binary32.ordinary (mPoints start) ->
            Forall Binary32.ordinary (mPoints end') ->
            forall M : float,
              Forall (bounded M) (mPoints start) ->
              Forall (bounded M) (mPoints end') ->
              exists path : VPath,
                PathData.toPath end' buffer = Some path
                /\ VPath_near (rounding_slack M) result path)).
Proof.
  intros HS HE. split.
  {   destruct (one_more k _ HS) as (s0 & restS & HpS & HrS).
    destruct (one_more k _ HE) as (e0 & restE & HpE & HrE).
    rewrite (lerp_result start end' k x buffer s0 e0 restS restE HpS HpE HrS HrE).
    eexists. split; [reflexivity |].
    assert (Hlen : length restS = length restE) by lia.
    assert (Hblend : length (blend restS restE x) = 3 * k)
      by (rewrite blend_length; assumption).
    split; [| split; [| split]].
    - destruct (mClosed start); unfold close;
        rewrite ?pointCount_app;
        change (pointCount (MoveTo ?p :: ?l)) with (1 + pointCount l);
        rewrite (pointCount_cubics k _ Hblend); cbn; lia.
    - destruct (mClosed start).
      + apply closed_after_close.
      + apply last_cubics_not_close.
    - intros Hx.
      rewrite (toPath_result start k buffer s0 restS HpS HrS).
      eexists. split; [reflexivity |].
      assert (Hbody : VPath_eq
                (MoveTo (add s0 (scale x (sub e0 s0)))
                 :: cubics (blend restS restE x))
                (MoveTo s0 :: cubics restS)).
      { constructor.
        - constructor. split; cbn; rewrite Hx; ring.
        - apply (cubics_eq k); [exact Hblend |].
          now apply blend_eq_start. }
      destruct (mClosed start); [| exact Hbody].
      unfold close. apply Forall2_app; [exact Hbody |].
      constructor; constructor.
    - intros Hx Hclosed.
      rewrite (toPath_result end' k buffer e0 restE HpE HrE).
      eexists. split; [reflexivity |].
      assert (Hbody : VPath_eq
                (MoveTo (add s0 (scale x (sub e0 s0)))
                 :: cubics (blend restS restE x))
                (MoveTo e0 :: cubics restE)).
      { constructor.
        - constructor. split; cbn; rewrite Hx; ring.
        - apply (cubics_eq k); [exact Hblend |].
          now apply blend_eq_end. }
      rewrite <- Hclosed.
      destruct (mClosed start); [| exact Hbody].
      unfold close. apply Forall2_app; [exact Hbody |].
      constructor; constructor. }
  destruct (one_more k _ HS) as (s0 & restS & HpS & HrS).
  destruct (one_more k _ HE) as (e0 & restE & HpE & HrE).
  destruct (lerp_shape (A := Binary32.Arith_VPointF) start end' k x buffer
              s0 e0 restS restE HpS HpE HrS HrE)
    as (Hres & Hcount & Hclosed).
  eexists. split; [exact Hres |].
  split; [exact Hcount | split; [exact Hclosed | split]].
  2: {
    intros Hx Hflags _ _ M HMS HME.
    rewrite (toPath_result end' k buffer e0 restE HpE HrE).
    eexists. split; [reflexivity |].
    rewrite HpS in HMS. rewrite HpE in HME.
    inversion HMS as [| ? ? [Hsx Hsy] HMS']; subst.
    inversion HME as [| ? ? [Hex Hey] HME']; subst.
    assert (Hbody : VPath_near (rounding_slack M)
              (MoveTo (@add _ Binary32.Arith_VPointF s0
                         (@scale _ Binary32.Arith_VPointF x
                            (@sub _ Binary32.Arith_VPointF e0 s0)))
               :: cubics (blend (A := Binary32.Arith_VPointF) restS restE x))
              (MoveTo e0 :: cubics restE)).
    { constructor.
      - constructor.
        split; cbn [add sub scale Binary32.Arith_VPointF px py];
          now apply binary32_near_end.
      - apply (cubics_near _ k); [rewrite blend_length; lia |].
        apply binary32_blend_end; [exact Hx | exact HMS' | exact HME' | lia]. }
    rewrite <- Hflags.
    destruct (mClosed start); [| exact Hbody].
    unfold close. apply Forall2_app; [exact Hbody |].
    constructor; constructor. }
  intros Hx Hstart _.
  rewrite (toPath_result start k buffer s0 restS HpS HrS).
  eexists. split; [reflexivity |].
  rewrite HpS in Hstart.
  inversion Hstart as [| ? ? [[Hpx _] [Hpy _]] Hrest]; subst.
  assert (Hbody : VPath_eq
            (MoveTo (@add _ Binary32.Arith_VPointF s0
                       (@scale _ Binary32.Arith_VPointF x
                          (@sub _ Binary32.Arith_VPointF e0 s0)))
             :: cubics (blend (A := Binary32.Arith_VPointF) restS restE x))
            (MoveTo s0 :: cubics restS)).
  { constructor.
    - constructor.
      split; cbn [add sub scale Binary32.Arith_VPointF px py];
        now apply binary32_keeps_start.
    - apply (cubics_eq k); [rewrite blend_length; lia |].
      apply binary32_blend_start; [exact Hx | exact Hrest | lia]. }
  destruct (mClosed start); [| exact Hbody].
  unfold close. apply Forall2_app; [exact Hbody |].
  constructor; constructor.
Qed.

Lemma lerp_preserves_path_witness :
  (exists result : VPath,
     PathData.lerp Sample.path_start Sample.path_end 0 [] = Some result
     /\ pointCount result = 4
     /\ exists path : VPath,
          PathData.toPath Sample.path_start [] = Some path
          /\ VPath_eq result path)
  /\ (exists result : VPath,
        PathData.lerp Sample.path_start Sample.path_end 1 [] = Some result
        /\ VPath_closed result = true
        /\ exists path : VPath,
             PathData.toPath Sample.path_end [] = Some path
             /\ VPath_eq result path)
  /\ (exists result : VPath,
        PathData.lerp (A := Binary32.Arith_VPointF) Sample.path_start
          Sample.path_end 0 []
        = Some result
        /\ pointCount result = 4
        /\ VPath_closed result = true
        /\ exists path : VPath,
             PathData.toPath Sample.path_start [] = Some path
             /\ VPath_eq result path)
  /\ (exists result path : VPath,
        PathData.lerp (A := Binary32.Arith_VPointF) Rounding.wide
          Rounding.narrow 1 []
        = Some result
        /\ PathData.toPath Rounding.narrow [] = Some path
        /\ VPath_near (rounding_slack 1) result path).
Proof.
  split; [| split; [| split]].
  - destruct (proj1 (lerp_preserves_path Sample.path_start Sample.path_end
                       1 0%Q [] eq_refl eq_refl))
      as (result & Hres & Hcount & _ & Hzero & _).
    exists result. split; [exact Hres | split; [exact Hcount |]].
    apply Hzero. reflexivity.
  - destruct (proj1 (lerp_preserves_path Sample.path_start Sample.path_end
                       1 1%Q [] eq_refl eq_refl))
      as (result & Hres & _ & Hclosed & _ & Hone).
    exists result. split; [exact Hres | split; [exact Hclosed |]].
    apply Hone; reflexivity.
  - destruct (proj2 (lerp_preserves_path Sample.path_start Sample.path_end
                       1 0%Q [] eq_refl eq_refl))
      as (result & Hres & Hcount & Hclosed & Hzero & _).
    exists result.
    split; [exact Hres | split; [exact Hcount | split; [exact Hclosed |]]].
    apply Hzero; [reflexivity | |];
      repeat constructor; try (vm_compute; reflexivity);
      vm_compute; discriminate.
  - destruct (proj2 (lerp_preserves_path Rounding.wide Rounding.narrow
                       1 1%Q [] eq_refl eq_refl))
      as (result & Hres & _ & _ & _ & Hone).
    destruct (Hone eq_refl eq_refl) with (M := 1%Q)
      as (path & Hpath & Hnear);
      try (repeat constructor; try (vm_compute; reflexivity);
           vm_compute; discriminate).
    exists result, path. split; [exact Hres | split; assumption].
Defined.

(** The numbers of the example below: [0.1f - 1] is rounded to 24 bits,
    and adding it to 1 gives a neighbour of [0.1f]. *)
Lemma binary32_one_to_tenth :
  (Binary32.fsub Rounding.tenth 1 == - (15099494 # 16777216))%Q
  /\ (Binary32.fadd 1 (Binary32.fmul (Binary32.fsub Rounding.tenth 1) 1)
      == 13421776 # 134217728)%Q
  /\ ~ (13421776 # 134217728 == Rounding.tenth)%Q.
Proof.
  split; [vm_compute; reflexivity | split; [vm_compute; reflexivity |]].
  intros H. vm_compute in H. discriminate.
Qed.

(** C5 (as stated, refuted).  In binary32, interpolating at [t = 1] from
    the path on the unit square to the same path scaled by [0.1f] does not
    give the end path: the first point has the abscissa
    [1 + (0.1f - 1) = 13421776 * 2^-27], where [0.1f] is
    [13421773 * 2^-27]; the difference [0.1f - 1] has lost its last three
    bits. *)
Lemma lerp_end_path_is_rounded :
  Forall Binary32.ordinary (mPoints Rounding.wide)
  /\ Forall Binary32.ordinary (mPoints Rounding.narrow)
  /\ exists result path : VPath,
       PathData.lerp (A := Binary32.Arith_VPointF) Rounding.wide
         Rounding.narrow 1 []
       = Some result
       /\ PathData.toPath Rounding.narrow [] = Some path
       /\ ~ VPath_eq result path.
Proof.
  split; [| split].
  - repeat constructor; try (vm_compute; reflexivity);
      vm_compute; discriminate.
  - repeat constructor; try (vm_compute; reflexivity);
      vm_compute; discriminate.
  - rewrite (lerp_result (arith := Binary32.Arith_VPointF) Rounding.wide
               Rounding.narrow 1 1 [] _ _ _ _ eq_refl eq_refl eq_refl
               eq_refl).
    rewrite (toPath_result Rounding.narrow 1 [] _ _ eq_refl eq_refl).
    eexists. eexists. split; [reflexivity | split; [reflexivity |]].
    intros Heq. inversion Heq as [| ? ? ? ? Hmove _]; subst.
    inversion Hmove as [? ? [Hx _] | |]; subst.
    vm_compute in Hx. discriminate.
Qed.

(** The close command is the start path's: from an open path to a closed
    one the result at [t = 1] lacks the [close] of the end path, in exact
    arithmetic already. *)
Lemma lerp_takes_start_flag :
  exists result path : VPath,
    PathData.lerp (PathData.mk (mPoints Sample.path_start) false)
      Sample.path_end 1%Q []
    = Some result
    /\ PathData.toPath Sample.path_end [] = Some path
    /\ VPath_closed result = false
    /\ VPath_closed path = true
    /\ ~ VPath_eq result path.
Proof.
  rewrite (lerp_result (PathData.mk (mPoints Sample.path_start) false)
             Sample.path_end 1 1%Q [] _ _ _ _ eq_refl eq_refl eq_refl
             eq_refl).
  rewrite (toPath_result Sample.path_end 1 [] _ _ eq_refl eq_refl).
  eexists. eexists. split; [reflexivity | split; [reflexivity |]].
  split; [reflexivity | split; [reflexivity |]].
  intros Heq. apply Forall2_length in Heq. discriminate.
Qed.

(** With a number of points that is not one move and whole cubic
    segments, the loop reads past the end of the vectors. *)
Lemma lerp_reads_past_two_points :
  PathData.lerp (PathData.mk [mkPoint 0 0; mkPoint 1 1] false)
    (PathData.mk [mkPoint 2 2; mkPoint 3 3] false) 0%Q []
  = None.
Proof. reflexivity. Qed.

(** Two empty paths interpolate to the empty path, which is not closed,
    as [toPath] of an empty path is. *)
Lemma lerp_empty (closed closed' : bool) (x : float) (buffer : VPath) :
  PathData.lerp (PathData.mk [] closed) (PathData.mk [] closed') x buffer
  = Some []
  /\ PathData.toPath (PathData.mk [] closed) buffer = Some [].
Proof. split; reflexivity. Qed.

End PathEnds.

(** ** Unicode text *)

(** When the decoder returns [false], [setUtf8Text] leaves the object as
    it was: a fresh object stays empty. *)
Lemma setUtf8Text_failure (u : Unicode.t) (input : list byte)
  (out : list Z) :
  Unicode.convertToUnicode input [] = Unicode.Returns false out ->
  Unicode.setUtf8Text u input = Some u.
Proof.
  intros Hconv. unfold Unicode.setUtf8Text. now rewrite Hconv.
Qed.

(** A byte that is no lead byte, a continuation byte or one of [0xFE] and
    [0xFF], does not fail the decoder: the byte and the one after it are
    skipped. *)
Lemma stray_byte_is_skipped (input : list byte) (i : nat) (c : byte) :
  nth_error input i = Some c ->
  (128 <= Z.of_N (Byte.to_N c) < 192 \/ 254 <= Z.of_N (Byte.to_N c))%Z ->
  Unicode.decode_at input i = Unicode.Go (1%nat, None).
Proof.
  intros Hc Hstray. unfold Unicode.decode_at, Unicode.at_. rewrite Hc.
  destruct c;
    try (exfalso; clear - Hstray; cbv in Hstray; intuition congruence);
    reflexivity.
Qed.

(** A lead byte that is the last byte of the input makes
    [std::string::at] throw. *)
Lemma cut_sequence_throws (input : list byte) (i : nat) (c : byte) :
  nth_error input i = Some c ->
  nth_error input (i + 1) = None ->
  (192 <= Z.of_N (Byte.to_N c) < 254)%Z ->
  Unicode.decode_at input i = Unicode.OutOfRange.
Proof.
  intros Hc Hend Hlead.
  unfold Unicode.decode_at, Unicode.continuation, Unicode.at_.
  rewrite Hc, Hend.
  destruct c;
    try (exfalso; clear - Hlead; cbv in Hlead; intuition congruence);
    reflexivity.
Qed.

(** C6.  The text "A", a stray continuation byte, "BC": the decoder
    reports success, having skipped the stray byte and the "B" after it,
    and [setUtf8Text] stores the text with the code points of "A" and "C".
    The two-byte sequence cut after its first byte: [input.at(++i)]
    throws and the exception leaves [setUtf8Text]. *)
Theorem setUtf8Text_invalid_sequences :
  Unicode.convertToUnicode Sample.stray_text []
  = Unicode.Returns true [65; 67]%Z
  /\ Unicode.setUtf8Text Unicode.empty Sample.stray_text
     = Some (Unicode.mk (Some [65; 67]%Z) Sample.stray_text 2)
  /\ Unicode.convertToUnicode Sample.cut_text [] = Unicode.Throws
  /\ Unicode.setUtf8Text Unicode.empty Sample.cut_text = None.
Proof.
  repeat split; vm_compute; reflexivity.
Qed.

(** ** Gradient data *)

Lemma combine_with_length (op : float -> float -> float)
  (newG g2 : list float) :
  length (Gradient.combine_with op newG g2) = length newG.
Proof.
  revert g2. induction newG as [| i newG IH]; intros [| x g2]; cbn;
    try reflexivity.
  now rewrite IH.
Qed.

Lemma combine_plus_minus (a b : list float) :
  length a = length b ->
  Forall2 Qeq
    (Gradient.combine_with Qminus (Gradient.combine_with Qplus a b) b) a.
Proof.
  revert b. induction a as [| x a IH]; intros [| y b] Hlen; cbn in *;
    try discriminate; constructor.
  - ring.
  - apply IH. now injection Hlen.
Qed.

(** C7.  For operands of equal length, [(a + b) - b] is [a], element by
    element; for operands of different lengths, [a + b] and [a - b] are
    the left operand [a], unchanged. *)
Theorem gradient_plus_minus (a b : Gradient.Data) :
  (length (Gradient.mGradient a) = length (Gradient.mGradient b) ->
   Forall2 Qeq (Gradient.mGradient (sub (add a b) b))
     (Gradient.mGradient a))
  /\ (length (Gradient.mGradient a) <> length (Gradient.mGradient b) ->
      add a b = a /\ sub a b = a).
Proof.
  cbn [add sub Arith_GradientData]. unfold Gradient.plus, Gradient.minus.
  split; intros Hlen.
  - apply Nat.eqb_eq in Hlen as Heq. rewrite Heq. cbn.
    rewrite combine_with_length, Heq. cbn.
    now apply combine_plus_minus.
  - apply Nat.eqb_neq in Hlen. rewrite Hlen. cbn. split; reflexivity.
Qed.

Lemma gradient_plus_minus_witness :
  Forall2 Qeq
    (Gradient.mGradient
       (sub (add (Gradient.mkData [0; 1 # 2; 1])
               (Gradient.mkData [1; 1; 1 # 4]))
          (Gradient.mkData [1; 1; 1 # 4])))
    [0; 1 # 2; 1]
  /\ add (Gradient.mkData [0; 1]) (Gradient.mkData [1]) = Gradient.mkData [0; 1]
  /\ sub (Gradient.mkData [0; 1]) (Gradient.mkData [1])
     = Gradient.mkData [0; 1].
Proof.
  split.
  - apply (proj1 (gradient_plus_minus (Gradient.mkData [0; 1 # 2; 1])
                    (Gradient.mkData [1; 1; 1 # 4]))).
    reflexivity.
  - apply (proj2 (gradient_plus_minus (Gradient.mkData [0; 1])
                    (Gradient.mkData [1]))).
    cbn. discriminate.
Defined.

(** ** Trim segments *)

Lemma Trim_offset_bound (vOffset : float) :
  -1 < Trim_offset vOffset /\ Trim_offset vOffset < 1.
Proof.
  unfold Trim_offset.
  pose proof (fmod_bound vOffset 360 ltac:(reflexivity)) as [Hlo Hhi].
  set (m := fmod vOffset 360) in *.
  assert (Hm : m == 360 * (m / 360)) by (field; lra).
  set (o := m / 360) in *. split; lra.
Qed.

(** For percentages that are not negative no assertion of [noloop] and
    [loop] fails, and the segment is a loop exactly when one endpoint
    wraps, unless the span is approximately empty or full. *)
Lemma segment_of_defined (eps vStart vEnd vOffset : float) :
  0 < eps -> eps <= 1 -> 0 <= vStart -> 0 <= vEnd ->
  let s := vStart / 100 + Trim_offset vOffset in
  let e := vEnd / 100 + Trim_offset vOffset in
  let diff := Qabs (vStart / 100 - vEnd / 100) in
  exists seg : Trim.Segment,
    Trim.segment_of eps vStart vEnd vOffset = Some seg
    /\ (VGlobal.vCompare eps diff 0 = false ->
        VGlobal.vCompare eps diff 1 = false ->
        vStart <= 100 -> vEnd <= 100 ->
        (leaves_unit_interval s /\ ~ leaves_unit_interval e)
        \/ (~ leaves_unit_interval s /\ leaves_unit_interval e) ->
        Trim.end' seg < Trim.start seg)
    /\ (vStart <= 100 -> vEnd <= 100 ->
        (leaves_unit_interval s /\ leaves_unit_interval e)
        \/ (~ leaves_unit_interval s /\ ~ leaves_unit_interval e) ->
        Trim.start seg <= Trim.end' seg).
Proof.
  intros Heps Heps1 HvS HvE s e diff.
  pose proof (Trim_offset_bound vOffset) as [Hlo Hhi].
  unfold Trim.segment_of. fold (Trim_offset vOffset). fold diff.
  unfold leaves_unit_interval. subst s e.
  set (o := Trim_offset vOffset) in *.
  assert (HS : vStart == 100 * (vStart / 100)) by (field; lra).
  assert (HE : vEnd == 100 * (vEnd / 100)) by (field; lra).
  set (st := vStart / 100) in *. set (en := vEnd / 100) in *.
  unfold VGlobal.vCompare.
  destruct (Qabs_cases (st - en)) as [[? Hd] | [? Hd]];
  destruct (Qabs_cases (diff - 0)) as [[? Hd0] | [? Hd0]];
  destruct (Qabs_cases (diff - 1)) as [[? Hd1] | [? Hd1]];
  fold diff in Hd;
  (destruct (flt (Qabs (diff - 0)) eps) eqn:E0;
   [ eexists; split; [reflexivity | cbn; bool_props; split; intros; lra]
   |]);
  (destruct (flt (Qabs (diff - 1)) eps) eqn:E1;
   [ eexists; split; [reflexivity | cbn; bool_props; split; intros; lra]
   |]);
  unfold Trim.noloop, Trim.loop, fmin, fmax; split_ifs; bool_props;
  try (exfalso; lra);
  (eexists; split;
   [reflexivity | cbn [Trim.start Trim.end']; split; intros; lra]).
Qed.

Lemma segment_of_full (eps vStart vEnd vOffset : float) :
  0 < eps -> eps <= 1 -> vStart == 0 -> vEnd == 100 ->
  Trim.segment_of eps vStart vEnd vOffset = Some (Trim.mkSegment 0 1).
Proof.
  intros Heps Heps1 HS HE. unfold Trim.segment_of, VGlobal.vCompare.
  set (diff := Qabs (vStart / 100 - vEnd / 100)).
  assert (Hs : vStart / 100 == 0) by (rewrite HS; reflexivity).
  assert (He : vEnd / 100 == 1) by (rewrite HE; reflexivity).
  set (st := vStart / 100) in *. set (en := vEnd / 100) in *.
  destruct (Qabs_cases (st - en)) as [[? Hd] | [? Hd]];
  destruct (Qabs_cases (diff - 0)) as [[? Hd0] | [? Hd0]];
  destruct (Qabs_cases (diff - 1)) as [[? Hd1] | [? Hd1]];
  fold diff in Hd;
  (destruct (flt (Qabs (diff - 0)) eps) eqn:E0;
   [float_props; lra |]);
  (destruct (flt (Qabs (diff - 1)) eps) eqn:E1;
   [reflexivity | float_props; lra]).
Qed.

Lemma segment_of_empty (eps vStart vEnd vOffset : float) :
  0 < eps -> vStart == vEnd ->
  Trim.segment_of eps vStart vEnd vOffset = Some (Trim.mkSegment 0 0).
Proof.
  intros Heps HSE. unfold Trim.segment_of, VGlobal.vCompare.
  set (diff := Qabs (vStart / 100 - vEnd / 100)).
  assert (Hs : vStart / 100 == vEnd / 100) by (rewrite HSE; reflexivity).
  set (st := vStart / 100) in *. set (en := vEnd / 100) in *.
  destruct (Qabs_cases (st - en)) as [[? Hd] | [? Hd]];
  destruct (Qabs_cases (diff - 0)) as [[? Hd0] | [? Hd0]];
  fold diff in Hd;
  (destruct (flt (Qabs (diff - 0)) eps) eqn:E0;
   [reflexivity | float_props; lra]).
Qed.

(** C2 (as stated, refuted).  With start 0%, end 100% and an offset of 90
    degrees the shifted end point 1.25 wraps and the shifted start point
    0.25 does not, yet the segment is the full segment (0,1), which is
    not a loop. *)
Lemma full_trim_with_offset_is_no_loop :
  Trim.segment Sample.epsilon (Sample.trim 0 100 90) 0
  = Some (Trim.mkSegment 0 1)
  /\ ~ leaves_unit_interval (0 / 100 + Trim_offset 90)
  /\ leaves_unit_interval (100 / 100 + Trim_offset 90)
  /\ ~ (Trim.end' (Trim.mkSegment 0 1) < Trim.start (Trim.mkSegment 0 1)).
Proof.
  split; [reflexivity | split; [| split]].
  - intros [H | H]; vm_compute in H; discriminate.
  - right. reflexivity.
  - intros H. vm_compute in H. discriminate.
Qed.

(** Outside the percentages 0 to 100 an endpoint can lie beyond [0,1]
    without the offset having wrapped it: start 150%, end 20%, offset 0
    is the ordered segment (0.2, 1.5). *)
Lemma trim_beyond_percent_range :
  exists seg : Trim.Segment,
    Trim.segment Sample.epsilon (Sample.trim 150 20 0) 0 = Some seg
    /\ Trim.start seg == 2 # 10 /\ Trim.end' seg == 15 # 10
    /\ leaves_unit_interval (150 / 100 + Trim_offset 0)
    /\ ~ leaves_unit_interval (20 / 100 + Trim_offset 0).
Proof.
  eexists. split; [vm_compute; reflexivity |].
  split; [reflexivity | split; [reflexivity | split]].
  - right. reflexivity.
  - intros [H | H]; vm_compute in H; discriminate.
Qed.

(** With a tolerance of at most one half, a span cannot compare equal to
    0 and to 1 at once. *)
Lemma span_tests_exclusive (eps diff : float) :
  eps <= 1 # 2 ->
  VGlobal.vCompare eps diff 1 = true ->
  VGlobal.vCompare eps diff 0 = false.
Proof.
  intros Heps H1. unfold VGlobal.vCompare in *.
  destruct (flt (Qabs (diff - 0)) eps) eqn:H0; [| reflexivity].
  float_props.
  destruct (Qabs_cases (diff - 0)) as [[Hsa Ha] | [Hsa Ha]];
    destruct (Qabs_cases (diff - 1)) as [[Hsb Hb] | [Hsb Hb]]; lra.
Qed.

(** The test of the span against 1 runs before the offset is looked at:
    a span that compares equal to 1, and not to 0, gives the full segment
    whatever the offset. *)
Lemma segment_of_full_span (eps vStart vEnd vOffset : float) :
  VGlobal.vCompare eps (Qabs (vStart / 100 - vEnd / 100)) 1 = true ->
  VGlobal.vCompare eps (Qabs (vStart / 100 - vEnd / 100)) 0 = false
  \/ eps <= 1 # 2 ->
  Trim.segment_of eps vStart vEnd vOffset = Some (Trim.mkSegment 0 1).
Proof.
  intros H1 H0. unfold Trim.segment_of.
  assert (Hnot0 : VGlobal.vCompare eps (Qabs (vStart / 100 - vEnd / 100)) 0
                  = false).
  { destruct H0 as [H0 | Heps]; [exact H0 |].
    now apply span_tests_exclusive. }
  now rewrite Hnot0, H1.
Qed.

(** C2 (amended).  At every frame, with the tolerance of the approximate
    comparison between 0 and 1: start 0%, end 100% and offset 0 give the
    segment (0,1); start equal to end gives (0,0) whatever the offset; for
    percentages between 0 and 100 a segment is returned, which has
    start > end when the span |start - end| is neither approximately 0
    nor approximately 1 and exactly one shifted endpoint wraps past
    [0,1], and has start <= end when neither or both wrap.  A span that is
    approximately 1 gives (0,1) whatever the offset and the percentages,
    unless it is approximately 0 as well, the test that runs first; a
    tolerance of at most one half rules that out. *)
Theorem trim_segment_cases (eps : float) (trim : Trim.t) (frameNo : Z)
  (vStart vEnd vOffset : float) :
  0 < eps -> eps <= 1 ->
  Property.value (Trim.mStart trim) frameNo = Some vStart ->
  Property.value (Trim.mEnd trim) frameNo = Some vEnd ->
  Property.value (Trim.mOffset trim) frameNo = Some vOffset ->
  let s := vStart / 100 + Trim_offset vOffset in
  let e := vEnd / 100 + Trim_offset vOffset in
  let diff := Qabs (vStart / 100 - vEnd / 100) in
  (vStart == 0 -> vEnd == 100 -> vOffset == 0 ->
   Trim.segment eps trim frameNo = Some (Trim.mkSegment 0 1))
  /\ (vStart == vEnd ->
      Trim.segment eps trim frameNo = Some (Trim.mkSegment 0 0))
  /\ (0 <= vStart <= 100 -> 0 <= vEnd <= 100 ->
      exists seg : Trim.Segment,
        Trim.segment eps trim frameNo = Some seg
        /\ (VGlobal.vCompare eps diff 0 = false ->
            VGlobal.vCompare eps diff 1 = false ->
            (leaves_unit_interval s /\ ~ leaves_unit_interval e)
            \/ (~ leaves_unit_interval s /\ leaves_unit_interval e) ->
            Trim.end' seg < Trim.start seg)
        /\ ((leaves_unit_interval s /\ leaves_unit_interval e)
            \/ (~ leaves_unit_interval s /\ ~ leaves_unit_interval e) ->
            Trim.start seg <= Trim.end' seg))
  /\ (VGlobal.vCompare eps diff 1 = true ->
      VGlobal.vCompare eps diff 0 = false \/ eps <= 1 # 2 ->
      Trim.segment eps trim frameNo = Some (Trim.mkSegment 0 1)).
Proof.
  intros Heps Heps1 HS HE HO s e diff.
  unfold Trim.segment. rewrite HS, HE, HO.
  split; [| split; [| split]]; [| | | now apply segment_of_full_span].
  - intros H0 H100 _. now apply segment_of_full.
  - intros Heq. now apply segment_of_empty.
  - intros [HS0 HS100] [HE0 HE100].
    destruct (segment_of_defined eps vStart vEnd vOffset Heps Heps1 HS0 HE0)
      as [seg [Hseg [Hloop Hnoloop]]].
    exists seg. split; [exact Hseg | split].
    + intros Hd0 Hd1 Hone. now apply Hloop.
    + intros Hnone. now apply Hnoloop.
Qed.

Lemma trim_segment_cases_witness :
  Trim.segment Sample.epsilon (Sample.trim 0 100 0) 7
  = Some (Trim.mkSegment 0 1)
  /\ Trim.segment Sample.epsilon (Sample.trim 50 50 30) 7
     = Some (Trim.mkSegment 0 0)
  /\ (exists seg : Trim.Segment,
        Trim.segment Sample.epsilon (Sample.trim 10 90 90) 7 = Some seg
        /\ Trim.end' seg < Trim.start seg)
  /\ (exists seg : Trim.Segment,
        Trim.segment Sample.epsilon (Sample.trim 10 50 90) 7 = Some seg
        /\ Trim.start seg <= Trim.end' seg)
  /\ Trim.segment Sample.epsilon (Sample.trim 0 100 90) 7
     = Some (Trim.mkSegment 0 1).
Proof.
  assert (Heps : 0 < Sample.epsilon) by reflexivity.
  assert (Heps1 : Sample.epsilon <= 1) by (vm_compute; discriminate).
  split; [| split; [| split; [| split]]].
  - apply (proj1 (trim_segment_cases Sample.epsilon (Sample.trim 0 100 0)
                    7 0 100 0 Heps Heps1 eq_refl eq_refl eq_refl));
      reflexivity.
  - apply (proj1 (proj2 (trim_segment_cases Sample.epsilon
                           (Sample.trim 50 50 30) 7 50 50 30 Heps Heps1
                           eq_refl eq_refl eq_refl)));
      reflexivity.
  - destruct (trim_segment_cases Sample.epsilon (Sample.trim 10 90 90) 7
                10 90 90 Heps Heps1 eq_refl eq_refl eq_refl)
      as [_ [_ [H _]]].
    destruct H as [seg [Hseg [Hloop _]]].
    + split; vm_compute; discriminate.
    + split; vm_compute; discriminate.
    + exists seg. split; [exact Hseg |].
      apply Hloop; [reflexivity | reflexivity |].
      right. split.
      * intros [H | H]; vm_compute in H; discriminate.
      * right. reflexivity.
  - destruct (trim_segment_cases Sample.epsilon (Sample.trim 10 50 90) 7
                10 50 90 Heps Heps1 eq_refl eq_refl eq_refl)
      as [_ [_ [H _]]].
    destruct H as [seg [Hseg [_ Hnoloop]]].
    + split; vm_compute; discriminate.
    + split; vm_compute; discriminate.
    + exists seg. split; [exact Hseg |].
      apply Hnoloop. right.
      split; intros [H | H]; vm_compute in H; discriminate.
  - apply (proj2 (proj2 (proj2
             (trim_segment_cases Sample.epsilon (Sample.trim 0 100 90) 7
                0 100 90 Heps Heps1 eq_refl eq_refl eq_refl))));
      [reflexivity | left; reflexivity].
Defined.

(** ** Text documents *)

Lemma textDocument_scan_found (before after : list TextDocument.t)
  (doc : TextDocument.t) (frameNo : Z) :
  Forall (fun d => (TextDocument.mTime d < frameNo)%Z) before ->
  (frameNo <= TextDocument.mTime doc)%Z ->
  TextLayerData.textDocument_scan (before ++ doc :: after) frameNo
  = Some doc.
Proof.
  intros Hbefore Hdoc. induction Hbefore as [| d before Hd _ IH]; cbn.
  - destruct (Z.geb_spec (TextDocument.mTime doc) frameNo);
      [reflexivity | lia].
  - destruct (Z.geb_spec (TextDocument.mTime d) frameNo); [lia | exact IH].
Qed.

Lemma textDocument_scan_none (docs : list TextDocument.t) (frameNo : Z) :
  Forall (fun d => (TextDocument.mTime d < frameNo)%Z) docs ->
  TextLayerData.textDocument_scan docs frameNo = None.
Proof.
  induction 1 as [| d docs Hd _ IH]; cbn; [reflexivity |].
  destruct (Z.geb_spec (TextDocument.mTime d) frameNo); [lia | exact IH].
Qed.

(** C8.  The active document at a frame is the first document, in stored
    order, whose start frame is greater than or equal to the frame; when
    no document has such a start frame it is the last document. *)
Theorem textDocument_next_cut (this : TextLayerData.t) (frameNo : Z) :
  (forall (before after : list TextDocument.t) (doc : TextDocument.t),
     TextLayerData.mTextDocument this = before ++ doc :: after ->
     Forall (fun d => (TextDocument.mTime d < frameNo)%Z) before ->
     (TextDocument.mTime doc >= frameNo)%Z ->
     TextLayerData.textDocument this frameNo = Some doc)
  /\ (forall (front : TextDocument.t) (rest : list TextDocument.t),
        TextLayerData.mTextDocument this = front :: rest ->
        Forall (fun d => (TextDocument.mTime d < frameNo)%Z)
          (front :: rest) ->
        TextLayerData.textDocument this frameNo
        = Some (last (front :: rest) front)).
Proof.
  unfold TextLayerData.textDocument. split.
  - intros before after doc -> Hbefore Hdoc.
    rewrite textDocument_scan_found by (auto; lia). reflexivity.
  - intros front rest -> Hall.
    rewrite textDocument_scan_none by exact Hall. reflexivity.
Qed.

Lemma textDocument_next_cut_witness :
  TextLayerData.textDocument Sample.cuts 5 = Some (Sample.doc_at 10)
  /\ TextLayerData.textDocument Sample.cuts 25 = Some (Sample.doc_at 20).
Proof.
  split.
  - apply (proj1 (textDocument_next_cut Sample.cuts 5)
             [Sample.doc_at 0] [Sample.doc_at 20] (Sample.doc_at 10)).
    + reflexivity.
    + constructor; [reflexivity | constructor].
    + vm_compute. discriminate.
  - apply (proj2 (textDocument_next_cut Sample.cuts 25)
             (Sample.doc_at 0) [Sample.doc_at 10; Sample.doc_at 20]).
    + reflexivity.
    + repeat constructor.
Defined.

(** ** Text range selectors *)

Lemma of_int_succ (i : Z) : of_int (i + 1) == of_int i + 1.
Proof. unfold of_int. rewrite inject_Z_plus. reflexivity. Qed.

(** For a range that is not inverted, the weight of a character is the
    length of the part of the character that the range covers. *)
Lemma progress_is_coverage (rangeStart rangeEnd : float) (i : Z) :
  rangeStart <= rangeEnd ->
  TextLayerData.progress rangeStart rangeEnd i
  == coverage rangeStart rangeEnd i.
Proof.
  intros Hrange. pose proof (of_int_succ i) as Hi.
  unfold TextLayerData.progress, coverage, fmin, fmax.
  set (j := of_int (i + 1)) in *. set (k := of_int i) in *.
  split_ifs; bool_props; lra.
Qed.

(** An inverted range covers nothing, and its [progress] can be negative:
    the test [progress > 0] then skips the animator, as for the weight 0. *)
Lemma inverted_range_progress :
  TextLayerData.progress 5 2 3 == -3
  /\ fgt (TextLayerData.progress 5 2 3) 0 = false.
Proof. split; reflexivity. Qed.

(** The weight is the [progress] that gates and scales the blending of an
    animator into the record of the character. *)
Lemma applyAnimator_weight (frameNo textLength i : Z)
  (animProp : CharAnimatedProperties.t) (textAnim : TextAnimator.t) :
  TextLayerData.applyAnimator frameNo textLength i animProp textAnim
  = let? w := animatorWeight textAnim frameNo textLength i in
    if fgt w 0
    then TextLayerData.applyProperties frameNo w animProp
           (TextAnimator.mAnimatedProperties textAnim)
    else Some animProp.
Proof.
  unfold TextLayerData.applyAnimator, animatorWeight.
  destruct (TextLayerData.rangeIndex textAnim frameNo textLength)
    as [[rangeStartIndex rangeEndIndex] |]; reflexivity.
Qed.

(** C3.  At any frame, an animator whose selector range is
    [rangeStart, rangeEnd) in character indices gives the character [i]
    the weight 1 when [i, i+1) lies inside the range, the weight 0 when
    the range lies entirely before or after the character, and, when
    exactly one boundary of the range falls inside the character, a
    weight strictly between 0 and 1 that is the fraction of the character
    the range covers. *)
Theorem text_range_weight (textAnim : TextAnimator.t)
  (frameNo textLength i : Z) (rangeStart rangeEnd : float) :
  TextLayerData.rangeIndex textAnim frameNo textLength
  = Some (rangeStart, rangeEnd) ->
  exists w : float,
    animatorWeight textAnim frameNo textLength i = Some w
    /\ (char_inside rangeStart rangeEnd i -> w == 1)
    /\ (char_outside rangeStart rangeEnd i -> w == 0)
    /\ (char_straddles rangeStart rangeEnd i ->
        0 < w /\ w < 1 /\ w == coverage rangeStart rangeEnd i).
Proof.
  intros Hrange. unfold animatorWeight. rewrite Hrange.
  eexists. split; [reflexivity |].
  pose proof (of_int_succ i) as Hi.
  unfold char_inside, char_outside, char_straddles.
  split; [| split].
  - intros [H1 H2]. unfold TextLayerData.progress.
    apply fle_spec in H1, H2. rewrite H1, H2. reflexivity.
  - intros [Hle Hout]. rewrite progress_is_coverage by exact Hle.
    unfold coverage, fmin, fmax.
    set (j := of_int (i + 1)) in *. set (k := of_int i) in *.
    split_ifs; bool_props; lra.
  - intros Hstr.
    assert (Hle : rangeStart <= rangeEnd).
    { set (j := of_int (i + 1)) in *. set (k := of_int i) in *. lra. }
    rewrite progress_is_coverage by exact Hle.
    unfold coverage, fmin, fmax.
    set (j := of_int (i + 1)) in *. set (k := of_int i) in *.
    split_ifs; bool_props; lra.
Qed.

Lemma text_range_weight_witness :
  (exists w : float,
     animatorWeight Sample.ranged 0 5 2 = Some w /\ w == 1)
  /\ (exists w : float,
        animatorWeight Sample.ranged 0 5 4 = Some w /\ w == 0)
  /\ (exists w : float,
        animatorWeight Sample.ranged 0 5 1 = Some w
        /\ 0 < w /\ w < 1 /\ w == coverage (3 # 2) 4 1).
Proof.
  split; [| split].
  - destruct (text_range_weight Sample.ranged 0 5 2 (3 # 2) 4 eq_refl)
      as (w & Hw & Hin & _ & _).
    exists w. split; [exact Hw |]. apply Hin.
    split; vm_compute; discriminate.
  - destruct (text_range_weight Sample.ranged 0 5 4 (3 # 2) 4 eq_refl)
      as (w & Hw & _ & Hout & _).
    exists w. split; [exact Hw |]. apply Hout.
    split; [| left]; vm_compute; discriminate.
  - destruct (text_range_weight Sample.ranged 0 5 1 (3 # 2) 4 eq_refl)
      as (w & Hw & _ & _ & Hstr).
    exists w. split; [exact Hw |]. apply Hstr.
    right. split; [reflexivity | split; [reflexivity |]].
    vm_compute. discriminate.
Defined.

(** ** Text snapshots *)

Lemma Property_value_defined {T V : Type} `{ValueLike V T} `{Default T}
  (p : Property.t T V) (frameNo : Z) :
  Property_defined p = true ->
  exists v : T, Property.value p frameNo = Some v.
Proof.
  destruct p as [v | [frames]]; cbn; intros Hdef.
  - now exists v.
  - destruct frames as [| front rest]; [discriminate |].
    unfold KeyFrames.value. cbn [KeyFrames.frames_].
    split_ifs; eexists; reflexivity.
Qed.

Lemma applyProperty_defined (frameNo : Z) (progress : float)
  (animProp : CharAnimatedProperties.t) (property : PropertyText.t) :
  PropertyText_defined property = true ->
  exists animProp' : CharAnimatedProperties.t,
    TextLayerData.applyProperty frameNo progress animProp property
    = Some animProp'.
Proof.
  intros Hdef. destruct animProp.
  destruct property as [p | p | p | p | p | p | p | p | p]; cbn in *;
    destruct (Property_value_defined p frameNo Hdef) as [v Hv];
    rewrite Hv; eexists; reflexivity.
Qed.

Lemma applyProperties_defined (frameNo : Z) (progress : float)
  (properties : list PropertyText.t) :
  forallb PropertyText_defined properties = true ->
  forall animProp : CharAnimatedProperties.t,
  exists animProp' : CharAnimatedProperties.t,
    TextLayerData.applyProperties frameNo progress animProp properties
    = Some animProp'.
Proof.
  induction properties as [| property rest IH]; cbn; intros Hdef animProp.
  - now exists animProp.
  - apply andb_true_iff in Hdef as [Hp Hrest].
    destruct (applyProperty_defined frameNo progress animProp property Hp)
      as [animProp' ->].
    now apply IH.
Qed.

Lemma applyAnimators_defined (frameNo textLength i : Z)
  (animators : list TextAnimator.t) :
  forallb TextAnimator_defined animators = true ->
  forall animProp : CharAnimatedProperties.t,
  exists animProp' : CharAnimatedProperties.t,
    TextLayerData.applyAnimators frameNo textLength i animProp animators
    = Some animProp'.
Proof.
  induction animators as [| textAnim rest IH]; cbn; intros Hdef animProp.
  - now exists animProp.
  - apply andb_true_iff in Hdef as [Ha Hrest].
    unfold TextAnimator_defined in Ha.
    apply andb_true_iff in Ha as [Ha Hprops].
    apply andb_true_iff in Ha as [Hs He].
    unfold TextLayerData.applyAnimator, TextLayerData.rangeIndex.
    destruct (Property_value_defined _ frameNo Hs) as [vs ->].
    destruct (Property_value_defined _ frameNo He) as [ve ->].
    destruct (TextAnimator.mRangeUnit textAnim =? 1)%Z;
      match goal with
      | |- context [if ?c then _ else _] => destruct c
      end;
      try (now apply IH);
      match goal with
      | |- context [TextLayerData.applyProperties ?f ?w animProp ?ps] =>
          destruct (applyProperties_defined f w ps Hprops animProp)
            as [animProp' ->]
      end;
      now apply IH.
Qed.

Lemma getTextData_one_turn (this : TextLayerData.t) (obj : TextData.t)
  (frameNo : Z) (doc : TextDocument.t) :
  TextLayerData.isStatic this || negb (TextLayerData.hasRange this) = true ->
  TextLayerData.getTextDocument this frameNo = Some doc ->
  TextLayerData.getTextData this obj frameNo
  = let? animProp :=
      TextLayerData.applyAnimators frameNo 1 0 (documentRecord doc)
        (TextLayerData.mTextAnimator this) in
    Some (snapshot doc obj (TextData.charAnimPropList obj ++ [animProp])).
Proof.
  intros Hfast Hdoc. unfold TextLayerData.getTextData.
  rewrite Hdoc, Hfast. change (Z.to_nat 1) with 1%nat.
  cbn [TextLayerData.charLoop]. unfold TextLayerData.charAnimProp.
  cbn [CharAnimatedProperties.init]. fold (documentRecord doc).
  destruct (TextLayerData.applyAnimators frameNo 1 0 (documentRecord doc)
              (TextLayerData.mTextAnimator this)); reflexivity.
Qed.

(** C4 (amended).  If the text layer is static or no animator defines a
    range selector, [getTextData] appends exactly one character record.
    The record starts from the stroke width, fill colour and stroke
    colour of the selected document and the defaults of the other
    properties, and every animator of the layer is blended into it, as for
    the only character of a text of length 1.  With no animator the record
    holds exactly those document values. *)
Theorem getTextData_shared_record (this : TextLayerData.t)
  (obj : TextData.t) (frameNo : Z) (doc : TextDocument.t) :
  TextLayerData.isStatic this || negb (TextLayerData.hasRange this) = true ->
  TextLayerData.getTextDocument this frameNo = Some doc ->
  (forallb TextAnimator_defined (TextLayerData.mTextAnimator this) = true ->
   exists animProp : CharAnimatedProperties.t,
     TextLayerData.applyAnimators frameNo 1 0 (documentRecord doc)
       (TextLayerData.mTextAnimator this) = Some animProp
     /\ TextLayerData.getTextData this obj frameNo
        = Some (snapshot doc obj
                  (TextData.charAnimPropList obj ++ [animProp])))
  /\ (TextLayerData.mTextAnimator this = [] ->
      TextLayerData.getTextData this obj frameNo
      = Some (snapshot doc obj
                (TextData.charAnimPropList obj ++ [documentRecord doc]))).
Proof.
  intros Hfast Hdoc.
  rewrite (getTextData_one_turn this obj frameNo doc Hfast Hdoc).
  split.
  - intros Hdef.
    destruct (applyAnimators_defined frameNo 1 0 _ Hdef (documentRecord doc))
      as [animProp Happ].
    exists animProp. rewrite Happ. split; reflexivity.
  - intros ->. reflexivity.
Qed.

(** C4 (as stated, refuted).  A layer with one animator that has no range
    selector and animates the fill colour: the single record that
    [getTextData] produces has the red of the animator, not the fill
    colour of the document. *)
Lemma rangeless_animator_overrides_document :
  TextLayerData.hasRange Sample.red_layer = false
  /\ TextLayerData.getTextDocument Sample.red_layer 0 = Some Sample.doc
  /\ exists (obj : TextData.t) (animProp : CharAnimatedProperties.t),
       TextLayerData.getTextData Sample.red_layer TextData.init 0 = Some obj
       /\ TextData.charAnimPropList obj = [animProp]
       /\ ~ (r (CharAnimatedProperties.fillColor animProp)
             == r (TextDocument.mFillColor Sample.doc)).
Proof.
  split; [reflexivity | split; [reflexivity |]].
  eexists. eexists. split; [vm_compute; reflexivity |].
  split; [reflexivity |].
  intros H. vm_compute in H. discriminate.
Qed.

Lemma getTextData_shared_record_witness :
  (exists animProp : CharAnimatedProperties.t,
     TextLayerData.getTextData Sample.red_layer TextData.init 0
     = Some (snapshot Sample.doc TextData.init [animProp]))
  /\ TextLayerData.getTextData Sample.static_layer TextData.init 0
     = Some (snapshot Sample.doc TextData.init
               [documentRecord Sample.doc]).
Proof.
  split.
  - destruct (proj1 (getTextData_shared_record Sample.red_layer
                       TextData.init 0 Sample.doc eq_refl eq_refl)
                eq_refl) as [animProp [_ Hget]].
    exists animProp. exact Hget.
  - exact (proj2 (getTextData_shared_record Sample.static_layer
                    TextData.init 0 Sample.doc eq_refl eq_refl) eq_refl).
Defined.

(** ** Layers *)

(** C10.  A layer without a transform has the identity matrix and the
    opacity 1 at every frame. *)
Theorem layer_without_transform
  (Data_matrix : Transform.Data -> Z -> bool -> option VMatrix.t)
  (layer : Layer.t) (frameNo : Z) :
  Layer.mTransform layer = None ->
  Layer.matrix Data_matrix layer frameNo = Some VMatrix.identity
  /\ Layer.opacity layer frameNo = Some 1.
Proof.
  intros Hnull. unfold Layer.matrix, Layer.opacity. rewrite Hnull.
  split; reflexivity.
Qed.

Lemma layer_without_transform_witness :
  Layer.mTransform Sample.bare_layer = None
  /\ Layer.matrix (fun _ _ _ => None) Sample.bare_layer 42
     = Some VMatrix.identity
  /\ Layer.opacity Sample.bare_layer 42 = Some 1.
Proof.
  split; [reflexivity |].
  apply (layer_without_transform (fun _ _ _ => None) Sample.bare_layer 42).
  reflexivity.
Defined.

(** ** Keyframe tracks: inside the track *)

Section InsideTrack.
Context {V T : Type} `{ValueLike V T} `{Default T}.

Lemma value_scan_first (pre post : list (KeyFrames.Frame V))
  (kf : KeyFrames.Frame V) (frameNo : Z) :
  Forall (fun f => ~ covers f frameNo) pre ->
  covers kf frameNo ->
  KeyFrames.value_scan (pre ++ kf :: post) frameNo
  = KeyFrames.frame_value kf frameNo.
Proof.
  intros Hpre [Hlo Hhi].
  induction Hpre as [| f pre Hf _ IH]; cbn [app KeyFrames.value_scan].
  - apply fge_spec in Hlo. apply flt_spec in Hhi. now rewrite Hlo, Hhi.
  - destruct (fge (of_int frameNo) (KeyFrames.start_ f)) eqn:E1;
      [| exact IH].
    destruct (flt (of_int frameNo) (KeyFrames.end_ f)) eqn:E2;
      [| exact IH].
    exfalso. apply Hf. float_props. now split.
Qed.

Lemma value_scan_none (frames : list (KeyFrames.Frame V)) (frameNo : Z) :
  Forall (fun f => ~ covers f frameNo) frames ->
  KeyFrames.value_scan frames frameNo = dflt.
Proof.
  induction 1 as [| f frames Hf _ IH]; cbn [KeyFrames.value_scan];
    [reflexivity |].
  destruct (fge (of_int frameNo) (KeyFrames.start_ f)) eqn:E1;
    [| exact IH].
  destruct (flt (of_int frameNo) (KeyFrames.end_ f)) eqn:E2;
    [| exact IH].
  exfalso. apply Hf. float_props. now split.
Qed.

Lemma value_between (front : KeyFrames.Frame V)
  (rest : list (KeyFrames.Frame V)) (frameNo : Z) :
  KeyFrames.start_ front < of_int frameNo ->
  of_int frameNo < KeyFrames.end_ (last (front :: rest) front) ->
  KeyFrames.value (KeyFrames.mk (front :: rest)) frameNo
  = Some (KeyFrames.value_scan (front :: rest) frameNo).
Proof.
  intros Hlo Hhi. unfold KeyFrames.value. cbn [KeyFrames.frames_].
  apply fge_false in Hlo. rewrite Hlo.
  apply fle_false in Hhi. now rewrite Hhi.
Qed.

(** X1.  Strictly inside the track, the first segment whose range
    [start, end) contains the frame decides the value: it is that
    segment's value at its progress. *)
Theorem value_inside_segment (front : KeyFrames.Frame V)
  (rest pre post : list (KeyFrames.Frame V)) (kf : KeyFrames.Frame V)
  (frameNo : Z) :
  front :: rest = pre ++ kf :: post ->
  KeyFrames.start_ front < of_int frameNo ->
  of_int frameNo < KeyFrames.end_ (last (front :: rest) front) ->
  Forall (fun f => ~ covers f frameNo) pre ->
  covers kf frameNo ->
  Property.value (Property.Animated (KeyFrames.mk (front :: rest)) :
                    Property.t T V) frameNo
  = Some (v_at (KeyFrames.value_ kf) (KeyFrames.progress kf frameNo)).
Proof.
  intros Hsplit Hlo Hhi Hpre Hkf. cbn [Property.value].
  rewrite value_between by assumption.
  rewrite Hsplit. now rewrite value_scan_first.
Qed.

(** X2.  Strictly inside the track, a frame that no segment contains (a
    gap between two segments) gets the value-initialised [T{}]. *)
Theorem value_in_gap (front : KeyFrames.Frame V)
  (rest : list (KeyFrames.Frame V)) (frameNo : Z) :
  KeyFrames.start_ front < of_int frameNo ->
  of_int frameNo < KeyFrames.end_ (last (front :: rest) front) ->
  Forall (fun f => ~ covers f frameNo) (front :: rest) ->
  Property.value (Property.Animated (KeyFrames.mk (front :: rest)) :
                    Property.t T V) frameNo
  = Some dflt.
Proof.
  intros Hlo Hhi Hnone. cbn [Property.value].
  rewrite value_between by assumption.
  now rewrite value_scan_none.
Qed.

End InsideTrack.

(** X3.  A segment without easing curve does not interpolate: inside the
    track, a [float] property holds the start value of the segment over
    the whole segment. *)
Theorem value_holds_without_interpolator
  (front : KeyFrames.Frame (Value.t float))
  (rest pre post : list (KeyFrames.Frame (Value.t float)))
  (kf : KeyFrames.Frame (Value.t float)) (frameNo : Z) :
  front :: rest = pre ++ kf :: post ->
  KeyFrames.start_ front < of_int frameNo ->
  of_int frameNo < KeyFrames.end_ (last (front :: rest) front) ->
  Forall (fun f => ~ covers f frameNo) pre ->
  covers kf frameNo ->
  KeyFrames.interpolator_ kf = None ->
  exists v : float,
    Property.value (Property.Animated (KeyFrames.mk (front :: rest)))
      frameNo = Some v
    /\ v == Value.start_ (KeyFrames.value_ kf).
Proof.
  intros Hsplit Hlo Hhi Hpre Hkf Hhold.
  cbn [Property.value]. rewrite value_between by assumption.
  rewrite Hsplit, value_scan_first by assumption.
  eexists. split; [reflexivity |].
  unfold KeyFrames.frame_value.
  unfold KeyFrames.progress. rewrite Hhold.
  cbn. unfold Value.at_, lerp. cbn. ring.
Qed.

(** X4.  The angle of a property whose values are no positions is 0 at
    every frame. *)
Theorem angle_without_position {T : Type} `{Arith T}
  (p : Property.t T (Value.t T)) (frameNo : Z) :
  Property_defined p = true ->
  Property.angle p frameNo = Some 0.
Proof.
  destruct p as [v | [frames]]; cbn; [reflexivity |].
  destruct frames as [| front rest]; [discriminate |]. intros _.
  unfold KeyFrames.angle. cbn [KeyFrames.frames_].
  destruct (_ || _); [reflexivity |]. f_equal.
  generalize (front :: rest). intros fs.
  induction fs as [| f fs IH]; cbn [KeyFrames.angle_scan];
    [reflexivity |].
  destruct (_ && _); [reflexivity | exact IH].
Qed.

Lemma value_inside_segment_witness :
  Property.value
    (Property.Animated
       (KeyFrames.mk (Sample.track_front :: Sample.track_rest))) 12
  = Some (v_at (Value.mk 2 5)
            (KeyFrames.progress (Sample.frame 10 20 2 5) 12)).
Proof.
  apply (value_inside_segment (T := float) Sample.track_front
           Sample.track_rest [Sample.track_front] []
           (Sample.frame 10 20 2 5) 12).
  - reflexivity.
  - vm_compute. reflexivity.
  - vm_compute. reflexivity.
  - constructor; [| constructor].
    intros [_ Hhi]. vm_compute in Hhi. discriminate.
  - split; [vm_compute; discriminate | vm_compute; reflexivity].
Defined.

Lemma value_in_gap_witness :
  Property.value
    (Property.Animated
       (KeyFrames.mk (Example.gap_front :: Example.gap_rest))) 15
  = Some 0.
Proof.
  apply (value_in_gap (T := float) Example.gap_front Example.gap_rest 15).
  - vm_compute. reflexivity.
  - vm_compute. reflexivity.
  - constructor; [| constructor; [| constructor]].
    + intros [_ Hhi]. vm_compute in Hhi. discriminate.
    + intros [Hlo _]. vm_compute in Hlo. apply Hlo. reflexivity.
Defined.

Lemma value_holds_without_interpolator_witness :
  exists v : float,
    Property.value
      (Property.Animated
         (KeyFrames.mk (Sample.track_front :: Sample.track_rest))) 12
    = Some v
    /\ v == 2.
Proof.
  apply (value_holds_without_interpolator Sample.track_front
           Sample.track_rest [Sample.track_front] []
           (Sample.frame 10 20 2 5) 12).
  - reflexivity.
  - vm_compute. reflexivity.
  - vm_compute. reflexivity.
  - constructor; [| constructor].
    intros [_ Hhi]. vm_compute in Hhi. discriminate.
  - split; [vm_compute; discriminate | vm_compute; reflexivity].
  - reflexivity.
Defined.

Lemma angle_without_position_witness :
  Property.angle Sample.single_property 15 = Some 0.
Proof.
  apply (angle_without_position (T := float) Sample.single_property 15).
  reflexivity.
Defined.

(** ** Gradient data: interpolation *)

Lemma combine_with_nth (op : float -> float -> float) (a b : list float) :
  length a = length b ->
  forall i : nat,
    nth_error (Gradient.combine_with op a b) i
    = match nth_error a i, nth_error b i with
      | Some x, Some y => Some (op x y)
      | _, _ => None
      end.
Proof.
  revert b. induction a as [| x a IH]; intros [| y b] Hlen i; cbn in *;
    try discriminate.
  - now destruct i.
  - destruct i as [| i]; cbn; [reflexivity |]. apply IH. lia.
Qed.

Lemma Forall2_nth_error (c a : list float) :
  length c = length a ->
  (forall (i : nat) (x : float),
     nth_error a i = Some x ->
     exists z : float, nth_error c i = Some z /\ z == x) ->
  Forall2 Qeq c a.
Proof.
  revert a. induction c as [| z c IH]; intros [| x a] Hlen Hnth;
    cbn in *; try discriminate; constructor.
  - destruct (Hnth 0%nat x eq_refl) as [z' [Hz Heq]].
    cbn in Hz. now injection Hz as ->.
  - apply IH; [lia |]. intros i. exact (Hnth (S i)).
Qed.

(** X5.  Interpolating between two gradient values of different lengths
    gives the start value, unchanged, whatever the progress: the three
    operators fall back in turn. *)
Theorem gradient_lerp_mismatch (a b : Gradient.Data) (t : float) :
  length (Gradient.mGradient a) <> length (Gradient.mGradient b) ->
  lerp a b t = a.
Proof.
  intros Hlen. unfold lerp. cbn [add sub scale Arith_GradientData].
  unfold Gradient.minus.
  assert (Hba : (length (Gradient.mGradient b)
                 =? length (Gradient.mGradient a))%nat = false)
    by (apply Nat.eqb_neq; congruence).
  rewrite Hba. cbn [negb]. unfold Gradient.plus, Gradient.mult.
  cbn [Gradient.mGradient]. rewrite length_map.
  apply Nat.eqb_neq in Hlen. rewrite Hlen. reflexivity.
Qed.

(** X6.  Interpolating between two gradient values of the same length
    keeps the length and blends element by element; at progress 0 the
    result is the start value and at progress 1 the end value. *)
Theorem gradient_lerp_elementwise (a b : Gradient.Data) (t : float) :
  length (Gradient.mGradient a) = length (Gradient.mGradient b) ->
  length (Gradient.mGradient (lerp a b t)) = length (Gradient.mGradient a)
  /\ (forall (i : nat) (x y : float),
        nth_error (Gradient.mGradient a) i = Some x ->
        nth_error (Gradient.mGradient b) i = Some y ->
        nth_error (Gradient.mGradient (lerp a b t)) i
        = Some (x + (y - x) * t))
  /\ (t == 0 ->
      Forall2 Qeq (Gradient.mGradient (lerp a b t)) (Gradient.mGradient a))
  /\ (t == 1 ->
      Forall2 Qeq (Gradient.mGradient (lerp a b t)) (Gradient.mGradient b)).
Proof.
  intros Hlen. destruct a as [a], b as [b]. cbn [Gradient.mGradient] in *.
  unfold lerp. cbn [add sub scale Arith_GradientData].
  unfold Gradient.minus, Gradient.plus, Gradient.mult.
  cbn [Gradient.mGradient].
  assert (Hba : (length b =? length a)%nat = true)
    by (apply Nat.eqb_eq; congruence).
  rewrite Hba. cbn [negb Gradient.mGradient].
  rewrite length_map, combine_with_length, <- Hlen, Nat.eqb_refl.
  cbn [negb Gradient.mGradient].
  assert (Hlen' : length a
                  = length (map (fun i => i * t)
                              (Gradient.combine_with Qminus b a)))
    by (rewrite length_map, combine_with_length; congruence).
  assert (Hnth : forall (i : nat) (x y : float),
            nth_error a i = Some x -> nth_error b i = Some y ->
            nth_error
              (Gradient.combine_with Qplus a
                 (map (fun i => i * t) (Gradient.combine_with Qminus b a)))
              i = Some (x + (y - x) * t)).
  { intros i x y Hx Hy.
    rewrite combine_with_nth by exact Hlen'.
    rewrite nth_error_map, combine_with_nth by congruence.
    now rewrite Hx, Hy. }
  split; [apply combine_with_length | split; [exact Hnth |]].
  split.
  - intros Ht. apply Forall2_nth_error; [apply combine_with_length |].
    intros i x Hx.
    destruct (nth_error b i) as [y |] eqn:Hy.
    + exists (x + (y - x) * t). split; [now apply Hnth |].
      rewrite Ht. ring.
    + apply nth_error_None in Hy.
      assert (Hsome : nth_error a i <> None) by congruence.
      apply nth_error_Some in Hsome. lia.
  - intros Ht.
    apply Forall2_nth_error; [rewrite combine_with_length; exact Hlen |].
    intros i y Hy.
    destruct (nth_error a i) as [x |] eqn:Hx.
    + exists (x + (y - x) * t). split; [now apply Hnth |].
      rewrite Ht. ring.
    + apply nth_error_None in Hx.
      assert (Hsome : nth_error b i <> None) by congruence.
      apply nth_error_Some in Hsome. lia.
Qed.

Lemma gradient_lerp_mismatch_witness :
  lerp (Gradient.mkData [0; 1]) (Gradient.mkData [1]) (1 # 2)
  = Gradient.mkData [0; 1].
Proof.
  apply (gradient_lerp_mismatch (Gradient.mkData [0; 1])
           (Gradient.mkData [1]) (1 # 2)).
  cbn. lia.
Defined.

Lemma gradient_lerp_elementwise_witness :
  nth_error
    (Gradient.mGradient
       (lerp (Gradient.mkData [0; 1 # 2; 1])
          (Gradient.mkData [1; 1; 1 # 4]) (1 # 2))) 2
  = Some (1 + ((1 # 4) - 1) * (1 # 2)).
Proof.
  apply (proj1 (proj2 (gradient_lerp_elementwise
                         (Gradient.mkData [0; 1 # 2; 1])
                         (Gradient.mkData [1; 1; 1 # 4]) (1 # 2)
                         eq_refl)));
    reflexivity.
Defined.

(** ** Path interpolation: a path with itself *)

Lemma blend_same (x : float) (points : list VPointF) :
  Forall2 VPointF_eq (blend points points x) points.
Proof.
  induction points as [| p points IH]; cbn; constructor; [| exact IH].
  split; cbn; ring.
Qed.

(** X7.  Interpolating a path of one move and [k] cubic segments with
    itself gives that path, whatever the progress. *)
Theorem lerp_same_path (p : PathData.t) (k : nat) (x : float)
  (buffer : VPath) :
  length (PathData.mPoints p) = (3 * k + 1)%nat ->
  exists result path : VPath,
    PathData.lerp p p x buffer = Some result
    /\ PathData.toPath p buffer = Some path
    /\ VPath_eq result path.
Proof.
  intros Hlen.
  destruct (one_more k _ Hlen) as (p0 & rest & Hp & Hrest).
  rewrite (lerp_result p p k x buffer p0 p0 rest rest Hp Hp Hrest Hrest).
  rewrite (toPath_result p k buffer p0 rest Hp Hrest).
  eexists. eexists. split; [reflexivity | split; [reflexivity |]].
  assert (Hbody : VPath_eq
            (MoveTo (add p0 (scale x (sub p0 p0)))
             :: cubics (blend rest rest x))
            (MoveTo p0 :: cubics rest)).
  { constructor.
    - constructor. split; cbn; ring.
    - apply (cubics_eq k);
        [rewrite blend_length; auto | apply blend_same]. }
  destruct (PathData.mClosed p); [| exact Hbody].
  unfold VPathOps.close. apply Forall2_app; [exact Hbody |].
  constructor; constructor.
Qed.

Lemma lerp_same_path_witness :
  exists result path : VPath,
    PathData.lerp Sample.path_start Sample.path_start (1 # 3) []
    = Some result
    /\ PathData.toPath Sample.path_start [] = Some path
    /\ VPath_eq result path.
Proof.
  apply (lerp_same_path Sample.path_start 1 (1 # 3) []).
  reflexivity.
Defined.

(** ** Trim segments: range and symmetry *)

(** X8.  For start and end percentages between 0 and 100 the two ends of
    the segment lie in [0,1], whatever the offset. *)
Theorem trim_segment_in_unit_range (eps : float) (trim : Trim.t)
  (frameNo : Z) (vStart vEnd vOffset : float) :
  0 < eps ->
  Property.value (Trim.mStart trim) frameNo = Some vStart ->
  Property.value (Trim.mEnd trim) frameNo = Some vEnd ->
  Property.value (Trim.mOffset trim) frameNo = Some vOffset ->
  0 <= vStart <= 100 -> 0 <= vEnd <= 100 ->
  exists seg : Trim.Segment,
    Trim.segment eps trim frameNo = Some seg
    /\ 0 <= Trim.start seg <= 1 /\ 0 <= Trim.end' seg <= 1.
Proof.
  intros Heps HS HE HO [HS0 HS100] [HE0 HE100].
  unfold Trim.segment. rewrite HS, HE, HO.
  pose proof (Trim_offset_bound vOffset) as [Hlo Hhi].
  unfold Trim.segment_of. fold (Trim_offset vOffset).
  set (o := Trim_offset vOffset) in *.
  assert (HS' : vStart == 100 * (vStart / 100)) by (field; lra).
  assert (HE' : vEnd == 100 * (vEnd / 100)) by (field; lra).
  set (st := vStart / 100) in *. set (en := vEnd / 100) in *.
  destruct (VGlobal.vCompare eps (Qabs (st - en)) 0);
    [eexists; split; [reflexivity | cbn; lra] |].
  destruct (VGlobal.vCompare eps (Qabs (st - en)) 1);
    [eexists; split; [reflexivity | cbn; lra] |].
  unfold Trim.noloop, Trim.loop, fmin, fmax; split_ifs; bool_props;
  try (exfalso; lra);
  (eexists; split; [reflexivity | cbn [Trim.start Trim.end']; lra]).
Qed.

(** X9.  Which of start and end is the larger does not matter: swapping
    the two percentages gives the same segment. *)
Theorem trim_segment_swap (eps : float) (vStart vEnd vOffset : float) :
  0 <= vStart -> 0 <= vEnd ->
  exists seg seg' : Trim.Segment,
    Trim.segment_of eps vStart vEnd vOffset = Some seg
    /\ Trim.segment_of eps vEnd vStart vOffset = Some seg'
    /\ Trim.start seg == Trim.start seg'
    /\ Trim.end' seg == Trim.end' seg'.
Proof.
  intros HS0 HE0.
  pose proof (Trim_offset_bound vOffset) as [Hlo Hhi].
  unfold Trim.segment_of. fold (Trim_offset vOffset).
  set (o := Trim_offset vOffset) in *.
  assert (HS' : vStart == 100 * (vStart / 100)) by (field; lra).
  assert (HE' : vEnd == 100 * (vEnd / 100)) by (field; lra).
  set (st := vStart / 100) in *. set (en := vEnd / 100) in *.
  rewrite (Qabs_Qminus en st).
  destruct (VGlobal.vCompare eps (Qabs (st - en)) 0);
    [eexists; eexists; repeat split; reflexivity |].
  destruct (VGlobal.vCompare eps (Qabs (st - en)) 1);
    [eexists; eexists; repeat split; reflexivity |].
  unfold Trim.noloop, Trim.loop, fmin, fmax; split_ifs; bool_props;
  try (exfalso; lra);
  (eexists; eexists; split; [reflexivity | split; [reflexivity |]];
   cbn [Trim.start Trim.end']; lra).
Qed.

Lemma trim_segment_in_unit_range_witness :
  exists seg : Trim.Segment,
    Trim.segment Sample.epsilon (Sample.trim 25 75 90) 0 = Some seg
    /\ 0 <= Trim.start seg <= 1 /\ 0 <= Trim.end' seg <= 1.
Proof.
  apply (trim_segment_in_unit_range Sample.epsilon (Sample.trim 25 75 90)
           0 25 75 90);
    try reflexivity;
    try (split; vm_compute; discriminate).
Defined.

Lemma trim_segment_swap_witness :
  exists seg seg' : Trim.Segment,
    Trim.segment_of Sample.epsilon 25 75 90 = Some seg
    /\ Trim.segment_of Sample.epsilon 75 25 90 = Some seg'
    /\ Trim.start seg == Trim.start seg'
    /\ Trim.end' seg == Trim.end' seg'.
Proof.
  apply (trim_segment_swap Sample.epsilon 25 75 90);
    vm_compute; discriminate.
Defined.

(** ** Unicode text: comparison *)

Lemma nth_error_here {A : Type} (pre rest : list A) :
  nth_error (pre ++ rest) (length pre) = nth_error rest 0.
Proof.
  rewrite nth_error_app2 by lia. now rewrite Nat.sub_diag.
Qed.

Lemma compare_loop_prefix (rest : list Z) :
  forall (pre pre' rest' : list Z),
    length pre = length pre' ->
    UnicodeText.compare_loop (Some (pre ++ rest)) (Some (pre' ++ rest'))
      (length rest) (length pre) = Some 0%Z
    <-> exists tail : list Z, rest' = rest ++ tail.
Proof.
  induction rest as [| a rest IH]; intros pre pre' rest' Hpre;
    cbn [length UnicodeText.compare_loop].
  - split; [intros _; now exists rest' | reflexivity].
  - unfold UnicodeText.read. rewrite nth_error_here.
    rewrite Hpre, nth_error_here. cbn [nth_error].
    destruct rest' as [| b rest']; cbn [nth_error].
    + split; [discriminate | intros [tail Htail]; discriminate].
    + destruct (Z.eqb_spec a b) as [<- | Hne]; cbn [negb].
      * replace (pre ++ a :: rest) with ((pre ++ [a]) ++ rest)
          by (rewrite <- app_assoc; reflexivity).
        replace (pre' ++ a :: rest') with ((pre' ++ [a]) ++ rest')
          by (rewrite <- app_assoc; reflexivity).
        replace (S (length pre')) with (length (pre ++ [a]))
          by (rewrite length_app; cbn; lia).
        rewrite IH by (rewrite !length_app; cbn; lia).
        split; intros [tail Htail]; exists tail.
        -- now rewrite Htail.
        -- now injection Htail.
      * split; [discriminate |].
        intros [tail Htail]. cbn in Htail. congruence.
Qed.

(** X10.  [compare] is a prefix test, not an equality: for a receiver
    whose recorded length is its number of code points, it returns 0
    exactly when the code points of the receiver are the first code
    points of the argument. *)
Theorem compare_is_prefix_test (this input : Unicode.t) :
  Unicode_wf this ->
  UnicodeText.compare this input = Some 0%Z
  <-> exists tail : list Z,
        Unicode_text input = Unicode_text this ++ tail.
Proof.
  unfold Unicode_wf, Unicode_text, UnicodeText.compare,
    UnicodeText.getUnicodeText.
  destruct this as [[text |] utf8 len], input as [[text' |] utf8' len'];
    cbn; intros Hwf; subst len.
  - exact (compare_loop_prefix text [] [] text' eq_refl).
  - destruct text as [| a text]; cbn.
    + split; [intros _; now exists [] | reflexivity].
    + split; [discriminate | intros [tail Htail]; discriminate].
  - split; [intros _; now exists text' | reflexivity].
  - split; [intros _; now exists [] | reflexivity].
Qed.

Lemma compare_is_prefix_test_witness :
  UnicodeText.compare Example.text_AB Example.text_ABC = Some 0%Z.
Proof.
  apply (proj2 (compare_is_prefix_test Example.text_AB Example.text_ABC
                  eq_refl)).
  exists [67%Z]. reflexivity.
Defined.

(** ** Unicode text: decoding what UTF-8 encodes *)

Section Utf8.
Import Unicode.
Local Open Scope Z_scope.

Lemma byte_of_value (z : Z) :
  0 <= z < 256 -> Z.of_N (Byte.to_N (byte_of z)) = z.
Proof.
  intros Hz. unfold byte_of.
  destruct (Byte.of_N (Z.to_N z)) as [c |] eqn:Hc.
  - apply Byte.to_of_N in Hc. rewrite Hc. lia.
  - apply Byte.of_N_None_iff in Hc. lia.
Qed.

Lemma below_forallb (n : nat) (test : Z -> bool) :
  forallb (fun k => test (Z.of_nat k)) (seq 0 n) = true ->
  forall z : Z, 0 <= z < Z.of_nat n -> test z = true.
Proof.
  intros Hall z Hz. rewrite forallb_forall in Hall.
  specialize (Hall (Z.to_nat z)). rewrite Z2Nat.id in Hall by lia.
  apply Hall. apply in_seq. lia.
Qed.

(** The bits of a continuation byte [10xxxxxx]. *)
Lemma continuation_bits (l : Z) :
  0 <= l < 64 ->
  (0x80 + l =? 0) || isInvalidByte (0x80 + l)
  || negb (isContinuationByte (0x80 + l)) = false
  /\ Z.land (0x80 + l) 0x3f = l.
Proof.
  intros Hl.
  pose proof (below_forallb 64
    (fun l => negb ((0x80 + l =? 0) || isInvalidByte (0x80 + l)
                    || negb (isContinuationByte (0x80 + l)))
              && (Z.land (0x80 + l) 0x3f =? l)) eq_refl l Hl) as H.
  cbv beta in H. apply andb_true_iff in H as [H1 H2].
  apply negb_true_iff in H1. apply Z.eqb_eq in H2. now split.
Qed.

(** The bits of the lead bytes [0xxxxxxx], [110xxxxx], [1110xxxx] and
    [11110xxx]. *)
Lemma lead1_bits (d : Z) :
  0 <= d < 128 -> (Z.land d 0x80 =? 0) = true.
Proof.
  exact (below_forallb 128 (fun d => Z.land d 0x80 =? 0) eq_refl d).
Qed.

Lemma lead2_bits (h : Z) :
  0 <= h < 32 ->
  (Z.land (0xC0 + h) 0x80 =? 0) = false
  /\ (Z.land (0xC0 + h) 0xe0 =? 0xc0) = true
  /\ Z.land (0xC0 + h) 0x1f = h.
Proof.
  intros Hh.
  pose proof (below_forallb 32
    (fun h => negb (Z.land (0xC0 + h) 0x80 =? 0)
              && (Z.land (0xC0 + h) 0xe0 =? 0xc0)
              && (Z.land (0xC0 + h) 0x1f =? h)) eq_refl h Hh) as H.
  cbv beta in H. apply andb_true_iff in H as [H H3].
  apply andb_true_iff in H as [H1 H2].
  apply negb_true_iff in H1. apply Z.eqb_eq in H3. now repeat split.
Qed.

Lemma lead3_bits (h : Z) :
  0 <= h < 16 ->
  (Z.land (0xE0 + h) 0x80 =? 0) = false
  /\ (Z.land (0xE0 + h) 0xe0 =? 0xc0) = false
  /\ (Z.land (0xE0 + h) 0xf0 =? 0xe0) = true
  /\ Z.land (0xE0 + h) 0x0f = h.
Proof.
  intros Hh.
  pose proof (below_forallb 16
    (fun h => negb (Z.land (0xE0 + h) 0x80 =? 0)
              && negb (Z.land (0xE0 + h) 0xe0 =? 0xc0)
              && (Z.land (0xE0 + h) 0xf0 =? 0xe0)
              && (Z.land (0xE0 + h) 0x0f =? h)) eq_refl h Hh) as H.
  cbv beta in H. apply andb_true_iff in H as [H H4].
  apply andb_true_iff in H as [H H3].
  apply andb_true_iff in H as [H1 H2].
  apply negb_true_iff in H1, H2. apply Z.eqb_eq in H4. now repeat split.
Qed.

Lemma lead4_bits (h : Z) :
  0 <= h < 8 ->
  (Z.land (0xF0 + h) 0x80 =? 0) = false
  /\ (Z.land (0xF0 + h) 0xe0 =? 0xc0) = false
  /\ (Z.land (0xF0 + h) 0xf0 =? 0xe0) = false
  /\ (Z.land (0xF0 + h) 0xf8 =? 0xf0) = true
  /\ Z.land (0xF0 + h) 0x07 = h.
Proof.
  intros Hh.
  pose proof (below_forallb 8
    (fun h => negb (Z.land (0xF0 + h) 0x80 =? 0)
              && negb (Z.land (0xF0 + h) 0xe0 =? 0xc0)
              && negb (Z.land (0xF0 + h) 0xf0 =? 0xe0)
              && (Z.land (0xF0 + h) 0xf8 =? 0xf0)
              && (Z.land (0xF0 + h) 0x07 =? h)) eq_refl h Hh) as H.
  cbv beta in H. apply andb_true_iff in H as [H H5].
  apply andb_true_iff in H as [H H4].
  apply andb_true_iff in H as [H H3].
  apply andb_true_iff in H as [H1 H2].
  apply negb_true_iff in H1, H2, H3. apply Z.eqb_eq in H5.
  now repeat split.
Qed.

(** [a | b] is [a + b] when [a] has no bit below [2^n] and [b] none from
    [2^n] on. *)
Lemma lor_is_add (n q b : Z) :
  0 <= n -> 0 <= b < 2 ^ n -> Z.lor (q * 2 ^ n) b = q * 2 ^ n + b.
Proof.
  intros Hn Hb.
  enough (Hland : Z.land (q * 2 ^ n) b = 0)
    by (pose proof (Z.add_lor_land (q * 2 ^ n) b); lia).
  apply Z.bits_inj'. intros k Hk.
  rewrite Z.land_spec, Z.bits_0.
  destruct (Z.lt_ge_cases k n) as [Hlt | Hge].
  - rewrite Z.mul_pow2_bits_low by lia. reflexivity.
  - destruct (Z.eq_dec b 0) as [-> | Hne];
      [now rewrite Z.bits_0, andb_false_r |].
    rewrite (Z.bits_above_log2 b k); [apply andb_false_r | lia |].
    apply Z.log2_lt_pow2; [lia |].
    apply Z.lt_le_trans with (2 ^ n); [lia |].
    apply Z.pow_le_mono_r; lia.
Qed.

Lemma at_encoded (input : list byte) (i : nat) (z : Z) :
  nth_error input i = Some (byte_of z) -> 0 <= z < 256 ->
  at_ input i = Go z.
Proof.
  intros Hnth Hz. unfold at_. rewrite Hnth. now rewrite byte_of_value.
Qed.

Lemma continuation_encoded (input : list byte) (i : nat) (shift r l : Z) :
  nth_error input i = Some (byte_of (0x80 + l)) -> 0 <= l < 64 ->
  continuation input i shift r = Go (Z.lor r (Z.shiftl l shift)).
Proof.
  intros Hnth Hl. unfold continuation.
  rewrite (at_encoded input i (0x80 + l) Hnth) by lia.
  destruct (continuation_bits l Hl) as [Hbad Hbits].
  cbv beta iota. now rewrite Hbad, Hbits.
Qed.

Lemma nth_error_encoded (pre enc post : list byte) (j : nat) (c : byte) :
  nth_error enc j = Some c ->
  nth_error (pre ++ enc ++ post) (length pre + j) = Some c.
Proof.
  intros Hj. rewrite nth_error_app2 by lia.
  replace (length pre + j - length pre)%nat with j by lia.
  rewrite nth_error_app1; [exact Hj |].
  apply nth_error_Some. congruence.
Qed.

Lemma nth_error_encoded_0 (pre enc post : list byte) (c : byte) :
  nth_error enc 0 = Some c ->
  nth_error (pre ++ enc ++ post) (length pre) = Some c.
Proof.
  intros H0. rewrite <- (Nat.add_0_r (length pre)).
  now apply nth_error_encoded.
Qed.

(** At the first byte of an encoded code point, one turn of the decoder
    consumes the whole sequence and pushes the code point. *)
Lemma decode_at_encoded (pre post : list byte) (cp : Z) :
  0 <= cp <= 0x10FFFF ->
  decode_at (pre ++ utf8_encode cp ++ post) (length pre)
  = Go ((length (utf8_encode cp) - 1)%nat, Some cp).
Proof.
  intros Hcp. unfold utf8_encode, decode_at.
  destruct (Z.ltb_spec cp 0x80) as [H1 | H1];
    [| destruct (Z.ltb_spec cp 0x800) as [H2 | H2];
       [| destruct (Z.ltb_spec cp 0x10000) as [H3 | H3]]].
  - rewrite (at_encoded _ (length pre) cp);
      [| now apply nth_error_encoded_0 | lia].
    cbv beta iota. rewrite lead1_bits by lia. reflexivity.
  - pose proof (Z.div_mod cp 64 ltac:(lia)) as Hdm.
    pose proof (Z.mod_pos_bound cp 64 ltac:(lia)) as Hl.
    assert (Hh : 0 <= cp / 64 < 32)
      by (split; [apply Z.div_pos | apply Z.div_lt_upper_bound]; lia).
    rewrite (at_encoded _ (length pre) (0xC0 + cp / 64));
      [| now apply nth_error_encoded_0 | lia].
    destruct (lead2_bits (cp / 64) Hh) as (T1 & T2 & B).
    cbv beta iota zeta. rewrite T1, T2, B.
    rewrite (continuation_encoded _ _ 0 _ (cp mod 64));
      [| now apply nth_error_encoded | lia].
    cbv beta iota.
    rewrite Z.shiftl_0_r, Z.shiftl_mul_pow2 by lia.
    rewrite (lor_is_add 6) by lia.
    replace (cp / 64 * 2 ^ 6 + cp mod 64) with cp by lia.
    destruct (Z.leb_spec cp 0x7F); [lia | reflexivity].
  - pose proof (Z.div_mod cp 64 ltac:(lia)) as Hdm.
    pose proof (Z.mod_pos_bound cp 64 ltac:(lia)) as Hl.
    pose proof (Z.div_mod (cp / 64) 64 ltac:(lia)) as Hdm2.
    pose proof (Z.mod_pos_bound (cp / 64) 64 ltac:(lia)) as Hm.
    assert (Hdiv : cp / 4096 = cp / 64 / 64)
      by (rewrite Z.div_div by lia; reflexivity).
    assert (Hh : 0 <= cp / 4096 < 16)
      by (split; [apply Z.div_pos | apply Z.div_lt_upper_bound]; lia).
    rewrite (at_encoded _ (length pre) (0xE0 + cp / 4096));
      [| now apply nth_error_encoded_0 | lia].
    destruct (lead3_bits (cp / 4096) Hh) as (T1 & T2 & T3 & B).
    cbv beta iota zeta. rewrite T1, T2, T3, B.
    rewrite (continuation_encoded _ _ 6 _ ((cp / 64) mod 64));
      [| now apply nth_error_encoded | lia].
    cbv beta iota.
    rewrite (continuation_encoded _ _ 0 _ (cp mod 64));
      [| now apply nth_error_encoded | lia].
    cbv beta iota.
    rewrite Z.shiftl_0_r, !Z.shiftl_mul_pow2 by lia.
    rewrite (lor_is_add 12) by lia.
    replace (cp / 4096 * 2 ^ 12 + cp / 64 mod 64 * 2 ^ 6)
      with ((cp / 4096 * 64 + cp / 64 mod 64) * 2 ^ 6) by lia.
    rewrite (lor_is_add 6) by lia.
    replace ((cp / 4096 * 64 + cp / 64 mod 64) * 2 ^ 6 + cp mod 64)
      with cp by lia.
    destruct (Z.leb_spec cp 0x7FF); [lia | reflexivity].
  - pose proof (Z.div_mod cp 64 ltac:(lia)) as Hdm.
    pose proof (Z.mod_pos_bound cp 64 ltac:(lia)) as Hl.
    pose proof (Z.div_mod (cp / 64) 64 ltac:(lia)) as Hdm2.
    pose proof (Z.mod_pos_bound (cp / 64) 64 ltac:(lia)) as Hm2.
    pose proof (Z.div_mod (cp / 4096) 64 ltac:(lia)) as Hdm1.
    pose proof (Z.mod_pos_bound (cp / 4096) 64 ltac:(lia)) as Hm1.
    assert (Hdiv : cp / 4096 = cp / 64 / 64)
      by (rewrite Z.div_div by lia; reflexivity).
    assert (Hdiv' : cp / 262144 = cp / 4096 / 64)
      by (rewrite Z.div_div by lia; reflexivity).
    assert (Hh : 0 <= cp / 262144 < 8)
      by (split; [apply Z.div_pos | apply Z.div_lt_upper_bound]; lia).
    rewrite (at_encoded _ (length pre) (0xF0 + cp / 262144));
      [| now apply nth_error_encoded_0 | lia].
    destruct (lead4_bits (cp / 262144) Hh) as (T1 & T2 & T3 & T4 & B).
    cbv beta iota zeta. rewrite T1, T2, T3, T4, B.
    rewrite (continuation_encoded _ _ 12 _ ((cp / 4096) mod 64));
      [| now apply nth_error_encoded | lia].
    cbv beta iota.
    rewrite (continuation_encoded _ _ 6 _ ((cp / 64) mod 64));
      [| now apply nth_error_encoded | lia].
    cbv beta iota.
    rewrite (continuation_encoded _ _ 0 _ (cp mod 64));
      [| now apply nth_error_encoded | lia].
    cbv beta iota.
    rewrite Z.shiftl_0_r, !Z.shiftl_mul_pow2 by lia.
    rewrite (lor_is_add 18) by lia.
    replace (cp / 262144 * 2 ^ 18 + cp / 4096 mod 64 * 2 ^ 12)
      with ((cp / 262144 * 64 + cp / 4096 mod 64) * 2 ^ 12) by lia.
    rewrite (lor_is_add 12) by lia.
    replace ((cp / 262144 * 64 + cp / 4096 mod 64) * 2 ^ 12
             + cp / 64 mod 64 * 2 ^ 6)
      with (((cp / 262144 * 64 + cp / 4096 mod 64) * 64
             + cp / 64 mod 64) * 2 ^ 6) by lia.
    rewrite (lor_is_add 6) by lia.
    replace (((cp / 262144 * 64 + cp / 4096 mod 64) * 64
              + cp / 64 mod 64) * 2 ^ 6 + cp mod 64)
      with cp by lia.
    destruct (Z.leb_spec cp 0xFFFF); [lia | reflexivity].
Qed.

Lemma utf8_encode_length (cp : Z) :
  (1 <= length (utf8_encode cp) <= 4)%nat.
Proof.
  unfold utf8_encode.
  destruct (cp <? 0x80); [cbn; lia |].
  destruct (cp <? 0x800); [cbn; lia |].
  destruct (cp <? 0x10000); cbn; lia.
Qed.

Lemma convert_loop_unfold (input : list byte) (i : nat) (out : list Z) :
  convert_loop input i out
  = if lt_dec i (length input)
    then match decode_at input i with
         | OutOfRange => Throws
         | ReturnFalse => Returns false out
         | Go (used, r) =>
             convert_loop input (S (i + used)) (push_back out r)
         end
    else Returns true out.
Proof.
  simp convert_loop. destruct (lt_dec i (length input)); cbn;
    [| reflexivity].
  destruct (decode_at input i) as [[used r] | |]; reflexivity.
Qed.

Lemma convert_loop_encoded (cps : list Z) :
  Forall (fun cp => 0 <= cp <= 0x10FFFF) cps ->
  forall (pre : list byte) (out : list Z),
    convert_loop (pre ++ concat (map utf8_encode cps)) (length pre) out
    = Returns true (out ++ cps).
Proof.
  induction 1 as [| cp cps Hcp _ IH]; intros pre out;
    rewrite convert_loop_unfold; cbn [map concat].
  - rewrite app_nil_r.
    destruct (lt_dec (length pre) (length pre)); [lia |].
    now rewrite app_nil_r.
  - pose proof (utf8_encode_length cp) as Hlen.
    destruct (lt_dec _ _) as [_ | Hge];
      [| rewrite !length_app in Hge; lia].
    rewrite decode_at_encoded by exact Hcp.
    replace (S (length pre + (length (utf8_encode cp) - 1)))
      with (length (pre ++ utf8_encode cp))
      by (rewrite length_app; lia).
    rewrite app_assoc, IH. cbn [push_back]. now rewrite <- app_assoc.
Qed.

End Utf8.

(** X11.  Decoding inverts encoding: the UTF-8 encoding of any sequence
    of Unicode code points decodes, with success, to that sequence, and
    [setUtf8Text] stores it with its length. *)
Theorem decode_utf8_encoding (u : Unicode.t) (cps : list Z) :
  Forall (fun cp => (0 <= cp <= 0x10FFFF)%Z) cps ->
  let input := concat (map utf8_encode cps) in
  Unicode.convertToUnicode input [] = Unicode.Returns true cps
  /\ Unicode.setUtf8Text u input
     = Some (Unicode.mk (Some cps) input (length cps)).
Proof.
  intros Hcps input.
  assert (Hconv : Unicode.convertToUnicode input []
                  = Unicode.Returns true cps)
    by exact (convert_loop_encoded cps Hcps [] []).
  split; [exact Hconv |].
  unfold Unicode.setUtf8Text. now rewrite Hconv.
Qed.

Lemma decode_utf8_encoding_witness :
  Unicode.convertToUnicode (concat (map utf8_encode Example.code_points)) []
  = Unicode.Returns true Example.code_points
  /\ Unicode.setUtf8Text Unicode.empty
       (concat (map utf8_encode Example.code_points))
     = Some (Unicode.mk (Some Example.code_points)
               (concat (map utf8_encode Example.code_points)) 4).
Proof.
  apply (decode_utf8_encoding Unicode.empty Example.code_points).
  repeat constructor; lia.
Defined.

(** ** Unicode text: what the decoder never yields *)

Lemma at_nonneg (input : list byte) (i : nat) (d : Z) :
  Unicode.at_ input i = Unicode.Go d -> (0 <= d)%Z.
Proof.
  unfold Unicode.at_. destruct (nth_error input i); [| discriminate].
  intros [= <-]. lia.
Qed.

(** X12.  Overlong forms are rejected: a code point that one turn of the
    decoder yields from a sequence of [used + 1] bytes is at least the
    smallest code point that needs so many bytes. *)
Theorem decoded_in_shortest_form (input : list byte) (i used : nat)
  (r : Z) :
  Unicode.decode_at input i = Unicode.Go (used, Some r) ->
  (used <= 5)%nat /\ (shortest_form_minimum used <= r)%Z.
Proof.
  unfold Unicode.decode_at.
  destruct (Unicode.at_ input i) as [d | |] eqn:Hd; try discriminate.
  apply at_nonneg in Hd.
  repeat match goal with
  | |- (if ?c then _ else _) = _ -> _ => destruct c eqn:?
  | |- match Unicode.continuation ?a ?b ?c ?e with _ => _ end = _ -> _ =>
      destruct (Unicode.continuation a b c e)
  end;
  intros H; try discriminate; injection H as <- <-;
  repeat match goal with
  | H : (_ <=? _)%Z = false |- _ => apply Z.leb_gt in H
  end;
  cbn [shortest_form_minimum]; lia.
Qed.

Lemma convert_loop_length (input : list byte) (n : nat) :
  forall (i : nat) (out out' : list Z) (ok : bool),
    (length input - i <= n)%nat ->
    Unicode.convert_loop input i out = Unicode.Returns ok out' ->
    (length out' <= length out + (length input - i))%nat.
Proof.
  induction n as [| n IH]; intros i out out' ok Hn;
    rewrite convert_loop_unfold;
    destruct (lt_dec i (length input)) as [Hlt | Hge];
    try lia; try (intros [= _ <-]; lia).
  destruct (Unicode.decode_at input i) as [[used r] | |];
    [| intros [= _ <-]; lia | discriminate].
  intros Hloop. apply IH in Hloop; [| lia].
  assert (Hpush : (length (Unicode.push_back out r) <= S (length out))%nat)
    by (destruct r; cbn; rewrite ?length_app; cbn; lia).
  lia.
Qed.

(** X13.  A decode that returns, with success or not, has produced at
    most one code point per byte of the input. *)
Theorem decoded_length_bound (input : list byte) (ok : bool)
  (out : list Z) :
  Unicode.convertToUnicode input [] = Unicode.Returns ok out ->
  (length out <= length input)%nat.
Proof.
  intros Hconv.
  apply (convert_loop_length input (length input)) in Hconv; cbn in *; lia.
Qed.

Lemma decoded_in_shortest_form_witness :
  (1 <= 5)%nat /\ (shortest_form_minimum 1 <= 0xE9)%Z.
Proof.
  apply (decoded_in_shortest_form [xc3; xa9]%byte 0 1 0xE9).
  reflexivity.
Defined.

Lemma decoded_length_bound_witness :
  (length [0x41; 0x43]%Z <= length Sample.stray_text)%nat.
Proof.
  apply (decoded_length_bound Sample.stray_text true [0x41; 0x43]%Z).
  reflexivity.
Defined.

(** ** Fonts and glyphs *)

Lemma ffamily_scan_sound (fonts : list Fonts.t) (fname family : string) :
  FontDB.ffamily_scan fonts fname = Some family ->
  exists (before after : list Fonts.t) (font : Fonts.t),
    fonts = before ++ font :: after
    /\ Forall (fun f => Fonts.mFontName f <> fname) before
    /\ Fonts.mFontName font = fname
    /\ Fonts.mFontFamily font = family.
Proof.
  induction fonts as [| obj rest IH]; cbn; [discriminate |].
  destruct (String.eqb_spec fname (Fonts.mFontName obj)) as [Heq | Hne].
  - intros [= <-]. exists [], rest, obj. repeat split; auto.
  - intros Hrest. destruct (IH Hrest) as (before & after & font & H).
    destruct H as (-> & Hbefore & Hname & Hfam).
    exists (obj :: before), after, font. repeat split; auto.
Qed.

Lemma ffamily_scan_none (fonts : list Fonts.t) (fname : string) :
  Forall (fun f => Fonts.mFontName f <> fname) fonts ->
  FontDB.ffamily_scan fonts fname = None.
Proof.
  induction 1 as [| obj rest Hobj _ IH]; cbn; [reflexivity |].
  destruct (String.eqb_spec fname (Fonts.mFontName obj)); [congruence |].
  exact IH.
Qed.

Lemma chars_scan_sound (glyphs : list Chars.t) (charCode size : Z)
  (family : string) (obj : Chars.t) :
  FontDB.chars_scan glyphs charCode size family = Some (Some obj) ->
  In obj glyphs /\ glyph_matches obj charCode size family.
Proof.
  induction glyphs as [| g rest IH]; cbn; [discriminate |].
  destruct (Z.eqb_spec size (ftrunc (Chars.mSize g))) as [Hsize | Hsize].
  - destruct (UnicodeText.at_index (Chars.mCh g) 0) as [ch |] eqn:Hch;
      [| discriminate].
    destruct (Z.eqb_spec charCode ch) as [Hcode | Hcode]; cbn.
    + destruct (String.eqb_spec (Chars.mFontFamily g) family)
        as [Hfam | Hfam].
      * intros [= <-]. split; [now left |].
        unfold glyph_matches. subst. auto.
      * intros Hrest. destruct (IH Hrest). auto.
    + intros Hrest. destruct (IH Hrest). auto.
  - intros Hrest. destruct (IH Hrest). auto.
Qed.

(** X14.  A glyph that [load] returns is stored in the database, has the
    requested code point and size, and belongs to the family of the first
    font registered under the requested name. *)
Theorem load_sound (db : FontDB.t) (charCode size : Z) (fname : string)
  (obj : Chars.t) :
  FontDB.load db charCode size fname = Some (Some obj) ->
  In obj (FontDB.mChars db)
  /\ exists (before after : list Fonts.t) (font : Fonts.t),
       FontDB.mFonts db = before ++ font :: after
       /\ Forall (fun f => Fonts.mFontName f <> fname) before
       /\ Fonts.mFontName font = fname
       /\ glyph_matches obj charCode size (Fonts.mFontFamily font).
Proof.
  unfold FontDB.load, FontDB.chars, FontDB.ffamily.
  destruct (FontDB.mChars db) as [| g rest] eqn:Hchars; [discriminate |].
  destruct (FontDB.ffamily_scan (FontDB.mFonts db) fname)
    as [family |] eqn:Hfam; [| discriminate].
  intros Hscan. apply chars_scan_sound in Hscan as [Hin Hmatch].
  split; [exact Hin |].
  destruct (ffamily_scan_sound _ _ _ Hfam)
    as (before & after & font & Hfonts & Hbefore & Hname & Hfamily).
  exists before, after, font. subst family. auto.
Qed.

(** X15.  A name under which no font is registered gives the null
    pointer, whatever glyphs the database holds. *)
Theorem load_unknown_font (db : FontDB.t) (charCode size : Z)
  (fname : string) :
  Forall (fun f => Fonts.mFontName f <> fname) (FontDB.mFonts db) ->
  FontDB.load db charCode size fname = Some None.
Proof.
  intros Hnone. unfold FontDB.load, FontDB.ffamily.
  destruct (FontDB.mChars db); [reflexivity |].
  now rewrite ffamily_scan_none.
Qed.

Lemma chars_scan_first (before after : list Chars.t) (obj : Chars.t)
  (charCode size : Z) (family : string) :
  Forall glyph_defined before ->
  Forall (fun g => ~ glyph_matches g charCode size family) before ->
  glyph_matches obj charCode size family ->
  FontDB.chars_scan (before ++ obj :: after) charCode size family
  = Some (Some obj).
Proof.
  intros Hdef Hbefore (Hsize & Hcode & Hfam).
  induction Hdef as [| g before [ch Hch] _ IH]; cbn.
  - rewrite Hsize, Z.eqb_refl, Hcode, Z.eqb_refl, Hfam, String.eqb_refl.
    reflexivity.
  - inversion Hbefore as [| ? ? Hg Hrest]; subst.
    destruct (Z.eqb_spec (ftrunc (Chars.mSize obj))
                (ftrunc (Chars.mSize g))) as [Hs | Hs]; [| now apply IH].
    rewrite Hch.
    destruct (Z.eqb_spec charCode ch) as [Hc | Hc]; cbn; [| now apply IH].
    destruct (String.eqb_spec (Chars.mFontFamily g)
                (Chars.mFontFamily obj)) as [Hf | Hf]; [| now apply IH].
    exfalso. apply Hg. unfold glyph_matches. subst. auto.
Qed.

(** X16.  If a font is registered under the name and a glyph with the
    code point, the size and the family of the first such font is
    stored, [load] returns the first such glyph. *)
Theorem load_first_glyph (db : FontDB.t) (charCode size : Z)
  (fname : string) (fonts_before fonts_after : list Fonts.t)
  (font : Fonts.t) (before after : list Chars.t) (obj : Chars.t) :
  FontDB.mFonts db = fonts_before ++ font :: fonts_after ->
  Forall (fun f => Fonts.mFontName f <> fname) fonts_before ->
  Fonts.mFontName font = fname ->
  FontDB.mChars db = before ++ obj :: after ->
  Forall glyph_defined before ->
  Forall (fun g => ~ glyph_matches g charCode size
                      (Fonts.mFontFamily font)) before ->
  glyph_matches obj charCode size (Fonts.mFontFamily font) ->
  FontDB.load db charCode size fname = Some (Some obj).
Proof.
  intros Hfonts Hfb Hname Hchars Hdef Hbefore Hmatch.
  unfold FontDB.load, FontDB.chars, FontDB.ffamily.
  rewrite Hchars, Hfonts.
  assert (Hfam : FontDB.ffamily_scan (fonts_before ++ font :: fonts_after)
                   fname = Some (Fonts.mFontFamily font)).
  { clear - Hfb Hname. induction Hfb as [| f fb Hf _ IH]; cbn.
    - now rewrite Hname, String.eqb_refl.
    - destruct (String.eqb_spec fname (Fonts.mFontName f));
        [congruence | exact IH]. }
  rewrite Hfam.
  destruct (before ++ obj :: after) eqn:Hlist;
    [destruct before; discriminate |].
  rewrite <- Hlist. now apply chars_scan_first.
Qed.

Lemma load_sound_witness :
  In Example.sans_A (FontDB.mChars Example.fonts)
  /\ exists (before after : list Fonts.t) (font : Fonts.t),
       FontDB.mFonts Example.fonts = before ++ font :: after
       /\ Forall (fun f => Fonts.mFontName f <> "Arial-Regular"%string)
            before
       /\ Fonts.mFontName font = "Arial-Regular"%string
       /\ glyph_matches Example.sans_A 65 12 (Fonts.mFontFamily font).
Proof.
  apply (load_sound Example.fonts 65 12 "Arial-Regular" Example.sans_A).
  reflexivity.
Defined.

Lemma load_unknown_font_witness :
  FontDB.load Example.fonts 65 12 "Courier" = Some None.
Proof.
  apply (load_unknown_font Example.fonts 65 12 "Courier").
  repeat constructor; discriminate.
Defined.

Lemma load_first_glyph_witness :
  FontDB.load Example.fonts 65 12 "Arial-Regular"
  = Some (Some Example.sans_A).
Proof.
  apply (load_first_glyph Example.fonts 65 12 "Arial-Regular"
           [Fonts.mk "Times-Regular" "Serif" "Regular" 70] []
           (Fonts.mk "Arial-Regular" "Sans" "Regular" 75)
           [Example.serif_A] [] Example.sans_A).
  - reflexivity.
  - repeat constructor; discriminate.
  - reflexivity.
  - reflexivity.
  - repeat constructor. exists 65%Z. reflexivity.
  - repeat constructor. intros (_ & _ & Hfamily). discriminate.
  - repeat split.
Defined.

(** ** Compositions and layer time *)

Lemma fround_nearest (a : float) :
  0 <= a -> of_int (fround a) - (1 # 2) <= a /\ a < of_int (fround a) + (1 # 2).
Proof.
  intros Ha. unfold fround, of_int.
  destruct (flt a 0) eqn:E; [float_props; lra |].
  pose proof (Qfloor_le (a + (1 # 2))) as Hlo.
  pose proof (Qlt_floor (a + (1 # 2))) as Hhi.
  rewrite inject_Z_plus in Hhi. change (inject_Z 1) with 1 in Hhi.
  split; lra.
Qed.

Lemma fround_of_int (n : Z) (a : float) :
  (0 <= n)%Z -> a == of_int n -> fround a = n.
Proof.
  intros Hn Ha. unfold fround.
  assert (H0 : 0 <= a).
  { assert (H : inject_Z 0 <= inject_Z n)
      by (rewrite <- Zle_Qle; exact Hn).
    rewrite Ha. exact H. }
  destruct (flt a 0) eqn:E; [float_props; lra |].
  assert (Hlo : (n <= Qfloor (a + (1 # 2)))%Z).
  { rewrite <- (Qfloor_Z n). apply Qfloor_resp_le.
    rewrite Ha. unfold of_int. lra. }
  assert (Hhi : (Qfloor (a + (1 # 2)) < n + 1)%Z).
  { pose proof (Qfloor_le (a + (1 # 2))) as Hf.
    rewrite Zlt_Qlt. rewrite inject_Z_plus.
    unfold of_int in Ha. change (inject_Z 1) with 1. lra. }
  lia.
Qed.

Lemma fround_mono (a b : float) : a <= b -> (fround a <= fround b)%Z.
Proof.
  intros Hab. unfold fround.
  destruct (flt a 0) eqn:Ea, (flt b 0) eqn:Eb; float_props.
  - apply Z.opp_le_mono. rewrite !Z.opp_involutive.
    apply Qfloor_resp_le. lra.
  - assert (H1 : (0 <= Qfloor (- a + (1 # 2)))%Z).
    { rewrite <- (Qfloor_Z 0). apply Qfloor_resp_le.
      change (inject_Z 0) with 0. lra. }
    assert (H2 : (0 <= Qfloor (b + (1 # 2)))%Z).
    { rewrite <- (Qfloor_Z 0). apply Qfloor_resp_le.
      change (inject_Z 0) with 0. lra. }
    lia.
  - lra.
  - apply Qfloor_resp_le. lra.
Qed.

(** The position clamped to [0,1], as [frameAtPos] does. *)
Lemma frameAtPos_value (c : Composition.t) (pos : float) :
  (0 <= Composition.frameDuration c)%Z ->
  exists p : float,
    0 <= p <= 1
    /\ (pos <= 0 -> p == 0) /\ (1 <= pos -> p == 1)
    /\ (0 <= pos <= 1 -> p == pos)
    /\ Composition.frameAtPos c pos
       = Some (fround (p * of_int (Composition.frameDuration c))).
Proof.
  intros HD. unfold Composition.frameAtPos.
  set (p0 := if flt pos 0 then 0 else pos).
  set (p := if fgt p0 1 then 1 else p0).
  assert (Hp : 0 <= p <= 1 /\ (pos <= 0 -> p == 0) /\ (1 <= pos -> p == 1)
               /\ (0 <= pos <= 1 -> p == pos)).
  { subst p p0. split_ifs; float_props; repeat split; intros; lra. }
  exists p. destruct Hp as (Hp01 & H0 & H1 & Hid).
  repeat split; try tauto; try lra.
  assert (HDq : 0 <= of_int (Composition.frameDuration c)).
  { assert (H : inject_Z 0 <= inject_Z (Composition.frameDuration c))
      by (rewrite <- Zle_Qle; exact HD).
    exact H. }
  assert (Hx : 0 <= p * of_int (Composition.frameDuration c)) by nra.
  pose proof (fround_mono 0 _ Hx) as Hf.
  change (fround 0) with 0%Z in Hf.
  destruct (Z.ltb_spec (fround (p * of_int (Composition.frameDuration c))) 0);
    [lia | reflexivity].
Qed.

(** X17.  [frameAtPos] clamps the position to [0,1]: for a composition
    that does not end before it starts, the frame lies between 0 and the
    frame duration, is 0 for every position at or below 0 and the frame
    duration for every position at or above 1. *)
Theorem frameAtPos_clamps (c : Composition.t) (pos : float) :
  (0 <= Composition.frameDuration c)%Z ->
  exists frame : Z,
    Composition.frameAtPos c pos = Some frame
    /\ (0 <= frame <= Composition.frameDuration c)%Z
    /\ (pos <= 0 -> frame = 0%Z)
    /\ (1 <= pos -> frame = Composition.frameDuration c).
Proof.
  intros HD.
  destruct (frameAtPos_value c pos HD) as (p & Hp & H0 & H1 & _ & Hf).
  assert (HDq : 0 <= of_int (Composition.frameDuration c)).
  { assert (H : inject_Z 0 <= inject_Z (Composition.frameDuration c))
      by (rewrite <- Zle_Qle; exact HD).
    exact H. }
  eexists. split; [exact Hf |].
  set (D := Composition.frameDuration c) in *.
  assert (HfD : fround (of_int D) = D)
    by (apply fround_of_int; [exact HD | reflexivity]).
  split; [| split].
  - split.
    + change 0%Z with (fround 0). apply fround_mono. nra.
    + rewrite <- HfD at 2. apply fround_mono. nra.
  - intros Hpos. apply (fround_of_int 0); [lia |].
    rewrite (H0 Hpos). unfold of_int. ring.
  - intros Hpos. apply fround_of_int; [exact HD |].
    rewrite (H1 Hpos). ring.
Qed.

(** X18.  [frameAtPos] is monotone: a later position never gives an
    earlier frame. *)
Theorem frameAtPos_monotone (c : Composition.t) (pos pos' : float) :
  (0 <= Composition.frameDuration c)%Z -> pos <= pos' ->
  exists frame frame' : Z,
    Composition.frameAtPos c pos = Some frame
    /\ Composition.frameAtPos c pos' = Some frame'
    /\ (frame <= frame')%Z.
Proof.
  intros HD Hle.
  destruct (frameAtPos_value c pos HD) as (p & Hp & H0 & H1 & Hid & Hf).
  destruct (frameAtPos_value c pos' HD)
    as (p' & Hp' & H0' & H1' & Hid' & Hf').
  assert (HDq : 0 <= of_int (Composition.frameDuration c)).
  { assert (H : inject_Z 0 <= inject_Z (Composition.frameDuration c))
      by (rewrite <- Zle_Qle; exact HD).
    exact H. }
  eexists. eexists. split; [exact Hf | split; [exact Hf' |]].
  apply fround_mono.
  assert (Hpp : p <= p').
  { destruct (Qlt_le_dec pos 0) as [Hneg | Hnn].
    - rewrite (H0 (Qlt_le_weak _ _ Hneg)). tauto.
    - destruct (Qlt_le_dec 1 pos') as [Hbig | Hsmall].
      + rewrite (H1' (Qlt_le_weak _ _ Hbig)). tauto.
      + rewrite Hid, Hid' by (split; lra). exact Hle. }
  nra.
Qed.

(** Within the composition, [frameAtTime] is the frame nearest to the
    time multiplied by the frame rate. *)
Lemma frameAtTime_nearest (c : Composition.t) (timeInSec : float) :
  0 < Composition.frameRate c ->
  (0 < Composition.frameDuration c)%Z ->
  0 <= timeInSec ->
  timeInSec * Composition.frameRate c
  <= of_int (Composition.frameDuration c) ->
  Composition.frameAtTime c timeInSec
  = Some (fround (timeInSec * Composition.frameRate c)).
Proof.
  intros HR HD Ht0 HtR.
  assert (HD0 : (0 <= Composition.frameDuration c)%Z) by lia.
  assert (HDq : 0 < of_int (Composition.frameDuration c)).
  { assert (H : inject_Z 0 < inject_Z (Composition.frameDuration c))
      by (rewrite <- Zlt_Qlt; exact HD).
    exact H. }
  unfold Composition.frameAtTime, Composition.duration.
  set (R := Composition.frameRate c) in *.
  set (D := of_int (Composition.frameDuration c)) in *.
  assert (HR0 : Qeq_bool R 0 = false).
  { destruct (Qeq_bool R 0) eqn:E; [| reflexivity].
    apply Qeq_bool_eq in E. lra. }
  assert (Hdur : 0 < D / R) by (apply Qlt_shift_div_l; lra).
  assert (Hd0 : Qeq_bool (D / R) 0 = false).
  { destruct (Qeq_bool (D / R) 0) eqn:E; [| reflexivity].
    apply Qeq_bool_eq in E. lra. }
  rewrite HR0. cbn -[Qeq_bool Qdiv]. rewrite Hd0.
  assert (Hpos : timeInSec / (D / R) == timeInSec * R / D)
    by (field; split; lra).
  destruct (frameAtPos_value c (timeInSec / (D / R)) HD0)
    as (p & Hp & _ & _ & Hid & Hf).
  rewrite Hf. f_equal.
  assert (Hin : 0 <= timeInSec * R / D <= 1).
  { split.
    - apply Qle_shift_div_l; [exact HDq | nra].
    - apply Qle_shift_div_r; [exact HDq | lra]. }
  assert (Hx : p * D == timeInSec * R).
  { rewrite Hid by (rewrite Hpos; exact Hin).
    rewrite Hpos. field. lra. }
  fold D. apply Z.le_antisymm; apply fround_mono; lra.
Qed.

(** X19.  [frameAtTime] inverts the time of a frame: for a positive frame
    rate, the time [n / frameRate] of a frame [n] of the composition maps
    back to [n]; and every time from 0 to the end of the composition maps
    to the frame nearest to [time * frameRate]. *)
Theorem frameAtTime_of_frame_time (c : Composition.t) :
  0 < Composition.frameRate c ->
  (0 < Composition.frameDuration c)%Z ->
  (forall n : Z,
     (0 <= n <= Composition.frameDuration c)%Z ->
     Composition.frameAtTime c (of_int n / Composition.frameRate c)
     = Some n)
  /\ (forall timeInSec : float,
        0 <= timeInSec ->
        timeInSec * Composition.frameRate c
        <= of_int (Composition.frameDuration c) ->
        exists frame : Z,
          Composition.frameAtTime c timeInSec = Some frame
          /\ of_int frame - (1 # 2)
             <= timeInSec * Composition.frameRate c
          /\ timeInSec * Composition.frameRate c
             < of_int frame + (1 # 2)).
Proof.
  intros HR HD. split.
  - intros n Hn.
    assert (Hn0 : 0 <= of_int n).
    { assert (H : inject_Z 0 <= inject_Z n) by (rewrite <- Zle_Qle; lia).
      exact H. }
    assert (HnD : of_int n <= of_int (Composition.frameDuration c))
      by (unfold of_int; rewrite <- Zle_Qle; lia).
    assert (Hx : of_int n / Composition.frameRate c
                 * Composition.frameRate c == of_int n)
      by (field; lra).
    rewrite frameAtTime_nearest; try assumption.
    + f_equal. apply fround_of_int; [lia | exact Hx].
    + apply Qle_shift_div_l; [exact HR | lra].
    + rewrite Hx. exact HnD.
  - intros timeInSec Ht0 HtR.
    rewrite frameAtTime_nearest by assumption.
    eexists. split; [reflexivity |].
    apply fround_nearest.
    apply Qmult_le_0_compat; [exact Ht0 | lra].
Qed.

(** Truncation is the floor of a non-negative number and the ceiling of a
    negative one. *)
Lemma ftrunc_floor (a : float) :
  ftrunc a = if Qle_bool 0 a then Qfloor a else (- Qfloor (- a))%Z.
Proof.
  destruct a as [n d]. unfold ftrunc, Qle_bool, Qfloor, Qopp.
  cbn [Qnum Qden]. rewrite Z.mul_1_r, Z.mul_0_l.
  destruct (Z.leb_spec 0 n) as [Hn | Hn].
  - apply Z.quot_div_nonneg; lia.
  - rewrite <- (Z.opp_involutive n) at 1.
    rewrite Z.quot_opp_l by lia. f_equal.
    apply Z.quot_div_nonneg; lia.
Qed.

Lemma ftrunc_mono (a b : float) : a <= b -> (ftrunc a <= ftrunc b)%Z.
Proof.
  intros Hab. rewrite !ftrunc_floor.
  destruct (Qle_bool 0 a) eqn:Ea, (Qle_bool 0 b) eqn:Eb.
  - now apply Qfloor_resp_le.
  - apply Qle_bool_iff in Ea.
    assert (Hb : ~ 0 <= b) by (rewrite <- Qle_bool_iff; congruence).
    lra.
  - assert (Ha : ~ 0 <= a) by (rewrite <- Qle_bool_iff; congruence).
    apply Qle_bool_iff in Eb.
    assert (H1 : (0 <= Qfloor (- a))%Z).
    { change 0%Z with (Qfloor 0). apply Qfloor_resp_le. lra. }
    assert (H2 : (0 <= Qfloor b)%Z).
    { change 0%Z with (Qfloor 0). now apply Qfloor_resp_le. }
    lia.
  - assert (H : (Qfloor (- b) <= Qfloor (- a))%Z)
      by (apply Qfloor_resp_le; lra).
    lia.
Qed.

Lemma ftrunc_of_int (n : Z) (a : float) : a == of_int n -> ftrunc a = n.
Proof.
  intros Ha.
  assert (Hn : ftrunc (of_int n) = n).
  { unfold ftrunc, of_int, inject_Z. cbn [Qnum Qden]. apply Z.quot_1_r. }
  rewrite <- Hn.
  apply Z.le_antisymm; apply ftrunc_mono; lra.
Qed.

Lemma timeRemap_plain (l : Layer.t) (mExtra : option LayerTime.Extra)
  (frameNo : Z) :
  without_time_remap mExtra ->
  ~ Layer.mTimeStreatch l == 0 ->
  LayerTime.timeRemap l mExtra frameNo
  = Some (ftrunc (of_int (frameNo - Layer.mStartFrame l)
                  / Layer.mTimeStreatch l)).
Proof.
  intros Hplain Hs. unfold LayerTime.timeRemap, LayerTime.startFrame.
  assert (Hz : Qeq_bool (Layer.mTimeStreatch l) 0 = false).
  { destruct (Qeq_bool (Layer.mTimeStreatch l) 0) eqn:E; [| reflexivity].
    apply Qeq_bool_eq in E. contradiction. }
  destruct mExtra as [extra |]; cbn in Hplain |- *.
  - rewrite Hplain. cbn. now rewrite Hz.
  - now rewrite Hz.
Qed.


(** X21.  Without a time remapping and with a positive time stretch,
    [timeRemap] is monotone in the frame. *)
Theorem timeRemap_monotone (l : Layer.t)
  (mExtra : option LayerTime.Extra) (frameNo frameNo' : Z) :
  without_time_remap mExtra ->
  0 < Layer.mTimeStreatch l ->
  (frameNo <= frameNo')%Z ->
  exists frame frame' : Z,
    LayerTime.timeRemap l mExtra frameNo = Some frame
    /\ LayerTime.timeRemap l mExtra frameNo' = Some frame'
    /\ (frame <= frame')%Z.
Proof.
  intros Hplain Hs Hle.
  rewrite !(timeRemap_plain l mExtra _ Hplain) by lra.
  eexists. eexists. split; [reflexivity | split; [reflexivity |]].
  apply ftrunc_mono.
  assert (H : of_int (frameNo - Layer.mStartFrame l)
              <= of_int (frameNo' - Layer.mStartFrame l)).
  { unfold of_int. rewrite <- Zle_Qle. lia. }
  set (s := Layer.mTimeStreatch l) in *.
  apply Qle_shift_div_l; [exact Hs |].
  assert (Hx : of_int (frameNo - Layer.mStartFrame l) / s * s
               == of_int (frameNo - Layer.mStartFrame l))
    by (field; lra).
  rewrite Hx. exact H.
Qed.

(** X22.  With an animated time remapping and a time stretch of 1,
    [timeRemap] is the frame of the referenced composition nearest to the
    remapped time (in seconds) times the frame rate; the layer's start
    frame plays no part. *)
Theorem timeRemap_animated (l : Layer.t) (extra : LayerTime.Extra)
  (comp : Composition.t) (frameNo : Z) (timeInSec : float) :
  Property.isStatic (LayerTime.mTimeRemap extra) = false ->
  LayerTime.mCompRef extra = Some comp ->
  Property.value (LayerTime.mTimeRemap extra) frameNo = Some timeInSec ->
  0 < Composition.frameRate comp ->
  (0 < Composition.frameDuration comp)%Z ->
  0 <= timeInSec ->
  timeInSec * Composition.frameRate comp
  <= of_int (Composition.frameDuration comp) ->
  Layer.mTimeStreatch l == 1 ->
  exists frame : Z,
    LayerTime.timeRemap l (Some extra) frameNo = Some frame
    /\ of_int frame - (1 # 2) <= timeInSec * Composition.frameRate comp
    /\ timeInSec * Composition.frameRate comp < of_int frame + (1 # 2).
Proof.
  intros Hanim Hcomp Hval HR HD Ht0 Ht1 Hs.
  pose proof (frameAtTime_nearest comp timeInSec HR HD Ht0 Ht1) as Hf.
  assert (Hnn : 0 <= timeInSec * Composition.frameRate comp)
    by (apply Qmult_le_0_compat; [exact Ht0 | lra]).
  destruct (fround_nearest _ Hnn) as [Hlo Hhi].
  eexists. split; [| split; eassumption].
  unfold LayerTime.timeRemap. rewrite Hanim, Hcomp. cbn -[Qeq_bool Qdiv].
  rewrite Hval. cbn -[Qeq_bool Qdiv]. rewrite Hf. cbn -[Qeq_bool Qdiv].
  assert (Hz : Qeq_bool (Layer.mTimeStreatch l) 0 = false).
  { destruct (Qeq_bool (Layer.mTimeStreatch l) 0) eqn:E; [| reflexivity].
    apply Qeq_bool_eq in E. lra. }
  rewrite Hz. f_equal. apply ftrunc_of_int. rewrite Hs. field.
Qed.

Lemma frameAtPos_clamps_witness :
  exists frame : Z,
    Composition.frameAtPos Example.comp (3 # 2) = Some frame
    /\ (0 <= frame <= Composition.frameDuration Example.comp)%Z
    /\ ((3 # 2) <= 0 -> frame = 0%Z)
    /\ (1 <= (3 # 2) -> frame = Composition.frameDuration Example.comp).
Proof.
  apply (frameAtPos_clamps Example.comp (3 # 2)).
  vm_compute. discriminate.
Defined.

Lemma frameAtPos_monotone_witness :
  exists frame frame' : Z,
    Composition.frameAtPos Example.comp (1 # 4) = Some frame
    /\ Composition.frameAtPos Example.comp (1 # 2) = Some frame'
    /\ (frame <= frame')%Z.
Proof.
  apply (frameAtPos_monotone Example.comp (1 # 4) (1 # 2));
    vm_compute; discriminate.
Defined.

Lemma frameAtTime_of_frame_time_witness :
  Composition.frameAtTime Example.comp
    (of_int 45 / Composition.frameRate Example.comp)
  = Some 45%Z.
Proof.
  apply (proj1 (frameAtTime_of_frame_time Example.comp eq_refl eq_refl)).
  cbn. lia.
Defined.


Lemma timeRemap_monotone_witness :
  exists frame frame' : Z,
    LayerTime.timeRemap Example.slow_layer None 12 = Some frame
    /\ LayerTime.timeRemap Example.slow_layer None 13 = Some frame'
    /\ (frame <= frame')%Z.
Proof.
  apply (timeRemap_monotone Example.slow_layer None 12 13).
  - exact I.
  - reflexivity.
  - lia.
Defined.

Lemma timeRemap_animated_witness :
  exists frame : Z,
    LayerTime.timeRemap Example.remapped_layer (Some Example.remap) 0
    = Some frame
    /\ of_int frame - (1 # 2)
       <= (1 # 2) * Composition.frameRate Example.comp
    /\ (1 # 2) * Composition.frameRate Example.comp
       < of_int frame + (1 # 2).
Proof.
  apply (timeRemap_animated Example.remapped_layer Example.remap
           Example.comp 0 (1 # 2));
    try reflexivity; vm_compute; discriminate.
Defined.

(** ** Setting a transform *)

Section TransformCache.
Variable Data_matrix : Transform.Data -> Z -> bool -> option VMatrix.t.

(** X23.  A transform set as static answers every frame, and either
    value of [autoOrient], with the matrix and the opacity that its data
    has at frame 0 (the matrix with [autoOrient] off). *)
Theorem set_static_is_frame_zero (data : Transform.Data)
  (tr : Transform.t) :
  TransformSet.set Data_matrix data true = Some tr ->
  forall (frameNo : Z) (autoOrient : bool),
    Transform.opacity tr frameNo = Transform.Data_opacity data 0
    /\ Transform.matrix Data_matrix tr frameNo autoOrient
       = Data_matrix data 0 false.
Proof.
  unfold TransformSet.set. intros Hset frameNo autoOrient.
  destruct (Data_matrix data 0 false) as [m |]; [| discriminate].
  destruct (Transform.Data_opacity data 0) as [o |]; [| discriminate].
  injection Hset as <-. split; reflexivity.
Qed.

(** X24.  When the opacity of the data is a static property, setting the
    transform as static loses nothing of it: at every frame the opacity is
    the one that the transform set as animated computes. *)
Theorem set_static_opacity_sound (data : Transform.Data)
  (tr tr' : Transform.t) :
  Property.isStatic (Transform.mOpacity data) = true ->
  TransformSet.set Data_matrix data true = Some tr ->
  TransformSet.set Data_matrix data false = Some tr' ->
  forall frameNo : Z,
    Transform.opacity tr frameNo = Transform.opacity tr' frameNo.
Proof.
  unfold TransformSet.set. intros Hstatic Hset Hset' frameNo.
  destruct (Data_matrix data 0 false) as [m |]; [| discriminate].
  destruct (Transform.Data_opacity data 0) as [o |] eqn:Ho;
    [| discriminate].
  injection Hset as <-. injection Hset' as <-.
  cbn [Transform.opacity]. rewrite <- Ho.
  unfold Transform.Data_opacity.
  destruct (Transform.mOpacity data); [reflexivity | discriminate].
Qed.
End TransformCache.

Lemma set_static_is_frame_zero_witness :
  Transform.opacity (Transform.StaticData (50 / 100) VMatrix.identity) 7
  = Transform.Data_opacity Example.half_opaque 0
  /\ Transform.matrix Example.identity_matrix
       (Transform.StaticData (50 / 100) VMatrix.identity) 7 true
     = Example.identity_matrix Example.half_opaque 0 false.
Proof.
  apply (set_static_is_frame_zero Example.identity_matrix
           Example.half_opaque
           (Transform.StaticData (50 / 100) VMatrix.identity)).
  reflexivity.
Defined.

Lemma set_static_opacity_sound_witness :
  Transform.opacity (Transform.StaticData (50 / 100) VMatrix.identity) 7
  = Transform.opacity (Transform.Animated Example.half_opaque) 7.
Proof.
  apply (set_static_opacity_sound Example.identity_matrix
           Example.half_opaque
           (Transform.StaticData (50 / 100) VMatrix.identity)
           (Transform.Animated Example.half_opaque));
    reflexivity.
Defined.

(** ** Text snapshots, one record per character *)

Lemma applyAnimators_outside (frameNo textLength i : Z)
  (animators : list TextAnimator.t) (animProp : CharAnimatedProperties.t) :
  outside_every_range animators frameNo textLength i ->
  TextLayerData.applyAnimators frameNo textLength i animProp animators
  = Some animProp.
Proof.
  unfold outside_every_range.
  induction 1 as [| textAnim rest (s & e & Hrange & Hle & Hout) _ IH];
    cbn [TextLayerData.applyAnimators]; [reflexivity |].
  unfold TextLayerData.applyAnimator. rewrite Hrange.
  assert (Hw : TextLayerData.progress s e i <= 0).
  { rewrite progress_is_coverage by exact Hle.
    pose proof (of_int_succ i) as Hi.
    unfold coverage, fmin, fmax.
    set (j := of_int (i + 1)) in *. set (k := of_int i) in *.
    destruct Hout; split_ifs; bool_props; lra. }
  assert (Hgt : fgt (TextLayerData.progress s e i) 0 = false).
  { destruct (fgt (TextLayerData.progress s e i) 0) eqn:E;
      [| reflexivity].
    apply fgt_spec in E. lra. }
  rewrite Hgt. cbn. exact IH.
Qed.

(** X25.  A character that lies outside the selector range of every
    animator at the frame gets the record of the document: the stroke
    width and the two colours of the document and the defaults elsewhere.
    The animated properties are not read for it. *)
Theorem char_outside_every_range (this : TextLayerData.t)
  (doc : TextDocument.t) (frameNo textLength i : Z) :
  outside_every_range (TextLayerData.mTextAnimator this)
    frameNo textLength i ->
  TextLayerData.charAnimProp this doc frameNo textLength i
  = Some (documentRecord doc).
Proof.
  intros Hout. unfold TextLayerData.charAnimProp.
  cbn [CharAnimatedProperties.init]. fold (documentRecord doc).
  now apply applyAnimators_outside.
Qed.

Lemma charLoop_records (this : TextLayerData.t) (doc : TextDocument.t)
  (frameNo textLength : Z) (n : nat) :
  forallb TextAnimator_defined (TextLayerData.mTextAnimator this) = true ->
  forall (i : Z) (old : list CharAnimatedProperties.t),
  exists records : list CharAnimatedProperties.t,
    TextLayerData.charLoop this doc frameNo textLength n i old
    = Some (old ++ records)
    /\ length records = n
    /\ forall k : nat,
         (k < n)%nat ->
         TextLayerData.charAnimProp this doc frameNo textLength
           (i + Z.of_nat k)
         = nth_error records k.
Proof.
  intros Hdef. induction n as [| n IH]; intros i old.
  - exists []. cbn. rewrite app_nil_r. repeat split. intros k Hk. lia.
  - cbn [TextLayerData.charLoop].
    assert (Hrec : exists animProp,
               TextLayerData.charAnimProp this doc frameNo textLength i
               = Some animProp).
    { unfold TextLayerData.charAnimProp. cbn [CharAnimatedProperties.init].
      apply applyAnimators_defined. exact Hdef. }
    destruct Hrec as [animProp Hrec]. rewrite Hrec. cbn.
    destruct (IH (i + 1)%Z (old ++ [animProp])) as (records & Hloop & Hlen & Hnth).
    exists (animProp :: records). rewrite Hloop, <- app_assoc.
    repeat split.
    + cbn. now rewrite Hlen.
    + intros [| k] Hk.
      * cbn. rewrite Z.add_0_r. exact Hrec.
      * cbn [nth_error]. rewrite <- Hnth by lia.
        replace (i + Z.of_nat (S k))%Z with (i + 1 + Z.of_nat k)%Z by lia.
        reflexivity.
Qed.

(** X26.  When an animator of the layer has a range selector,
    [getTextData] appends one record per code point of the text of the
    selected document, after the records that the snapshot already holds:
    the record of the character [k] is the [k]-th one appended. *)
Theorem getTextData_record_per_character (this : TextLayerData.t)
  (obj : TextData.t) (frameNo : Z) (doc : TextDocument.t) :
  TextLayerData.hasRange this = true ->
  TextLayerData.getTextDocument this frameNo = Some doc ->
  forallb TextAnimator_defined (TextLayerData.mTextAnimator this) = true ->
  exists records : list CharAnimatedProperties.t,
    TextLayerData.getTextData this obj frameNo
    = Some (snapshot doc obj (TextData.charAnimPropList obj ++ records))
    /\ length records = Unicode.size (TextDocument.mText doc)
    /\ forall k : nat,
         (k < Unicode.size (TextDocument.mText doc))%nat ->
         TextLayerData.charAnimProp this doc frameNo
           (Z.of_nat (Unicode.size (TextDocument.mText doc))) (Z.of_nat k)
         = nth_error records k.
Proof.
  intros Hrange Hdoc Hdef. unfold TextLayerData.getTextData.
  rewrite Hdoc. cbn -[TextLayerData.charLoop].
  assert (Hslow : TextLayerData.isStatic this
                  || negb (TextLayerData.hasRange this) = false).
  { rewrite Hrange. unfold TextLayerData.isStatic.
    unfold TextLayerData.hasRange in Hrange.
    destruct (TextLayerData.mTextAnimator this); [discriminate |].
    reflexivity. }
  rewrite Hslow. rewrite Nat2Z.id.
  destruct (charLoop_records this doc frameNo
              (Z.of_nat (Unicode.size (TextDocument.mText doc)))
              (Unicode.size (TextDocument.mText doc)) Hdef 0%Z
              (TextData.charAnimPropList obj))
    as (records & Hloop & Hlen & Hnth).
  exists records. rewrite Hloop. repeat split; [exact Hlen |].
  intros k Hk. rewrite <- Hnth by exact Hk. reflexivity.
Qed.

Lemma char_outside_every_range_witness :
  TextLayerData.charAnimProp Example.ranged_layer Sample.doc 0 5 4
  = Some (documentRecord Sample.doc).
Proof.
  apply (char_outside_every_range Example.ranged_layer Sample.doc 0 5 4).
  constructor; [| constructor].
  exists (3 # 2), 4. split; [reflexivity |].
  split; [vm_compute; discriminate | left; vm_compute; discriminate].
Defined.

Lemma getTextData_record_per_character_witness :
  exists records : list CharAnimatedProperties.t,
    TextLayerData.getTextData Example.ranged_layer TextData.init 0
    = Some (snapshot Sample.doc TextData.init
              (TextData.charAnimPropList TextData.init ++ records))
    /\ length records = Unicode.size (TextDocument.mText Sample.doc)
    /\ forall k : nat,
         (k < Unicode.size (TextDocument.mText Sample.doc))%nat ->
         TextLayerData.charAnimProp Example.ranged_layer Sample.doc 0
           (Z.of_nat (Unicode.size (TextDocument.mText Sample.doc)))
           (Z.of_nat k)
         = nth_error records k.
Proof.
  apply (getTextData_record_per_character Example.ranged_layer
           TextData.init 0 Sample.doc);
    reflexivity.
Defined.

(** ** Path properties: inside the track *)

Lemma path_value_scan_none
  (vec : list (KeyFrames.Frame (Value.t PathData.t))) (frameNo : Z)
  (path : VPath) :
  Forall (fun f => ~ covers f frameNo) vec ->
  PathProperty.value_scan vec frameNo path = Some path.
Proof.
  induction 1 as [| f vec Hf _ IH]; cbn [PathProperty.value_scan];
    [reflexivity |].
  destruct (fge (of_int frameNo) (KeyFrames.start_ f)) eqn:E1;
    [| exact IH].
  destruct (flt (of_int frameNo) (KeyFrames.end_ f)) eqn:E2;
    [| exact IH].
  exfalso. apply Hf. float_props. now split.
Qed.

Lemma path_value_scan_app
  (pre post : list (KeyFrames.Frame (Value.t PathData.t))) (frameNo : Z)
  (path : VPath) :
  PathProperty.value_scan (pre ++ post) frameNo path
  = let? path' := PathProperty.value_scan pre frameNo path in
    PathProperty.value_scan post frameNo path'.
Proof.
  revert path. induction pre as [| f pre IH]; intros path;
    cbn [app PathProperty.value_scan]; [reflexivity |].
  destruct (_ && _); [| apply IH].
  destruct (PathData.lerp _ _ _ path); [apply IH | reflexivity].
Qed.

Lemma path_value_between
  (front : KeyFrames.Frame (Value.t PathData.t))
  (rest : list (KeyFrames.Frame (Value.t PathData.t))) (frameNo : Z)
  (path : VPath) :
  KeyFrames.start_ front < of_int frameNo ->
  of_int frameNo < KeyFrames.end_ (last (front :: rest) front) ->
  PathProperty.value (Property.Animated (KeyFrames.mk (front :: rest)))
    frameNo path
  = PathProperty.value_scan (front :: rest) frameNo path.
Proof.
  intros Hlo Hhi. unfold PathProperty.value. cbn [KeyFrames.frames_].
  apply fge_false in Hlo. rewrite Hlo.
  apply fle_false in Hhi. now rewrite Hhi.
Qed.

(** X27.  The loop of the path overload of [value] has no [break]: strictly
    inside the track, the last segment whose range [start, end) contains
    the frame decides the path (the scalar overload takes the first).  The
    result is the interpolation of that segment's two paths at its
    progress, written into a buffer that [lerp] has emptied. *)
Theorem path_value_last_segment_wins
  (front : KeyFrames.Frame (Value.t PathData.t))
  (rest pre post : list (KeyFrames.Frame (Value.t PathData.t)))
  (kf : KeyFrames.Frame (Value.t PathData.t)) (frameNo : Z)
  (path path' : VPath) :
  front :: rest = pre ++ kf :: post ->
  KeyFrames.start_ front < of_int frameNo ->
  of_int frameNo < KeyFrames.end_ (last (front :: rest) front) ->
  PathProperty.value_scan pre frameNo path = Some path' ->
  covers kf frameNo ->
  Forall (fun f => ~ covers f frameNo) post ->
  PathProperty.value (Property.Animated (KeyFrames.mk (front :: rest)))
    frameNo path
  = PathData.lerp (Value.start_ (KeyFrames.value_ kf))
      (Value.end_ (KeyFrames.value_ kf))
      (KeyFrames.progress kf frameNo) [].
Proof.
  intros Hsplit Hlo Hhi Hpre [Hklo Hkhi] Hpost.
  rewrite path_value_between by assumption.
  rewrite Hsplit, path_value_scan_app, Hpre.
  cbn [PathProperty.value_scan].
  apply fge_spec in Hklo. apply flt_spec in Hkhi. rewrite Hklo, Hkhi.
  cbn [andb].
  change (PathData.lerp (Value.start_ (KeyFrames.value_ kf))
            (Value.end_ (KeyFrames.value_ kf))
            (KeyFrames.progress kf frameNo) path')
    with (PathData.lerp (Value.start_ (KeyFrames.value_ kf))
            (Value.end_ (KeyFrames.value_ kf))
            (KeyFrames.progress kf frameNo) []).
  destruct (PathData.lerp _ _ _ []) as [result |]; [| reflexivity].
  now apply path_value_scan_none.
Qed.

Lemma path_value_last_segment_wins_witness :
  PathProperty.value
    (Property.Animated (KeyFrames.mk [Overlap.first; Overlap.second]))
    7 [Close]
  = PathData.lerp Sample.path_end Sample.path_start
      (KeyFrames.progress Overlap.second 7) [].
Proof.
  apply (path_value_last_segment_wins Overlap.first [Overlap.second]
           [Overlap.first] [] Overlap.second 7 [Close]
           [MoveTo (mkPoint 0 0);
            CubicTo (mkPoint 1 0) (mkPoint 1 1) (mkPoint 0 1); Close]).
  - reflexivity.
  - vm_compute. reflexivity.
  - vm_compute. reflexivity.
  - vm_compute. reflexivity.
  - split; [vm_compute; discriminate | vm_compute; reflexivity].
  - constructor.
Defined.

(** X28.  Strictly inside the track, a frame that no segment contains
    leaves the path buffer as it was: nothing resets or writes it (the
    scalar overload returns [T{}] there). *)
Theorem path_value_in_gap
  (front : KeyFrames.Frame (Value.t PathData.t))
  (rest : list (KeyFrames.Frame (Value.t PathData.t))) (frameNo : Z)
  (path : VPath) :
  KeyFrames.start_ front < of_int frameNo ->
  of_int frameNo < KeyFrames.end_ (last (front :: rest) front) ->
  Forall (fun f => ~ covers f frameNo) (front :: rest) ->
  PathProperty.value (Property.Animated (KeyFrames.mk (front :: rest)))
    frameNo path
  = Some path.
Proof.
  intros Hlo Hhi Hnone.
  rewrite path_value_between by assumption.
  now apply path_value_scan_none.
Qed.

Lemma path_value_in_gap_witness :
  PathProperty.value
    (Property.Animated (KeyFrames.mk [Overlap.first; Overlap.late]))
    15 [Close]
  = Some [Close].
Proof.
  apply (path_value_in_gap Overlap.first [Overlap.late] 15 [Close]).
  - vm_compute. reflexivity.
  - vm_compute. reflexivity.
  - constructor; [| constructor; [| constructor]].
    + intros [_ Hhi]. vm_compute in Hhi. discriminate.
    + intros [Hlo _]. vm_compute in Hlo. apply Hlo. reflexivity.
Defined.
